(** * pkg/concurrency/workerpool: the generic bounded worker pool

    An interleaving model of [pool.go].  Every goroutine of the program is a
    small program counter; one [action] is one atomic Go operation of one
    goroutine (a channel operation, one [select], a [close], [cancel],
    [wg.Wait] returning).  Where Go's [select] has several ready cases the
    action names the case that is taken, so that every schedule and every
    pseudo-random choice of the runtime is one trace.

    Conventions:
    - a send that meets a waiting receiver is one action, taken by the
      sender, which names the receiver ([BPeer]);
    - callers of [Submit] and readers of [GetResults()] are the
      environment: each of their calls is one action; callers of
      [SubmitWait], [Stop] and [GracefulStop] are goroutines of the state,
      because these methods take several steps;
    - a panic that nothing recovers sets [crashed]; no action is possible
      afterwards;
    - Go's [int] and the counter of [sync.WaitGroup] are integers of [Z]:
      the pool only counts workers with them. *)

From Stdlib Require Import ZArith String.
From stdpp Require Import base option list gmap.

Open Scope Z_scope.

(** ** Errors and channels *)

(** The [error] values the pool handles: the two errors a context reports,
    and errors made from a text ([errors.New], [fmt.Errorf]). *)
Inductive error : Type :=
| Canceled
| DeadlineExceeded
| ErrorString (msg : string).

(** A Go channel: the buffered elements (head is next to be received), the
    capacity given to [make], and whether [close] ran. *)
Record chan (A : Type) : Type := mkChan {
  buf : list A;
  cap : Z;
  closed : bool;
}.
Arguments mkChan {A} _ _ _.
Arguments buf {A} _.
Arguments cap {A} _.
Arguments closed {A} _.

(** The case a [select] (or a lone channel operation) takes. *)
Inductive peer : Type :=
| PWorker (i : nat)     (* worker goroutine [i] *)
| PClient (j : nat)     (* caller goroutine [j] *)
| PConsumer.            (* a reader of [GetResults()] outside the pool *)

Inductive branch : Type :=
| BRun                  (* a plain statement, no channel involved *)
| BDone                 (* [case <-wp.ctx.Done()] *)
| BBuf                  (* the channel operation is served by the buffer *)
| BClosed               (* the channel operation finds the channel closed *)
| BPeer (p : peer)      (* a send handed directly to the receiver [p] *)
| BDefault.             (* [default] *)

Section Channel.
Context {A : Type}.

(** [make(chan A, n)]: panics for a negative size. *)
Definition make_chan (n : Z) : option (chan A) :=
  if n <? 0 then None else Some (mkChan [] n false).

Definition is_empty (l : list A) : bool :=
  match l with [] => true | _ :: _ => false end.

(** No buffered element and not closed: a receive would block, and a
    sender can only proceed by meeting a receiver. *)
Definition chan_idle (c : chan A) : bool :=
  negb (closed c) && is_empty (buf c).

(** A send that the buffer absorbs. *)
Definition chan_send (x : A) (c : chan A) : option (chan A) :=
  if closed c then None
  else if Z.of_nat (length (buf c)) <? cap c
       then Some (mkChan (buf c ++ [x]) (cap c) (closed c))
       else None.

(** [v, ok := <-c] without a partner: the head of the buffer with
    [ok = true] (also after [close], while elements remain), or the zero
    value with [ok = false] on a closed and drained channel.  The result
    is [Some v] for [ok = true] and [None] for [ok = false]. *)
Definition chan_recv (b : branch) (c : chan A) : option (option A * chan A) :=
  match b with
  | BBuf =>
      match buf c with
      | x :: rest => Some (Some x, mkChan rest (cap c) (closed c))
      | [] => None
      end
  | BClosed => if closed c && is_empty (buf c) then Some (None, c) else None
  | _ => None
  end.

(** [close(c)]: [None] is the panic "close of closed channel". *)
Definition chan_close (c : chan A) : option (chan A) :=
  if closed c then None else Some (mkChan (buf c) (cap c) true).
End Channel.

(** ** The pool *)

Section Pool.
Context {T R : Type}.

(** [var empty R]: the zero value of the result type. *)
Variable zero : R.

Record Result : Type := mkResult {
  Value : R;
  Err : option error;       (* [None] is [nil] *)
}.

(** What one call of the task function does: it returns a pair, or it
    panics with a value whose [%v] rendering is [v]. *)
Inductive outcome : Type :=
| Returns (result : R) (err : option error)
| Panics (v : string).

(** The function given to [Start]; its first argument is what the pool's
    context reports when the call ends. *)
Variable workerFunc : option error -> T -> outcome.

(** The struct.  [ctx] is [wp.ctx.Err()]: [None] until the context is
    done.  [wg] is the WaitGroup counter. *)
Record WorkerPool : Type := mkPool {
  taskChan : chan T;
  resultChan : chan Result;
  wg : Z;
  ctx : option error;
  numWorkers : Z;
}.

(** [NewWorkerPool(cxt, taskBuffer)].  [numCPU] is [runtime.NumCPU()];
    [cxt] is the state of the caller's context, which the child made by
    [context.WithCancel] inherits. *)
Definition NewWorkerPool (numCPU : Z) (cxt : option error) (taskBuffer : Z)
  : option WorkerPool :=
  let numWorkers := if numCPU <? 1 then 1 else numCPU in
  tc ← make_chan taskBuffer;
  rc ← make_chan taskBuffer;
  Some (mkPool tc rc 0 cxt numWorkers).

Definition WithWorkers (n : Z) (wp : WorkerPool) : WorkerPool :=
  if 0 <? n
  then mkPool (taskChan wp) (resultChan wp) (wg wp) (ctx wp) n
  else wp.

(** The context becomes done with error [e] unless it already is: the
    first cause stays. *)
Definition ctx_done (e : error) (wp : WorkerPool) : WorkerPool :=
  match ctx wp with
  | Some _ => wp
  | None => mkPool (taskChan wp) (resultChan wp) (wg wp) (Some e) (numWorkers wp)
  end.

(** [wp.cancel()] *)
Definition cancel (wp : WorkerPool) : WorkerPool := ctx_done Canceled wp.

(** A pool lives at an address; the methods take and return pointers. *)
Definition ptr : Type := nat.

Definition WithWorkers_method (n : Z) (wp : ptr) (h : gmap ptr WorkerPool)
  : option (ptr * gmap ptr WorkerPool) :=
  p ← h !! wp;
  Some (wp, <[wp := WithWorkers n p]> h).

(** ** Goroutines *)

(** A worker started by [Start], by the line it is at. *)
Inductive worker : Type :=
| WSelect                 (* line 62: select on ctx.Done and taskChan *)
| WExec (task : T)        (* line 88: inside workerFunc *)
| WSend (r : Result)      (* line 91: select on ctx.Done and the send *)
| WRecover (r : Result)   (* line 79: the same select in the deferred func *)
| WExit.                  (* returned; the deferred wg.Done() ran *)

(** A caller inside [SubmitWait], [Stop] or [GracefulStop]. *)
Inductive client : Type :=
| SW_check (task : T)     (* line 123 *)
| SW_send (task : T)      (* line 131 *)
| SW_await                (* lines 139-151 *)
| SW_hung                 (* line 151, nothing will ever be sent *)
| SW_ret (v : R) (e : option error)
| Stop_cancel             (* line 162 *)
| Stop_wait               (* line 163 *)
| Stop_check              (* line 166 *)
| Stop_close              (* line 170 or 175 *)
| Stop_ret
| GS_check1               (* line 182 *)
| GS_close1               (* line 186 or 191 *)
| GS_wait                 (* line 194 *)
| GS_cancel               (* line 195 *)
| GS_check2               (* line 198 *)
| GS_close2               (* line 202 or 207 *)
| GS_ret.

Record system : Type := mkSystem {
  pool : WorkerPool;
  workers : list worker;
  clients : list client;
  crashed : bool;           (* an unrecovered panic ended the process *)
}.

Definition with_pool (f : WorkerPool -> WorkerPool) (s : system) : system :=
  mkSystem (f (pool s)) (workers s) (clients s) (crashed s).

Definition set_taskChan (c : chan T) (s : system) : system :=
  with_pool (fun wp => mkPool c (resultChan wp) (wg wp) (ctx wp) (numWorkers wp)) s.

Definition set_resultChan (c : chan Result) (s : system) : system :=
  with_pool (fun wp => mkPool (taskChan wp) c (wg wp) (ctx wp) (numWorkers wp)) s.

Definition add_wg (d : Z) (s : system) : system :=
  with_pool (fun wp => mkPool (taskChan wp) (resultChan wp) (wg wp + d) (ctx wp)
                         (numWorkers wp)) s.

Definition set_worker (i : nat) (w : worker) (s : system) : system :=
  mkSystem (pool s) (<[i := w]> (workers s)) (clients s) (crashed s).

Definition set_client (j : nat) (c : client) (s : system) : system :=
  mkSystem (pool s) (workers s) (<[j := c]> (clients s)) (crashed s).

Definition spawn (c : client) (s : system) : system :=
  mkSystem (pool s) (workers s) (clients s ++ [c]) (crashed s).

Definition crash (s : system) : system :=
  mkSystem (pool s) (workers s) (clients s) true.

Definition is_done (s : system) : bool :=
  match ctx (pool s) with Some _ => true | None => false end.

(** A fresh pool: no goroutine yet. *)
Definition boot (wp : WorkerPool) : system := mkSystem wp [] [] false.

(** [Start]: [wg.Add(numWorkers)], then one goroutine per worker. *)
Definition Start (s : system) : system :=
  let n := numWorkers (pool s) in
  let s' := add_wg n s in
  if wg (pool s') <? 0 then crash s'
  else mkSystem (pool s') (workers s ++ replicate (Z.to_nat n) WSelect)
         (clients s) (crashed s).

(** A worker returns: [defer wp.wg.Done()]. *)
Definition worker_exit (i : nat) (s : system) : system :=
  let s' := add_wg (-1) (set_worker i WExit s) in
  if wg (pool s') <? 0 then crash s' else s'.

(** How a [select] with a send case ended. *)
Inductive sel : Type := SelDone | SelSent | SelPanic.

(** [select { case <-wp.ctx.Done(): ...; case wp.taskChan <- task: ... }]
    (lines 107 and 131). *)
Definition offer_task (t : T) (b : branch) (s : system) : option (sel * system) :=
  let c := taskChan (pool s) in
  match b with
  | BDone => if is_done s then Some (SelDone, s) else None
  | BBuf => c' ← chan_send t c; Some (SelSent, set_taskChan c' s)
  | BClosed => if closed c then Some (SelPanic, s) else None
  | BPeer (PWorker i) =>
      if chan_idle c then
        match workers s !! i with
        | Some WSelect => Some (SelSent, set_worker i (WExec t) s)
        | _ => None
        end
      else None
  | BPeer (PClient j) =>
      if chan_idle c then
        match clients s !! j with
        | Some GS_check1 => Some (SelSent, set_client j GS_close1 s)
        | _ => None
        end
      else None
  | _ => None
  end.

(** [select { case <-wp.ctx.Done(): return; case wp.resultChan <- r: }]
    (lines 79 and 91). *)
Definition offer_result (r : Result) (b : branch) (s : system) : option (sel * system) :=
  let c := resultChan (pool s) in
  match b with
  | BDone => if is_done s then Some (SelDone, s) else None
  | BBuf => c' ← chan_send r c; Some (SelSent, set_resultChan c' s)
  | BClosed => if closed c then Some (SelPanic, s) else None
  | BPeer PConsumer => if chan_idle c then Some (SelSent, s) else None
  | BPeer (PClient j) =>
      if chan_idle c then
        match clients s !! j with
        | Some SW_await => Some (SelSent, set_client j (SW_ret (Value r) (Err r)) s)
        | Some Stop_check => Some (SelSent, set_client j Stop_close s)
        | Some GS_check2 => Some (SelSent, set_client j GS_close2 s)
        | _ => None
        end
      else None
  | _ => None
  end.

(** What is seen from outside the pool. *)
Inductive event : Type :=
| EvSubmit (task : T) (ret : option bool)   (* Submit returned; None: it panicked *)
| EvResult (r : option Result).             (* a read of GetResults(); None: ok = false *)

(** [Submit(task)]: [None] as return value is a panic. *)
Definition Submit (t : T) (b : branch) (s : system) : option (option bool * system) :=
  '(o, s') ← offer_task t b s;
  match o with
  | SelDone => Some (Some false, s')
  | SelSent => Some (Some true, s')
  | SelPanic => Some (None, crash s')
  end.

(** [r, ok := <-wp.GetResults()] by a consumer, served by the channel. *)
Definition Receive (b : branch) (s : system) : option (option Result * system) :=
  '(x, c') ← chan_recv b (resultChan (pool s));
  Some (x, set_resultChan c' s).

(** [fmt.Errorf("panic in worker: %v", r)] in a failure Result. *)
Definition recovered (v : string) : Result :=
  mkResult zero (Some (ErrorString (String.append "panic in worker: " v))).

Definition delivered (b : branch) (o : sel) (r : Result) : list event :=
  match b, o with
  | BPeer PConsumer, SelSent => [EvResult (Some r)]
  | _, _ => []
  end.

Definition worker_step (i : nat) (b : branch) (s : system)
  : option (list event * system) :=
  w ← workers s !! i;
  match w with
  | WSelect =>
      match b with
      | BDone => if is_done s then Some ([], worker_exit i s) else None
      | _ =>
          '(x, c') ← chan_recv b (taskChan (pool s));
          match x with
          | Some t => Some ([], set_worker i (WExec t) (set_taskChan c' s))
          | None => Some ([], worker_exit i s)
          end
      end
  | WExec t =>
      match b with
      | BRun =>
          match workerFunc (ctx (pool s)) t with
          | Returns v e => Some ([], set_worker i (WSend (mkResult v e)) s)
          | Panics v => Some ([], set_worker i (WRecover (recovered v)) s)
          end
      | _ => None
      end
  | WSend r =>
      '(o, s') ← offer_result r b s;
      match o with
      | SelPanic =>
          Some ([], set_worker i (WRecover (recovered "send on closed channel")) s')
      | _ => Some (delivered b o r, set_worker i WSelect s')
      end
  | WRecover r =>
      '(o, s') ← offer_result r b s;
      match o with
      | SelPanic => Some ([], crash s')
      | _ => Some (delivered b o r, set_worker i WSelect s')
      end
  | WExit => None
  end.

(** The check before [close(wp.resultChan)] (lines 166 and 198): the next
    line of the caller, [close] or the end of the check. *)
Definition check_result (b : branch) (to_close skip : client) (s : system)
  : option (client * system) :=
  match b with
  | BDefault => if chan_idle (resultChan (pool s)) then Some (to_close, s) else None
  | _ =>
      '(x, c') ← chan_recv b (resultChan (pool s));
      Some (match x with Some _ => to_close | None => skip end, set_resultChan c' s)
  end.

(** The check before [close(wp.taskChan)] (line 182). *)
Definition check_task (b : branch) (to_close skip : client) (s : system)
  : option (client * system) :=
  match b with
  | BDefault => if chan_idle (taskChan (pool s)) then Some (to_close, s) else None
  | _ =>
      '(x, c') ← chan_recv b (taskChan (pool s));
      Some (match x with Some _ => to_close | None => skip end, set_taskChan c' s)
  end.

Definition plain (b : branch) (s : option system) : option (list event * system) :=
  match b with
  | BRun => s' ← s; Some ([], s')
  | _ => None
  end.

Definition client_step (j : nat) (b : branch) (s : system)
  : option (list event * system) :=
  c ← clients s !! j;
  match c with
  | SW_check t =>
      plain b (Some (set_client j
                       match ctx (pool s) with
                       | Some e => SW_ret zero (Some e)
                       | None => SW_send t
                       end s))
  | SW_send t =>
      '(o, s') ← offer_task t b s;
      match o with
      | SelDone => Some ([], set_client j (SW_ret zero (ctx (pool s'))) s')
      | SelSent => Some ([], set_client j SW_await s')
      | SelPanic => Some ([], crash s')
      end
  | SW_await =>
      match b with
      | BDone =>
          if is_done s then Some ([], set_client j (SW_ret zero (ctx (pool s))) s)
          else None
      | _ =>
          '(x, c') ← chan_recv b (resultChan (pool s));
          Some ([], set_client j
                      match x with
                      | Some r => SW_ret (Value r) (Err r)
                      | None => SW_hung
                      end (set_resultChan c' s))
      end
  | SW_hung | SW_ret _ _ | Stop_ret | GS_ret => None
  | Stop_cancel => plain b (Some (set_client j Stop_wait (with_pool cancel s)))
  | Stop_wait =>
      plain b (if wg (pool s) =? 0 then Some (set_client j Stop_check s) else None)
  | Stop_check =>
      '(c', s') ← check_result b Stop_close Stop_ret s;
      Some ([], set_client j c' s')
  | Stop_close =>
      plain b (Some match chan_close (resultChan (pool s)) with
                    | Some c' => set_client j Stop_ret (set_resultChan c' s)
                    | None => crash s
                    end)
  | GS_check1 =>
      '(c', s') ← check_task b GS_close1 GS_wait s;
      Some ([], set_client j c' s')
  | GS_close1 =>
      plain b (Some match chan_close (taskChan (pool s)) with
                    | Some c' => set_client j GS_wait (set_taskChan c' s)
                    | None => crash s
                    end)
  | GS_wait =>
      plain b (if wg (pool s) =? 0 then Some (set_client j GS_cancel s) else None)
  | GS_cancel => plain b (Some (set_client j GS_check2 (with_pool cancel s)))
  | GS_check2 =>
      '(c', s') ← check_result b GS_close2 GS_ret s;
      Some ([], set_client j c' s')
  | GS_close2 =>
      plain b (Some match chan_close (resultChan (pool s)) with
                    | Some c' => set_client j GS_ret (set_resultChan c' s)
                    | None => crash s
                    end)
  end.

(** ** The transition system *)

Inductive action : Type :=
| AParentDone (e : error)        (* the caller's context becomes done *)
| AWithWorkers (n : Z)
| AStart
| ASubmit (task : T) (b : branch)
| AReceive (b : branch)
| ASubmitWait (task : T)         (* a caller enters SubmitWait *)
| AStop                          (* a caller enters Stop *)
| AGracefulStop                  (* a caller enters GracefulStop *)
| AWorker (i : nat) (b : branch)
| AClient (j : nat) (b : branch).

(** One atomic step; [None] when the action cannot be taken in [s]. *)
Definition exec (a : action) (s : system) : option (list event * system) :=
  if crashed s then None else
  match a with
  | AParentDone e => Some ([], with_pool (ctx_done e) s)
  | AWithWorkers n => Some ([], with_pool (WithWorkers n) s)
  | AStart => Some ([], Start s)
  | ASubmit t b => '(r, s') ← Submit t b s; Some ([EvSubmit t r], s')
  | AReceive b => '(x, s') ← Receive b s; Some ([EvResult x], s')
  | ASubmitWait t => Some ([], spawn (SW_check t) s)
  | AStop => Some ([], spawn Stop_cancel s)
  | AGracefulStop => Some ([], spawn GS_check1 s)
  | AWorker i b => worker_step i b s
  | AClient j b => client_step j b s
  end.

Fixpoint run (tr : list action) (s : system) : option (list event * system) :=
  match tr with
  | [] => Some ([], s)
  | a :: tr' =>
      '(ev, s1) ← exec a s;
      '(ev', s2) ← run tr' s1;
      Some (ev ++ ev', s2)
  end.

End Pool.

(** ** Counting workers *)

Definition is_exec {T R : Type} (w : worker (T:=T) (R:=R)) : bool :=
  match w with WExec _ => true | _ => false end.

Definition is_live {T R : Type} (w : worker (T:=T) (R:=R)) : bool :=
  match w with WExit => false | _ => true end.

Fixpoint count {A : Type} (p : A -> bool) (l : list A) : nat :=
  match l with
  | [] => 0%nat
  | x :: l' => ((if p x then 1 else 0) + count p l')%nat
  end.

(** The number of tasks that are inside the task function. *)
Definition executing {T R : Type} (s : system (T:=T) (R:=R)) : nat :=
  count is_exec (workers s).

Definition is_start {T : Type} (a : action (T:=T)) : bool :=
  match a with AStart => true | _ => false end.

(** The callers that are inside [Stop]. *)
Definition in_Stop {T R : Type} (c : client (T:=T) (R:=R)) : bool :=
  match c with
  | Stop_cancel | Stop_wait | Stop_check | Stop_close => true
  | _ => false
  end.

(** The callers that are past their [wg.Wait()] and may yet close the
    result stream. *)
Definition past_wait {T R : Type} (c : client (T:=T) (R:=R)) : bool :=
  match c with
  | Stop_check | Stop_close | GS_cancel | GS_check2 | GS_close2 => true
  | _ => false
  end.

Definition in_SubmitWait {T R : Type} (c : client (T:=T) (R:=R)) : bool :=
  match c with
  | SW_check _ | SW_send _ | SW_await | SW_hung | SW_ret _ _ => true
  | _ => false
  end.

(** The actions before the pool is started and in use: no Start and no
    shutdown call. *)
Definition is_setup {T : Type} (a : action (T:=T)) : bool :=
  match a with
  | AStart | AStop | AGracefulStop => false
  | _ => true
  end.

(** ** Properties of states and results *)

Section Properties.
Context {T R : Type} (zero : R).
Context (workerFunc : option error -> T -> outcome (R:=R)).

(** The states a pool made by [NewWorkerPool] can be in. *)
Definition reachable (s : system) : Prop :=
  exists numCPU cxt taskBuffer wp tr ev,
    NewWorkerPool numCPU cxt taskBuffer = Some wp /\
    run zero workerFunc tr (boot wp) = Some (ev, s).

(** Where the Results of the stream come from: the pair a call of the
    task function returned (line 94), or a recovered panic (line 82). *)
Definition from_task (r : Result) : Prop :=
  exists c t, workerFunc c t = Returns (Value r) (Err r).

Definition from_panic (r : Result (R:=R)) : Prop :=
  exists v, r = recovered zero v.

Definition published (r : Result) : Prop := from_task r \/ from_panic r.

Definition carries (w : worker (T:=T)) (r : Result (R:=R)) : Prop :=
  w = WSend r \/ w = WRecover r.

(** Every Result in the stream or about to be sent has such an origin. *)
Definition results_ok (s : system (T:=T) (R:=R)) : Prop :=
  Forall published (buf (resultChan (pool s))) /\
  Forall (fun w => forall r, carries w r -> published r) (workers s).

(** A Result read as a tagged union: with an error there is no value. *)
Definition tagged_union (r : Result (R:=R)) : Prop :=
  Err r <> None -> Value r = zero.

(** The WaitGroup counter is the number of workers that have not returned. *)
Definition counted (s : system (T:=T) (R:=R)) : Prop :=
  1 <= numWorkers (pool s) /\ wg (pool s) = Z.of_nat (count is_live (workers s)).

(** The stream read as a stream of tagged unions. *)
Definition stream_tagged : Prop :=
  forall s r, reachable s -> r ∈ buf (resultChan (pool s)) -> tagged_union r.

(** Queued tasks are abandoned on cancellation: once the context is done
    no worker step begins another execution. *)
Definition abandoned_after_cancel : Prop :=
  forall s i b ev s',
    reachable s -> ctx (pool s) <> None ->
    exec zero workerFunc (AWorker i b) s = Some (ev, s') ->
    (executing s' <= executing s)%nat.

(** Nobody has asked for a shutdown yet. *)
Definition quiet (s : system (T:=T) (R:=R)) : Prop :=
  closed (resultChan (pool s)) = false /\
  Forall (fun c => in_SubmitWait c = true) (clients s).

(** While a worker is live the result stream is open and no caller is
    past its wait. *)
Definition guarded (s : system (T:=T) (R:=R)) : Prop :=
  (0 < count is_live (workers s))%nat ->
  closed (resultChan (pool s)) = false /\
  Forall (fun c => past_wait c = false) (clients s).

(** Worker [i] is inside the task function and its call ends. *)
Definition finish (i : nat) (t : T) (s : system (T:=T) (R:=R)) : system :=
  set_worker i
    match workerFunc (ctx (pool s)) t with
    | Returns v e => WSend (mkResult v e)
    | Panics v => WRecover (recovered zero v)
    end s.
End Properties.

(** ** Scenarios with [int] tasks and results *)

(** [NewWorkerPool[int, int](ctx, 2)] on a one-processor host. *)
Definition pool2 : WorkerPool (T:=Z) (R:=Z) :=
  mkPool (mkChan [] 2 false) (mkChan [] 2 false) 0 None 1.

(** [NewWorkerPool[int, int](ctx, 10)] with [ctx] already cancelled. *)
Definition pool10_cancelled : WorkerPool (T:=Z) (R:=Z) :=
  mkPool (mkChan [] 10 false) (mkChan [] 10 false) 0 (Some Canceled) 1.

Definition double (c : option error) (n : Z) : outcome (R:=Z) :=
  Returns (2 * n) None.

(** A task function that returns what it computed so far with its error. *)
Definition partial (c : option error) (n : Z) : outcome (R:=Z) :=
  if n <? 0 then Returns n (Some (ErrorString "negative input")) else Returns n None.

(** A task function that panics on 42, as in the panic recovery test. *)
Definition panicky (c : option error) (n : Z) : outcome (R:=Z) :=
  if n =? 42 then Panics "boom" else Returns n None.

(** Two tasks are accepted, then GracefulStop runs while both are still
    queued; a consumer reads every result there is. *)
Definition drain_trace : list (action (T:=Z)) :=
  [AStart; ASubmit 1 BBuf; ASubmit 2 BBuf;
   AGracefulStop; AClient 0 BBuf; AClient 0 BRun;
   AWorker 0 BBuf; AWorker 0 BRun; AWorker 0 (BPeer PConsumer); AWorker 0 BClosed;
   AClient 0 BRun; AClient 0 BRun; AClient 0 BDefault; AClient 0 BRun;
   AReceive BClosed].

(** Two results wait in the stream; Stop runs to its check. *)
Definition stop_trace : list (action (T:=Z)) :=
  [AStart; ASubmit 1 BBuf; ASubmit 2 BBuf;
   AWorker 0 BBuf; AWorker 0 BRun; AWorker 0 BBuf;
   AWorker 0 BBuf; AWorker 0 BRun; AWorker 0 BBuf;
   AStop; AClient 0 BRun; AWorker 0 BDone; AClient 0 BRun; AClient 0 BBuf;
   AClient 0 BRun].

(** Stop is called once more, up to its [close]. *)
Definition stop_again : list (action (T:=Z)) :=
  [AStop; AClient 1 BRun; AClient 1 BRun; AClient 1 BBuf].

(** The pool after the first Stop: closed, one Result left in the buffer. *)
Definition stopped_once : system (T:=Z) (R:=Z) :=
  mkSystem (mkPool (mkChan [] 2 false) (mkChan [mkResult 4 None] 2 true) 0
              (Some Canceled) 1)
    [WExit] [Stop_ret] false.

(** The second Stop has received that Result and is at its [close]. *)
Definition stopping_twice : system (T:=Z) (R:=Z) :=
  mkSystem (mkPool (mkChan [] 2 false) (mkChan [] 2 true) 0 (Some Canceled) 1)
    [WExit] [Stop_ret; Stop_close] false.

(** A task is queued and Stop has cancelled the context. *)
Definition stop_cancelled : list (action (T:=Z)) :=
  [AStart; ASubmit 5 BBuf; AStop; AClient 0 BRun].

(** One failing task runs and its Result is read. *)
Definition failing_task : list (action (T:=Z)) :=
  [AStart; ASubmit (-7) BBuf; AWorker 0 BBuf; AWorker 0 BRun; AWorker 0 BBuf].

(** A pool of one worker in the middle of a task; its context is [c]. *)
Definition busy (c : option error) (w : worker (T:=Z) (R:=Z)) (cl : list client)
  : system (T:=Z) (R:=Z) :=
  mkSystem (mkPool (mkChan [7] 2 false) (mkChan [] 2 false) 1 c 1) [w] cl false.

(** A stopped pool: the worker has returned, results and a task remain. *)
Definition drained (cl : list (client (T:=Z) (R:=Z))) : system (T:=Z) (R:=Z) :=
  mkSystem (mkPool (mkChan [7; 8] 2 false)
              (mkChan [mkResult 2 None; mkResult 4 None] 2 false)
              0 (Some Canceled) 1)
    [WExit] cl false.

(** The state the pool [pool2] is in after the trace [tr]. *)
Definition after (f : option error -> Z -> outcome (R:=Z)) (tr : list (action (T:=Z)))
  : system (T:=Z) (R:=Z) :=
  match run 0 f tr (boot pool2) with
  | Some (_, s) => s
  | None => boot pool2
  end.

(** Stop is entered while one task is queued, and runs on. *)
Definition stop_entered : list (action (T:=Z)) := [AStart; ASubmit 5 BBuf; AStop].

Definition stop_waiting : list (action (T:=Z)) :=
  stop_entered ++ [AClient 0 BRun; AWorker 0 BDone].

Definition stop_checking : list (action (T:=Z)) := stop_waiting ++ [AClient 0 BRun].

Definition stop_closing : list (action (T:=Z)) := stop_checking ++ [AClient 0 BDefault].

(** Stop has returned; a second Stop reaches its check. *)
Definition stop_rechecking : list (action (T:=Z)) :=
  stop_closing ++ [AClient 0 BRun; AStop; AClient 1 BRun; AClient 1 BRun].

(** Stop is entered while the worker is inside the task function. *)
Definition stop_in_flight : list (action (T:=Z)) :=
  [AStart; ASubmit 5 BBuf; AWorker 0 BBuf; AStop; AClient 0 BRun].

(** Three workers are configured before Start; two of them take a task. *)
Definition configure : list (action (T:=Z)) := [AWithWorkers 3; ASubmit 1 BBuf].

Definition two_busy : list (action (T:=Z)) :=
  [AWorker 0 BBuf; ASubmit 2 BBuf; AWorker 1 BBuf].

(** ** More on the pool: load, acceptance and delivery *)

(** A worker that holds a task or its Result. *)
Definition in_flight {T R : Type} (w : worker (T:=T) (R:=R)) : bool :=
  match w with
  | WExec _ | WSend _ | WRecover _ => true
  | _ => false
  end.

(** What the pool holds: queued tasks, tasks and Results in the hands of
    workers, Results waiting in the stream. *)
Definition load {T R : Type} (s : system (T:=T) (R:=R)) : nat :=
  (length (buf (taskChan (pool s))) + count in_flight (workers s)
   + length (buf (resultChan (pool s))))%nat.

(** A call of Submit that returned true. *)
Definition is_accept {T R : Type} (e : event (T:=T) (R:=R)) : bool :=
  match e with
  | EvSubmit _ (Some true) => true
  | _ => false
  end.

(** A read of GetResults() that got a Result. *)
Definition is_delivery {T R : Type} (e : event (T:=T) (R:=R)) : bool :=
  match e with
  | EvResult (Some _) => true
  | _ => false
  end.

Definition is_SubmitWait_call {T : Type} (a : action (T:=T)) : bool :=
  match a with ASubmitWait _ => true | _ => false end.

(** The steps at which the pool drops a task or a Result: the receive of
    a check before a close, a send handed to such a check, and a
    publication that loses against the done context. *)
Definition lossy {T R : Type} (a : action (T:=T)) (s : system (T:=T) (R:=R)) : bool :=
  match a with
  | AClient j BBuf =>
      match clients s !! j with
      | Some GS_check1 | Some Stop_check | Some GS_check2 => true
      | _ => false
      end
  | ASubmit _ (BPeer (PClient _)) => true
  | AWorker _ (BPeer (PClient _)) => true
  | AWorker i BDone =>
      match workers s !! i with
      | Some (WSend _) | Some (WRecover _) => true
      | _ => false
      end
  | _ => false
  end.

(** The callers that are inside [GracefulStop] and have not cancelled yet. *)
Definition draining {T R : Type} (c : client (T:=T) (R:=R)) : bool :=
  match c with
  | GS_check1 | GS_close1 | GS_wait => true
  | _ => false
  end.

(** The buffer of a channel holds no more than its capacity. *)
Definition within {A : Type} (c : chan A) : Prop :=
  Z.of_nat (length (buf c)) <= cap c.

(** The callers whose call is over, or will never end. *)
Definition settled {T R : Type} (c : client (T:=T) (R:=R)) : bool :=
  match c with
  | SW_hung | SW_ret _ _ | Stop_ret | GS_ret => true
  | _ => false
  end.

(** What a caller of [Stop] or [GracefulStop] has achieved by the line it
    is at. *)
Definition achieved {T R : Type} (c : client (T:=T) (R:=R))
    (wp : WorkerPool (T:=T) (R:=R)) : Prop :=
  match c with
  | Stop_wait | Stop_check | Stop_close => ctx wp <> None
  | Stop_ret => ctx wp <> None /\ closed (resultChan wp) = true
  | GS_wait | GS_cancel => closed (taskChan wp) = true
  | GS_check2 | GS_close2 => closed (taskChan wp) = true /\ ctx wp <> None
  | GS_ret =>
      closed (taskChan wp) = true /\ ctx wp <> None /\ closed (resultChan wp) = true
  | _ => True
  end.

(** Nothing is undone from [wp] to [wp']: closed channels stay closed and
    a done context stays done. *)
Definition kept {T R : Type} (wp wp' : WorkerPool (T:=T) (R:=R)) : Prop :=
  (closed (taskChan wp) = true -> closed (taskChan wp') = true) /\
  (closed (resultChan wp) = true -> closed (resultChan wp') = true) /\
  (ctx wp <> None -> ctx wp' <> None).

(** The number of lossy steps of the run of [tr] from [s]. *)
Fixpoint losses {T R : Type} (zero : R)
    (workerFunc : option error -> T -> outcome (R:=R))
    (tr : list (action (T:=T))) (s : system (T:=T) (R:=R)) : nat :=
  match tr with
  | [] => 0%nat
  | a :: tr' =>
      ((if lossy a s then 1 else 0)
       + match exec zero workerFunc a s with
         | Some (_, s1) => losses zero workerFunc tr' s1
         | None => 0
         end)%nat
  end.

(** A caller enters SubmitWait on a pool whose context is cancelled. *)
Definition cancelled_call : system (T:=Z) (R:=Z) :=
  mkSystem pool10_cancelled [] [SW_check 1] false.

(** A pool after Stop, with a caller of SubmitWait still waiting for its
    Result. *)
Definition awaiting : system (T:=Z) (R:=Z) :=
  mkSystem (mkPool (mkChan [] 2 false) (mkChan [] 2 true) 0 (Some Canceled) 1)
    [WExit] [SW_await] false.

(** A pool after GracefulStop. *)
Definition shut_down : system (T:=Z) (R:=Z) :=
  mkSystem (mkPool (mkChan [] 2 true) (mkChan [] 2 true) 0 (Some Canceled) 1)
    [WExit] [GS_ret] false.

(** The task queue is filled before the workers start. *)
Definition fill_queue : list (action (T:=Z)) := [ASubmit 1 BBuf; ASubmit 2 BBuf].

(** GracefulStop on an idle pool, step by step. *)
Definition graceful_entered : list (action (T:=Z)) := [AStart; AGracefulStop].

Definition graceful_closing : list (action (T:=Z)) :=
  graceful_entered ++ [AClient 0 BDefault].

Definition graceful_waiting : list (action (T:=Z)) :=
  graceful_closing ++ [AClient 0 BRun; AWorker 0 BClosed].

Definition graceful_cancelling : list (action (T:=Z)) :=
  graceful_waiting ++ [AClient 0 BRun].

(** What the callers see in the run of [drain_trace]. *)
Definition drain_events : list (event (T:=Z) (R:=Z)) :=
  [EvSubmit 1 (Some true); EvSubmit 2 (Some true);
   EvResult (Some (mkResult 4 None)); EvResult None].

(** * pkg/cache: the generic key/value cache *)

Module Cache.
Section Cache.
Context {K V : Type} `{Countable K}.

(** The zero value of [V], returned by a lookup that misses. *)
Variable zero : V.

(** The struct; [store] is the Go map. *)
Record Cache : Type := mkCache { store : gmap K V }.

Definition NewCache : Cache := mkCache ∅.

(** [c.store[key] = value] *)
Definition Set_ (key : K) (value : V) (c : Cache) : Cache :=
  mkCache (<[key := value]> (store c)).

(** [v, ok := c.store[key]] *)
Definition Get (key : K) (c : Cache) : V * bool :=
  match store c !! key with
  | Some v => (v, true)
  | None => (zero, false)
  end.

(** A sequence of calls of [Set], first call first. *)
Definition Set_all (writes : list (K * V)) (c : Cache) : Cache :=
  foldl (fun c kv => Set_ kv.1 kv.2 c) c writes.

(** The last value written for [key], if any. *)
Fixpoint last_write (key : K) (writes : list (K * V)) : option V :=
  match writes with
  | [] => None
  | (k, v) :: rest =>
      match last_write key rest with
      | Some v' => Some v'
      | None => if decide (k = key) then Some v else None
      end
  end.
End Cache.
End Cache.

(** * retry: repeat an operation with growing, jittered delays *)

Module Retry.

(** The declaration of [Config] is not among the sources; these are the
    three fields [Retry] reads.  A [time.Duration] is an [int64] number of
    nanoseconds. *)
Record Config : Type := mkConfig {
  MaxAttempts : Z;
  InitialDelay : Z;
  MaxDelay : Z;
}.

(** [int64] arithmetic wraps around. *)
Definition wrap64 (z : Z) : Z := (z + 2 ^ 63) mod 2 ^ 64 - 2 ^ 63.

Section Retry.
Context {T : Type}.

(** [var result T] *)
Variable zero : T.

(** What [Retry] meets while it runs, by the number of the attempt:
    what the call of [operation] returns, what [ctx.Err()] is at the check
    that opens the attempt, the jitter drawn for the current delay
    ([time.Duration(rand.Float64() * float64(currentDelay))]), and how the
    wait ends: [None] when the timer fires, [Some e] when the context is
    done first and reports [e]. *)
Record world : Type := mkWorld {
  operation : Z -> T * option error;
  ctx_at : Z -> option error;
  jitter : Z -> Z -> Z;
  woken : Z -> option error;
}.

(** What a run of [Retry] does: the pair it returns, how often it called
    [operation], and the delays it waited for, in order. *)
Record outcome : Type := mkOutcome {
  result : T;
  err : option error;
  calls : nat;
  sleeps : list Z;
}.

Variable config : Config.
Variable w : world.

(** The loop, entered with [attempt] and the variables of the function;
    [n] bounds the iterations left. *)
Fixpoint attempts (n : nat) (attempt : Z) (res : T) (e : option error)
    (currentDelay : Z) (called : nat) (slept : list Z) : outcome :=
  match n with
  | O => mkOutcome res e called slept
  | S n' =>
      if attempt <=? MaxAttempts config then
        match ctx_at w attempt with
        | Some ce => mkOutcome res (Some ce) called slept
        | None =>
            let '(res, e) := operation w attempt in
            match e with
            | None => mkOutcome res None (S called) slept
            | Some _ =>
                if attempt =? MaxAttempts config
                then mkOutcome res e (S called) slept
                else
                  let d := wrap64 (currentDelay + jitter w attempt currentDelay) in
                  let d := if MaxDelay config <? d then MaxDelay config else d in
                  match woken w attempt with
                  | Some ce => mkOutcome res (Some ce) (S called) (slept ++ [d])
                  | None =>
                      attempts n' (attempt + 1) res e (wrap64 (d * 2))
                        (S called) (slept ++ [d])
                  end
            end
        end
      else mkOutcome res e called slept
  end.

(** [Retry(ctx, config, operation)]; the loop runs at most [MaxAttempts]
    times. *)
Definition Retry : outcome :=
  attempts (Z.to_nat (MaxAttempts config)) 1 zero None (InitialDelay config) 0 [].

(** Up to attempt [k] nothing ended the loop: the context was not done,
    the operation failed, and the timer fired. *)
Definition all_failed (k : Z) : Prop :=
  forall i, 1 <= i < k ->
    ctx_at w i = None /\ snd (operation w i) <> None /\ woken w i = None.

(** The value [Retry] holds in [result] when attempt [k] begins. *)
Definition held (k : Z) : T :=
  if k <=? 1 then zero else fst (operation w (k - 1)).
End Retry.

(** Each delay of the list is at most the next one. *)
Definition ascending (l : list Z) : Prop :=
  forall i x y, l !! i = Some x -> l !! S i = Some y -> x <= y.
End Retry.

(** * pkg/trx/manager: run a function inside a database transaction *)

Module Trx.

(** A [*sql.Tx]; the nil pointer is [None]. *)
Definition Tx : Type := option nat.

(** An interface value ([any]): nil, a [*sql.Tx], or a value of another
    type. *)
Inductive any : Type :=
| Nil
| TxPtr (tx : Tx)
| Other (v : string).

(** A key of a context: a value of type [trxManagerKey], or of another
    type.  Keys of different types are different keys. *)
Inductive key : Type :=
| trxManagerKey (s : string)
| otherKey (s : string).

#[global] Instance key_eq_dec : EqDecision key.
Proof. solve_decision. Defined.

(** [const trxKey trxManagerKey = "trxKey"] *)
Definition trxKey : key := trxManagerKey "trxKey".

(** A context, as the chain of its [WithValue] links, newest first. *)
Definition context : Type := list (key * any).

Definition WithValue (ctx : context) (k : key) (v : any) : context := (k, v) :: ctx.

(** [ctx.Value(k)]: the newest link with that key, or nil. *)
Fixpoint Value (ctx : context) (k : key) : any :=
  match ctx with
  | [] => Nil
  | (k', v) :: parent => if decide (k' = k) then v else Value parent k
  end.

(** An [error], by its message; [None] is nil. *)
Definition error : Type := option string.

(** The database as [Do] uses it: [BeginTx] gives a transaction or an
    error, [Rollback] and [Commit] of a transaction may fail. *)
Record DB : Type := mkDB {
  BeginTx : context -> nat + string;
  Rollback : nat -> error;
  Commit : nat -> error;
}.

(** The calls made on the database and on the transaction. *)
Inductive call : Type :=
| CBegin
| CRollback (tx : nat)
| CCommit (tx : nat).

(** What a call of a function does: it returns, or it panics. *)
Inductive outcome (A : Type) : Type :=
| Returns (a : A)
| Panics.
Arguments Returns {A} _.
Arguments Panics {A}.

(** [TransactionManager.Do]: what it returns and the calls it made.  The
    struct is declared outside the sources; [Do] uses its field [db]. *)
Definition Do (db : DB) (ctx : context) (f : context -> outcome (any * error))
  : outcome (any * error) * list call :=
  match BeginTx db ctx with
  | inr err => (Returns (Nil, Some err), [CBegin])
  | inl trx =>
      let ctx := WithValue ctx trxKey (TxPtr (Some trx)) in
      match f ctx with
      | Panics => (Panics, [CBegin])
      | Returns (res, Some err) =>
          match Rollback db trx with
          | Some rbErr =>
              (Returns (Nil, Some (String.append "cannot rollback transaction with err: "
                                     (String.append rbErr
                                        (String.append " prev error: " err)))),
               [CBegin; CRollback trx])
          | None => (Returns (Nil, Some err), [CBegin; CRollback trx])
          end
      | Returns (res, None) =>
          match Commit db trx with
          | Some err =>
              (Returns (Nil, Some (String.append "cannot commit transaction with error: "
                                     err)),
               [CBegin; CCommit trx])
          | None => (Returns (res, None), [CBegin; CCommit trx])
          end
      end
  end.

(** [TxFromContext] *)
Definition TxFromContext (ctx : context) : Tx * error :=
  match Value ctx trxKey with
  | Nil => (None, Some "cannot find transaction"%string)
  | TxPtr tx => (tx, None)
  | Other _ => (None, Some "received value is not a *sql.Tx"%string)
  end.

(** A function that only looks for its transaction and returns it. *)
Definition find_tx (ctx : context) : outcome (any * error) :=
  match TxFromContext ctx with
  | (tx, None) => Returns (TxPtr tx, None)
  | (_, Some e) => Returns (Nil, Some e)
  end.

Definition is_commit (c : call) : bool :=
  match c with CCommit _ => true | _ => false end.

Definition is_rollback (c : call) : bool :=
  match c with CRollback _ => true | _ => false end.
End Trx.

(** * pkg/rate_limiter: the leaky bucket *)

Module Limiter.

(** The goroutine [leak], by where it is. *)
Inductive leaker : Type :=
| Starting                  (* about to make its ticker *)
| Ticking (interval : Z)    (* in its loop; the ticker's period in ns *)
| Returned.                 (* it saw the stop signal *)

(** The struct with its goroutine.  The elements of [queue] carry no
    data; [stopCh] is only ever closed.  The mutex [mu] is never used. *)
Record LeakyBucket : Type := mkBucket {
  rate : Z;
  capacity : Z;
  queue : chan unit;
  stopCh : chan unit;
  leak : leaker;
  crashed : bool;
}.

(** [NewLeakyBucket(rate, capacity)]; [None] is one of its two panics. *)
Definition NewLeakyBucket (rate capacity : Z) : option LeakyBucket :=
  if rate <=? 0 then None
  else if capacity <=? 0 then None
  else Some (mkBucket rate capacity (mkChan [] capacity false) (mkChan [] 0 false)
               Starting false).

Definition set_queue (q : chan unit) (lb : LeakyBucket) : LeakyBucket :=
  mkBucket (rate lb) (capacity lb) q (stopCh lb) (leak lb) (crashed lb).

Definition set_leak (l : leaker) (lb : LeakyBucket) : LeakyBucket :=
  mkBucket (rate lb) (capacity lb) (queue lb) (stopCh lb) l (crashed lb).

Definition crash (lb : LeakyBucket) : LeakyBucket :=
  mkBucket (rate lb) (capacity lb) (queue lb) (stopCh lb) (leak lb) true.

(** [Allow]: a send that does not wait. *)
Definition Allow (lb : LeakyBucket) : bool * LeakyBucket :=
  match chan_send () (queue lb) with
  | Some q => (true, set_queue q lb)
  | None => (false, lb)
  end.

(** [Stop]: [close(lb.stopCh)]. *)
Definition Stop (lb : LeakyBucket) : LeakyBucket :=
  match chan_close (stopCh lb) with
  | Some c => mkBucket (rate lb) (capacity lb) (queue lb) c (leak lb) (crashed lb)
  | None => crash lb
  end.

(** [time.Second] *)
Definition Second : Z := 1000000000.

(** The first line of [leak]: [time.NewTicker] panics unless its period
    is positive. *)
Definition leak_start (lb : LeakyBucket) : LeakyBucket :=
  let d := Z.quot Second (rate lb) in
  if d <=? 0 then crash lb else set_leak (Ticking d) lb.

(** One tick: a receive from the queue that does not wait. *)
Definition leak_tick (lb : LeakyBucket) : LeakyBucket :=
  match buf (queue lb) with
  | _ :: rest => set_queue (mkChan rest (cap (queue lb)) (closed (queue lb))) lb
  | [] => lb
  end.

Inductive action : Type :=
| AAllow           (* a caller calls Allow *)
| AStop            (* a caller calls Stop *)
| ALeakStart       (* the goroutine makes its ticker *)
| ATick            (* the select of the goroutine takes a tick *)
| ALeakReturn.     (* the select of the goroutine takes the stop signal *)

(** One step and what Allow returned in it. *)
Definition exec (a : action) (lb : LeakyBucket) : option (list bool * LeakyBucket) :=
  if crashed lb then None else
  match a with
  | AAllow => let '(ok, lb') := Allow lb in Some ([ok], lb')
  | AStop => Some ([], Stop lb)
  | ALeakStart =>
      match leak lb with
      | Starting => Some ([], leak_start lb)
      | _ => None
      end
  | ATick =>
      match leak lb with
      | Ticking _ => Some ([], leak_tick lb)
      | _ => None
      end
  | ALeakReturn =>
      match leak lb with
      | Ticking _ => if closed (stopCh lb) then Some ([], set_leak Returned lb) else None
      | _ => None
      end
  end.

Fixpoint run (tr : list action) (lb : LeakyBucket) : option (list bool * LeakyBucket) :=
  match tr with
  | [] => Some ([], lb)
  | a :: tr' =>
      '(ev, lb1) ← exec a lb;
      '(ev', lb2) ← run tr' lb1;
      Some (ev ++ ev', lb2)
  end.

Definition is_tick (a : action) : bool :=
  match a with ATick => true | _ => false end.

(** The number of requests in the bucket. *)
Definition level (lb : LeakyBucket) : nat := length (buf (queue lb)).
End Limiter.

(** * pkg/concurrency/dowork: managed worker goroutines *)

Module DoWork.

(** The cancellation signal of a worker: the channel [done] (nil, open,
    or closed) or the [Done()] of a context (one that can never be done,
    not done yet, or done). *)
Inductive signal : Type :=
| Never        (* a nil channel; a context without cancellation *)
| Pending
| Fired.

(** The goroutine of [DoWork] and [DoWorkWithContext], by where it is. *)
Inductive pc : Type :=
| Selecting                 (* at the select *)
| Processing (s : string)   (* inside processor(s) *)
| Returned.                 (* returned; the deferred close(completed) ran *)

Record state : Type := mkState {
  strings : chan string;      (* the input channel *)
  done : signal;
  worker : pc;
  processed : list string;    (* the calls of processor so far, in order *)
  completed : bool;           (* the returned channel is closed *)
}.

(** [DoWork(strings, done, processor)] right after the call. *)
Definition DoWork (strings : chan string) (done : signal) : state :=
  mkState strings done Selecting [] false.

(** [DoWorkWithContext(ctx, strings, processor)]: the same goroutine, with
    [ctx.Done()] in the place of [done]. *)
Definition DoWorkWithContext (ctx : signal) (strings : chan string) : state :=
  mkState strings ctx Selecting [] false.

Definition set_strings (c : chan string) (st : state) : state :=
  mkState c (done st) (worker st) (processed st) (completed st).

Definition set_worker (w : pc) (st : state) : state :=
  mkState (strings st) (done st) w (processed st) (completed st).

(** The goroutine returns: [defer close(completed)]. *)
Definition finish (st : state) : state :=
  mkState (strings st) (done st) Returned (processed st) true.

(** One step of the goroutine. *)
Definition worker_step (b : branch) (st : state) : option state :=
  match worker st with
  | Selecting =>
      match b with
      | BDone => match done st with Fired => Some (finish st) | _ => None end
      | _ =>
          '(x, c') ← chan_recv b (strings st);
          match x with
          | Some s => Some (set_worker (Processing s) (set_strings c' st))
          | None => Some (finish st)
          end
      end
  | Processing s =>
      match b with
      | BRun =>
          Some (mkState (strings st) (done st) Selecting (processed st ++ [s])
                  (completed st))
      | _ => None
      end
  | Returned => None
  end.

(** The producer and the canceller are outside. *)
Inductive action : Type :=
| ASend (s : string) (b : branch)   (* strings <- s *)
| AClose                            (* close(strings) *)
| AFire                             (* close(done), or the context is cancelled *)
| AWorker (b : branch).

Definition exec (a : action) (st : state) : option state :=
  match a with
  | ASend s BBuf => c' ← chan_send s (strings st); Some (set_strings c' st)
  | ASend s (BPeer _) =>
      if chan_idle (strings st) then
        match worker st with
        | Selecting => Some (set_worker (Processing s) st)
        | _ => None
        end
      else None
  | ASend _ _ => None
  | AClose => c' ← chan_close (strings st); Some (set_strings c' st)
  | AFire =>
      match done st with
      | Pending => Some (mkState (strings st) Fired (worker st) (processed st)
                           (completed st))
      | _ => None
      end
  | AWorker b => worker_step b st
  end.

Fixpoint run (tr : list action) (st : state) : option state :=
  match tr with
  | [] => Some st
  | a :: tr' => st1 ← exec a st; run tr' st1
  end.

(** The strings sent by the actions of a trace, in order. *)
Fixpoint sent (tr : list action) : list string :=
  match tr with
  | [] => []
  | ASend s _ :: tr' => s :: sent tr'
  | _ :: tr' => sent tr'
  end.

(** The string the goroutine holds, if any. *)
Definition in_hand (st : state) : list string :=
  match worker st with
  | Processing s => [s]
  | _ => []
  end.
End DoWork.

(** ** DoWorkBuffered: a dispatcher and its semaphore *)

Module Buffered.

(** The dispatching goroutine, by where it is. *)
Inductive dpc : Type :=
| DStart                   (* about to make the semaphore *)
| DSelect                  (* at the outer select *)
| DAcquire (s : string)    (* at the select that takes a slot for [s] *)
| DReturned.               (* returned: close(sem), close(completed) ran *)

(** A goroutine started for one string. *)
Inductive cpc : Type :=
| CProcessing (s : string) (* inside processor(s) *)
| CRelease                 (* at the deferred [<-sem] *)
| CGone.

Record state : Type := mkState {
  strings : chan string;
  done : DoWork.signal;
  workers : Z;
  sem : option (chan unit);       (* [None] until it is made *)
  dispatcher : dpc;
  children : list cpc;
  processed : list string;        (* the calls of processor that ended *)
  completed : bool;
  crashed : bool;
}.

(** [DoWorkBuffered(strings, done, processor, workers)] right after the
    call. *)
Definition DoWorkBuffered (strings : chan string) (done : DoWork.signal) (workers : Z)
  : state :=
  mkState strings done workers None DStart [] [] false false.

Definition set_strings (c : chan string) (st : state) : state :=
  mkState c (done st) (workers st) (sem st) (dispatcher st) (children st)
    (processed st) (completed st) (crashed st).

Definition set_dispatcher (d : dpc) (st : state) : state :=
  mkState (strings st) (done st) (workers st) (sem st) d (children st)
    (processed st) (completed st) (crashed st).

Definition set_sem (c : chan unit) (st : state) : state :=
  mkState (strings st) (done st) (workers st) (Some c) (dispatcher st) (children st)
    (processed st) (completed st) (crashed st).

Definition set_children (cs : list cpc) (st : state) : state :=
  mkState (strings st) (done st) (workers st) (sem st) (dispatcher st) cs
    (processed st) (completed st) (crashed st).

(** The dispatcher returns: the deferred [close(sem)], then the deferred
    [close(completed)]. *)
Definition finish (st : state) : state :=
  mkState (strings st) (done st) (workers st)
    (match sem st with
     | Some c => Some (mkChan (buf c) (cap c) true)
     | None => None
     end)
    DReturned (children st) (processed st) true (crashed st).

(** [go func(data string) {...}(s)] *)
Definition spawn (s : string) (st : state) : state :=
  set_children (children st ++ [CProcessing s]) st.

Definition dispatcher_step (b : branch) (st : state) : option state :=
  match dispatcher st with
  | DStart =>
      match b with
      | BRun =>
          match make_chan (workers st) with
          | Some c => Some (set_dispatcher DSelect (set_sem c st))
          | None =>
              (* make panics; close(completed) is deferred already *)
              Some (mkState (strings st) (done st) (workers st) (sem st) DStart
                      (children st) (processed st) true true)
          end
      | _ => None
      end
  | DSelect =>
      match b with
      | BDone => match done st with DoWork.Fired => Some (finish st) | _ => None end
      | _ =>
          '(x, c') ← chan_recv b (strings st);
          match x with
          | Some s => Some (set_dispatcher (DAcquire s) (set_strings c' st))
          | None => Some (finish st)
          end
      end
  | DAcquire s =>
      match b with
      | BDone => match done st with DoWork.Fired => Some (finish st) | _ => None end
      | BBuf =>
          c ← sem st;
          c' ← chan_send () c;
          Some (spawn s (set_dispatcher DSelect (set_sem c' st)))
      | BPeer (PWorker i) =>
          c ← sem st;
          if chan_idle c then
            match children st !! i with
            | Some CRelease =>
                Some (spawn s (set_dispatcher DSelect
                                 (set_children (<[i := CGone]> (children st)) st)))
            | _ => None
            end
          else None
      | _ => None
      end
  | DReturned => None
  end.

Definition child_step (i : nat) (b : branch) (st : state) : option state :=
  c ← children st !! i;
  match c with
  | CProcessing s =>
      match b with
      | BRun =>
          Some (mkState (strings st) (done st) (workers st) (sem st) (dispatcher st)
                  (<[i := CRelease]> (children st)) (processed st ++ [s])
                  (completed st) (crashed st))
      | _ => None
      end
  | CRelease =>
      q ← sem st;
      '(_, q') ← chan_recv b q;
      Some (set_children (<[i := CGone]> (children st)) (set_sem q' st))
  | CGone => None
  end.

Inductive action : Type :=
| ASend (s : string) (b : branch)
| AClose
| AFire
| ADispatcher (b : branch)
| AChild (i : nat) (b : branch).

Definition exec (a : action) (st : state) : option state :=
  if crashed st then None else
  match a with
  | ASend s BBuf => c' ← chan_send s (strings st); Some (set_strings c' st)
  | ASend s (BPeer _) =>
      if chan_idle (strings st) then
        match dispatcher st with
        | DSelect => Some (set_dispatcher (DAcquire s) st)
        | _ => None
        end
      else None
  | ASend _ _ => None
  | AClose => c' ← chan_close (strings st); Some (set_strings c' st)
  | AFire =>
      match done st with
      | DoWork.Pending =>
          Some (mkState (strings st) DoWork.Fired (workers st) (sem st) (dispatcher st)
                  (children st) (processed st) (completed st) (crashed st))
      | _ => None
      end
  | ADispatcher b => dispatcher_step b st
  | AChild i b => child_step i b st
  end.

Fixpoint run (tr : list action) (st : state) : option state :=
  match tr with
  | [] => Some st
  | a :: tr' => st1 ← exec a st; run tr' st1
  end.

Definition is_processing (c : cpc) : bool :=
  match c with CProcessing _ => true | _ => false end.

(** A child that still holds its slot. *)
Definition holds_slot (c : cpc) : bool :=
  match c with CGone => false | _ => true end.

(** The slots taken are the children that hold one. *)
Definition balanced (st : state) : Prop :=
  match sem st with
  | Some c =>
      dispatcher st <> DStart /\
      count holds_slot (children st) = length (buf c) /\
      cap c = workers st /\ Z.of_nat (length (buf c)) <= cap c
  | None => dispatcher st = DStart /\ children st = [] /\ processed st = []
  end.
End Buffered.

(** * pkg/concurrency/bridge: orDone *)

Module OrDone.
Section OrDone.
(** The values of the channels ([interface{}]). *)
Context {V : Type}.

(** The goroutine of [orDone], by where it is. *)
Inductive pc : Type :=
| Selecting            (* at the outer select *)
| Sending (v : V)      (* at the select that sends [v] on valStream *)
| Returned.            (* returned; the deferred close(valStream) ran *)

Record state : Type := mkState {
  c : chan V;                  (* the input channel *)
  done : DoWork.signal;        (* the channel done: nil, open or closed *)
  worker : pc;
  forwarded : list V;          (* the values received from valStream so far *)
  dropped : list V;            (* the values given up at the inner select *)
  out_closed : bool;           (* valStream is closed *)
}.

(** [orDone(done, c)] right after the call; valStream has no buffer. *)
Definition orDone (done : DoWork.signal) (c : chan V) : state :=
  mkState c done Selecting [] [] false.

Definition set_c (c' : chan V) (st : state) : state :=
  mkState c' (done st) (worker st) (forwarded st) (dropped st) (out_closed st).

Definition set_worker (w : pc) (st : state) : state :=
  mkState (c st) (done st) w (forwarded st) (dropped st) (out_closed st).

Definition finish (st : state) : state :=
  mkState (c st) (done st) Returned (forwarded st) (dropped st) true.

(** One step of the goroutine.  At [Sending v] the send needs the reader
    of valStream ([BPeer]); the case [<-done] of the inner select gives
    [v] up and goes round the loop. *)
Definition worker_step (b : branch) (st : state) : option state :=
  match worker st with
  | Selecting =>
      match b with
      | BDone => match done st with DoWork.Fired => Some (finish st) | _ => None end
      | _ =>
          '(x, c') ← chan_recv b (c st);
          match x with
          | Some v => Some (set_worker (Sending v) (set_c c' st))
          | None => Some (finish st)
          end
      end
  | Sending v =>
      match b with
      | BPeer PConsumer =>
          Some (mkState (c st) (done st) Selecting (forwarded st ++ [v]) (dropped st)
                  (out_closed st))
      | BDone =>
          match done st with
          | DoWork.Fired =>
              Some (mkState (c st) (done st) Selecting (forwarded st) (dropped st ++ [v])
                      (out_closed st))
          | _ => None
          end
      | _ => None
      end
  | Returned => None
  end.

Inductive action : Type :=
| ASend (v : V) (b : branch)   (* c <- v *)
| AClose                       (* close(c) *)
| AFire                        (* close(done) *)
| AWorker (b : branch).

Definition exec (a : action) (st : state) : option state :=
  match a with
  | ASend v BBuf => c' ← chan_send v (c st); Some (set_c c' st)
  | ASend v (BPeer _) =>
      if chan_idle (c st) then
        match worker st with
        | Selecting => Some (set_worker (Sending v) st)
        | _ => None
        end
      else None
  | ASend _ _ => None
  | AClose => c' ← chan_close (c st); Some (set_c c' st)
  | AFire =>
      match done st with
      | DoWork.Pending =>
          Some (mkState (c st) DoWork.Fired (worker st) (forwarded st) (dropped st)
                  (out_closed st))
      | _ => None
      end
  | AWorker b => worker_step b st
  end.

Fixpoint run (tr : list action) (st : state) : option state :=
  match tr with
  | [] => Some st
  | a :: tr' => st1 ← exec a st; run tr' st1
  end.

Fixpoint sent (tr : list action) : list V :=
  match tr with
  | [] => []
  | ASend v _ :: tr' => v :: sent tr'
  | _ :: tr' => sent tr'
  end.

Definition in_hand (st : state) : list V :=
  match worker st with
  | Sending v => [v]
  | _ => []
  end.

(** What a run keeps, [all] being the values put into [c] so far: the
    goroutine has received a front part of them, forwarded these in order
    and, as long as the signal has not fired, given up none. *)
Definition kept_order (all : list V) (st : state) : Prop :=
  exists received,
    received ++ in_hand st ++ buf (c st) = all /\
    forwarded st `sublist_of` received /\
    (done st <> DoWork.Fired -> dropped st = [] /\ forwarded st = received).

(** valStream is closed exactly when the goroutine has returned, which
    without the signal means that the input is closed and empty. *)
Definition closed_late (st : state) : Prop :=
  (out_closed st = true <-> worker st = Returned) /\
  (worker st = Returned -> done st <> DoWork.Fired ->
   closed (c st) = true /\ buf (c st) = []).
End OrDone.
End OrDone.

(** ** Scenarios for the other packages *)

(** Three calls of Set on an [int]-[int] cache; key 1 is written twice. *)
Definition ages : list (Z * Z) := [(1, 25); (2, 7); (1, 30)].

(** At most five attempts, starting with 100ns and never above 1000ns. *)
Definition patient : Retry.Config := Retry.mkConfig 5 100 1000.

Definition hopeless : Retry.Config := Retry.mkConfig 0 100 1000.

(** An operation that fails twice and then returns 42; the context is
    never done and every timer fires; the jitter is half the delay. *)
Definition flaky : Retry.world (T:=Z) :=
  Retry.mkWorld
    (fun k => if k <? 3 then (- k, Some (ErrorString "temporary")) else (42, None))
    (fun _ => None) (fun _ d => d / 2) (fun _ => None).

(** An operation that always fails; the context is done from the third
    attempt on. *)
Definition cut_short : Retry.world (T:=Z) :=
  Retry.mkWorld
    (fun k => (- k, Some (ErrorString "temporary")))
    (fun k => if 3 <=? k then Some Canceled else None)
    (fun _ d => d / 2) (fun _ => None).

(** The same operation; the context is done during the wait after the
    second attempt. *)
Definition woken_early : Retry.world (T:=Z) :=
  Retry.mkWorld
    (fun k => (- k, Some (ErrorString "temporary")))
    (fun _ => None)
    (fun _ d => d / 2)
    (fun k => if k =? 2 then Some DeadlineExceeded else None).

(** A database that hands out transaction 7 and never fails. *)
Definition db_up : Trx.DB :=
  Trx.mkDB (fun _ => inl 7%nat) (fun _ => None) (fun _ => None).

(** A function that reads a row and returns it. *)
Definition read_row (ctx : Trx.context) : Trx.outcome (Trx.any * Trx.error) :=
  Trx.Returns (Trx.Other "row", None).

(** The context of a caller that is inside transaction 3 already. *)
Definition nested : Trx.context := [(Trx.trxKey, Trx.TxPtr (Some 3%nat))].

(** A context with a key of another type that has the same text. *)
Definition foreign : Trx.context := [(Trx.otherKey "trxKey", Trx.TxPtr (Some 1%nat))].

(** [NewLeakyBucket(2, 2)] *)
Definition bucket2 : Limiter.LeakyBucket :=
  Limiter.mkBucket 2 2 (mkChan [] 2 false) (mkChan [] 0 false) Limiter.Starting false.

(** [NewLeakyBucket(2000000000, 1)] *)
Definition bucket_fast : Limiter.LeakyBucket :=
  Limiter.mkBucket 2000000000 1 (mkChan [] 1 false) (mkChan [] 0 false)
    Limiter.Starting false.

(** Three requests in a row, a tick, one more request. *)
Definition burst : list Limiter.action :=
  [Limiter.ALeakStart; Limiter.AAllow; Limiter.AAllow; Limiter.AAllow;
   Limiter.ATick; Limiter.AAllow].

(** The bucket after [burst]. *)
Definition bucket_full : Limiter.LeakyBucket :=
  Limiter.mkBucket 2 2 (mkChan [(); ()] 2 false) (mkChan [] 0 false)
    (Limiter.Ticking 500000000) false.

(** One request, then the bucket is stopped and its goroutine returns. *)
Definition halt : list Limiter.action :=
  [Limiter.ALeakStart; Limiter.AAllow; Limiter.AStop; Limiter.ALeakReturn].

Definition bucket_halted : Limiter.LeakyBucket :=
  Limiter.mkBucket 2 2 (mkChan [()] 2 false) (mkChan [] 0 true) Limiter.Returned false.

Definition bucket_halted_full : Limiter.LeakyBucket :=
  Limiter.mkBucket 2 2 (mkChan [(); ()] 2 false) (mkChan [] 0 true)
    Limiter.Returned false.

(** A channel of strings with room for one. *)
Definition lines : chan string := mkChan [] 1 false.

(** Two strings are sent, one through the buffer and one handed over,
    then the input is closed. *)
Definition feed : list DoWork.action :=
  [DoWork.ASend "a" BBuf; DoWork.AWorker BBuf; DoWork.AWorker BRun;
   DoWork.ASend "b" (BPeer (PWorker 0)); DoWork.AWorker BRun;
   DoWork.AClose; DoWork.AWorker BClosed].

Definition fed : DoWork.state :=
  DoWork.mkState (mkChan [] 1 true) DoWork.Never DoWork.Returned ["a"; "b"]%string true.

(** With one worker: "a" is being processed while "b" waits for the slot. *)
Definition feed_buffered : list Buffered.action :=
  [Buffered.ADispatcher BRun;
   Buffered.ASend "a" BBuf; Buffered.ADispatcher BBuf; Buffered.ADispatcher BBuf;
   Buffered.ASend "b" BBuf; Buffered.ADispatcher BBuf].

Definition fed_buffered : Buffered.state :=
  Buffered.mkState (mkChan [] 1 false) DoWork.Pending 1 (Some (mkChan [()] 1 false))
    (Buffered.DAcquire "b") [Buffered.CProcessing "a"] [] false false.

(** With no worker: "a" waits for a slot for ever. *)
Definition feed_unserved : list Buffered.action :=
  [Buffered.ADispatcher BRun; Buffered.ASend "a" BBuf; Buffered.ADispatcher BBuf].

Definition unserved : Buffered.state :=
  Buffered.mkState (mkChan [] 1 false) DoWork.Pending 0 (Some (mkChan [] 0 false))
    (Buffered.DAcquire "a") [] [] false false.

(** A channel of numbers with room for two. *)
Definition numbers : chan Z := mkChan [] 2 false.

(** Two values are sent and forwarded, then the input is closed. *)
Definition relay : list (OrDone.action (V:=Z)) :=
  [OrDone.ASend 1 BBuf; OrDone.ASend 2 BBuf;
   OrDone.AWorker BBuf; OrDone.AWorker (BPeer PConsumer);
   OrDone.AWorker BBuf; OrDone.AWorker (BPeer PConsumer);
   OrDone.AClose; OrDone.AWorker BClosed].

Definition relayed : OrDone.state (V:=Z) :=
  OrDone.mkState (mkChan [] 2 true) DoWork.Pending OrDone.Returned [1; 2] [] true.

(** The second value is given up because done is closed. *)
Definition relay_cut : list (OrDone.action (V:=Z)) :=
  [OrDone.ASend 1 BBuf; OrDone.ASend 2 BBuf;
   OrDone.AWorker BBuf; OrDone.AWorker (BPeer PConsumer);
   OrDone.AWorker BBuf; OrDone.AFire; OrDone.AWorker BDone].

Definition relayed_cut : OrDone.state (V:=Z) :=
  OrDone.mkState (mkChan [] 2 false) DoWork.Fired OrDone.Selecting [1] [2] false.

(** ** Bridge: one stream after the other *)

Module Bridge.
Section Bridge.
Context {V : Type}.

(** The goroutine of [Bridge], by where it is. *)
Inductive bpc : Type :=
| BSelect              (* at the outer select *)
| BRange               (* at the range over the channel orDone returned *)
| BSending (v : V)     (* at the select that sends [v] on valStream *)
| BReturned.           (* returned; the deferred close(valStream) ran *)

(** The goroutine of one call of [orDone]: the stream it reads, where it
    is, and the values it has received from the stream so far. *)
Record call : Type := mkCall {
  stream : nat;
  at_ : OrDone.pc (V:=V);
  got : list V;
}.

(** The channels sent on chanStream are references: a channel is named by
    its index in [streams], and an index with no channel there is a nil
    channel.  [inner] is the call of [orDone] made last; [past] keeps, for
    the calls before it, in order, the stream and the values received. *)
Record state : Type := mkState {
  streams : list (chan V);
  chanStream : chan nat;
  done : DoWork.signal;
  bridge : bpc;
  inner : option call;
  past : list (nat * list V);
  out : list V;               (* the values read from valStream so far *)
  out_closed : bool;          (* valStream is closed *)
}.

(** [Bridge(done, chanStream)] right after the call. *)
Definition Bridge (done : DoWork.signal) (chanStream : chan nat)
    (streams : list (chan V)) : state :=
  mkState streams chanStream done BSelect None [] [] false.

Definition set_streams (ss : list (chan V)) (st : state) : state :=
  mkState ss (chanStream st) (done st) (bridge st) (inner st) (past st) (out st)
    (out_closed st).

Definition set_chanStream (c : chan nat) (st : state) : state :=
  mkState (streams st) c (done st) (bridge st) (inner st) (past st) (out st)
    (out_closed st).

Definition set_bridge (b : bpc) (st : state) : state :=
  mkState (streams st) (chanStream st) (done st) b (inner st) (past st) (out st)
    (out_closed st).

Definition set_inner (c : call) (st : state) : state :=
  mkState (streams st) (chanStream st) (done st) (bridge st) (Some c) (past st) (out st)
    (out_closed st).

(** What the calls of [orDone] have received, call by call. *)
Definition passes (st : state) : list (nat * list V) :=
  past st ++ match inner st with
             | Some c => [(stream c, got c)]
             | None => []
             end.

(** [stream = maybeStream], and the range calls [orDone(done, stream)]. *)
Definition take (k : nat) (st : state) : state :=
  mkState (streams st) (chanStream st) (done st) BRange
    (Some (mkCall k OrDone.Selecting [])) (passes st) (out st) (out_closed st).

(** The goroutine of Bridge returns: [defer close(valStream)]. *)
Definition finish (st : state) : state :=
  mkState (streams st) (chanStream st) (done st) BReturned (inner st) (past st) (out st)
    true.

(** One step of the goroutine of Bridge.  The range receives from the
    channel of orDone: a value is handed over by the sender (see
    [inner_step]); the range ends when that channel is closed, which is
    when the goroutine of orDone has returned. *)
Definition bridge_step (b : branch) (st : state) : option state :=
  match bridge st with
  | BSelect =>
      match b with
      | BDone => match done st with DoWork.Fired => Some (finish st) | _ => None end
      | _ =>
          '(x, c') ← chan_recv b (chanStream st);
          match x with
          | Some k => Some (take k (set_chanStream c' st))
          | None => Some (finish st)
          end
      end
  | BRange =>
      match b, inner st with
      | BClosed, Some (mkCall _ OrDone.Returned _) => Some (set_bridge BSelect st)
      | _, _ => None
      end
  | BSending v =>
      match b with
      | BPeer PConsumer =>
          Some (mkState (streams st) (chanStream st) (done st) BRange (inner st)
                  (past st) (out st ++ [v]) (out_closed st))
      | BDone => match done st with DoWork.Fired => Some (finish st) | _ => None end
      | _ => None
      end
  | BReturned => None
  end.

(** One step of the goroutine of orDone.  Its send meets the range of
    Bridge ([BPeer (PClient _)]: Bridge is the client of orDone). *)
Definition inner_step (b : branch) (st : state) : option state :=
  c ← inner st;
  match at_ c with
  | OrDone.Selecting =>
      match b with
      | BDone =>
          match done st with
          | DoWork.Fired => Some (set_inner (mkCall (stream c) OrDone.Returned (got c)) st)
          | _ => None
          end
      | _ =>
          s ← streams st !! stream c;
          '(x, s') ← chan_recv b s;
          match x with
          | Some v =>
              Some (set_inner (mkCall (stream c) (OrDone.Sending v) (got c ++ [v]))
                      (set_streams (<[stream c := s']> (streams st)) st))
          | None => Some (set_inner (mkCall (stream c) OrDone.Returned (got c)) st)
          end
      end
  | OrDone.Sending v =>
      match b with
      | BPeer (PClient _) =>
          match bridge st with
          | BRange =>
              Some (set_bridge (BSending v)
                      (set_inner (mkCall (stream c) OrDone.Selecting (got c)) st))
          | _ => None
          end
      | BDone =>
          match done st with
          | DoWork.Fired => Some (set_inner (mkCall (stream c) OrDone.Selecting (got c)) st)
          | _ => None
          end
      | _ => None
      end
  | OrDone.Returned => None
  end.

(** The producers, the canceller and the two goroutines. *)
Inductive action : Type :=
| APut (k : nat) (b : branch)            (* chanStream <- stream k *)
| ACloseStreams                          (* close(chanStream) *)
| ASend (k : nat) (v : V) (b : branch)   (* stream k <- v *)
| AClose (k : nat)                       (* close(stream k) *)
| AFire                                  (* close(done) *)
| ABridge (b : branch)
| AInner (b : branch).

Definition exec (a : action) (st : state) : option state :=
  match a with
  | APut k BBuf => c' ← chan_send k (chanStream st); Some (set_chanStream c' st)
  | APut k (BPeer _) =>
      if chan_idle (chanStream st) then
        match bridge st with
        | BSelect => Some (take k st)
        | _ => None
        end
      else None
  | APut _ _ => None
  | ACloseStreams => c' ← chan_close (chanStream st); Some (set_chanStream c' st)
  | ASend k v BBuf =>
      s ← streams st !! k;
      s' ← chan_send v s;
      Some (set_streams (<[k := s']> (streams st)) st)
  | ASend k v (BPeer _) =>
      s ← streams st !! k;
      if chan_idle s then
        match inner st with
        | Some (mkCall k' OrDone.Selecting vs) =>
            if decide (k' = k)
            then Some (set_inner (mkCall k (OrDone.Sending v) (vs ++ [v])) st)
            else None
        | _ => None
        end
      else None
  | ASend _ _ _ => None
  | AClose k =>
      s ← streams st !! k;
      s' ← chan_close s;
      Some (set_streams (<[k := s']> (streams st)) st)
  | AFire =>
      match done st with
      | DoWork.Pending =>
          Some (mkState (streams st) (chanStream st) DoWork.Fired (bridge st) (inner st)
                  (past st) (out st) (out_closed st))
      | _ => None
      end
  | ABridge b => bridge_step b st
  | AInner b => inner_step b st
  end.

Fixpoint run (tr : list action) (st : state) : option state :=
  match tr with
  | [] => Some st
  | a :: tr' => st1 ← exec a st; run tr' st1
  end.

(** The streams put on chanStream by a trace, in order. *)
Fixpoint put (tr : list action) : list nat :=
  match tr with
  | [] => []
  | APut k _ :: tr' => k :: put tr'
  | _ :: tr' => put tr'
  end.

(** The values sent on stream [k] by a trace, in order. *)
Fixpoint sent_to (k : nat) (tr : list action) : list V :=
  match tr with
  | [] => []
  | ASend k' v _ :: tr' => if decide (k' = k) then v :: sent_to k tr' else sent_to k tr'
  | _ :: tr' => sent_to k tr'
  end.

(** The values received from stream [k] in the passes [ps]. *)
Fixpoint got_from (k : nat) (ps : list (nat * list V)) : list V :=
  match ps with
  | [] => []
  | (k', vs) :: rest => (if decide (k' = k) then vs else []) ++ got_from k rest
  end.

(** All the values received, pass after pass. *)
Definition joined (ps : list (nat * list V)) : list V := mjoin (snd <$> ps).

(** The values the two goroutines hold: the one Bridge is sending, then
    the one orDone is sending. *)
Definition in_hand (st : state) : list V :=
  match bridge st with BSending v => [v] | _ => [] end
  ++ match inner st with
     | Some (mkCall _ (OrDone.Sending v) _) => [v]
     | _ => []
     end.

(** Everything ever put into stream [k]: what it held at the start (in
    the store [ss]) and what the trace sent. *)
Definition content (ss : list (chan V)) (tr : list action) (k : nat) : list V :=
  match ss !! k with
  | Some c0 => buf c0 ++ sent_to k tr
  | None => []
  end.

(** The call of orDone made last, if any, is over. *)
Definition idle (st : state) : Prop :=
  match inner st with
  | Some c => at_ c = OrDone.Returned
  | None => True
  end.

(** Stream [k] is closed and empty. *)
Definition drained (st : state) (k : nat) : Prop :=
  exists s, streams st !! k = Some s /\ closed s = true /\ buf s = [].

(** Bridge takes a stream only when the call before is over, valStream is
    closed exactly when Bridge has returned, and without the signal
    Bridge returns only on a closed and empty chanStream. *)
Definition shaped (st : state) : Prop :=
  (bridge st = BSelect -> idle st) /\
  (out_closed st = true <-> bridge st = BReturned) /\
  (bridge st = BReturned -> done st <> DoWork.Fired ->
   idle st /\ closed (chanStream st) = true /\ buf (chanStream st) = []).

(** Without the signal, a call of orDone is over only when its stream is
    closed and empty. *)
Definition settled (st : state) : Prop :=
  done st <> DoWork.Fired ->
  Forall (fun p => drained st p.1) (past st) /\
  (forall c, inner st = Some c -> at_ c = OrDone.Returned -> drained st (stream c)).
End Bridge.
End Bridge.

(** Two streams: the first closed with two values left in it, the second
    open and empty. *)
Definition two_streams : list (chan Z) := [mkChan [1; 2] 2 true; mkChan [] 1 false].

(** The channel of channels, with room for two. *)
Definition stream_queue : chan nat := mkChan [] 2 false.

(** Both streams are put on chanStream and read to their end; the value 3
    is sent on the second stream while Bridge reads it. *)
Definition flatten : list (Bridge.action (V:=Z)) :=
  [Bridge.APut 0 BBuf; Bridge.APut 1 BBuf; Bridge.ACloseStreams;
   Bridge.ABridge BBuf;
   Bridge.AInner BBuf; Bridge.AInner (BPeer (PClient 0)); Bridge.ABridge (BPeer PConsumer);
   Bridge.AInner BBuf; Bridge.AInner (BPeer (PClient 0)); Bridge.ABridge (BPeer PConsumer);
   Bridge.AInner BClosed; Bridge.ABridge BClosed;
   Bridge.ABridge BBuf;
   Bridge.ASend 1 3 (BPeer (PWorker 0));
   Bridge.AInner (BPeer (PClient 0)); Bridge.ABridge (BPeer PConsumer);
   Bridge.AClose 1; Bridge.AInner BClosed; Bridge.ABridge BClosed;
   Bridge.ABridge BClosed].

(** done is closed while orDone holds the first value, which is given up. *)
Definition flatten_cut : list (Bridge.action (V:=Z)) :=
  [Bridge.APut 0 BBuf; Bridge.ABridge BBuf; Bridge.AInner BBuf;
   Bridge.AFire; Bridge.AInner BDone].

Definition flattened : Bridge.state (V:=Z) :=
  Bridge.mkState [mkChan [] 2 true; mkChan [] 1 true] (mkChan [] 2 true)
    DoWork.Pending Bridge.BReturned (Some (Bridge.mkCall 1 OrDone.Returned [3]))
    [(0%nat, [1; 2])] [1; 2; 3] true.

Definition flattened_cut : Bridge.state (V:=Z) :=
  Bridge.mkState [mkChan [2] 2 true; mkChan [] 1 false] (mkChan [] 2 false)
    DoWork.Fired Bridge.BRange (Some (Bridge.mkCall 0 OrDone.Selecting [1]))
    [] [] false.

(** ** Proof tools *)

Ltac unfold_step H :=
  unfold exec, worker_step, client_step, Submit, Receive, offer_task, offer_result,
    check_result, check_task, plain, chan_recv, chan_send, chan_close,
    worker_exit, Start in H.

Ltac step_cases H :=
  unfold_step H;
  repeat (simplify_option_eq || case_match).

Section CountLemmas.
Context {A : Type} (p : A -> bool).

Lemma count_le_length (l : list A) : (count p l <= length l)%nat.
Proof. induction l as [|x l IH]; simpl; [lia|]. destruct (p x); lia. Qed.

Lemma count_app (l1 l2 : list A) : count p (l1 ++ l2) = (count p l1 + count p l2)%nat.
Proof. induction l1 as [|x l1 IH]; simpl; [done|]. rewrite IH. lia. Qed.

Lemma count_replicate (n : nat) (x : A) :
  count p (replicate n x) = if p x then n else 0%nat.
Proof. induction n as [|n IH]; simpl; [by destruct (p x)|]. rewrite IH. by destruct (p x). Qed.

Lemma count_insert (l : list A) (i : nat) (x y : A) :
  l !! i = Some x ->
  (count p (<[i := y]> l) + (if p x then 1 else 0)
   = count p l + (if p y then 1 else 0))%nat.
Proof.
  revert i. induction l as [|z l IH]; intros [|i] Hi; simpl in *; try done.
  - injection Hi as ->. lia.
  - specialize (IH i Hi). lia.
Qed.

Lemma count_zero_lookup (l : list A) (i : nat) (x : A) :
  count p l = 0%nat -> l !! i = Some x -> p x = false.
Proof.
  revert i. induction l as [|z l IH]; intros [|i] Hc Hi; simpl in *; try done.
  - injection Hi as ->. destruct (p x); [lia|done].
  - apply (IH i); [destruct (p z); lia|done].
Qed.
End CountLemmas.

Ltac count_insert_tac :=
  repeat match goal with
         | Hl : ?ws !! ?i = Some ?w |- context [count ?p (<[?i := ?w']> ?ws)] =>
             pose proof (count_insert p _ i w w' Hl); clear Hl; simpl in *
         end; try lia.

Section Proofs.
Context {T R : Type} (zero : R).
Context (workerFunc : option error -> T -> outcome (R:=R)).

#[local] Abbreviation state := (system (T:=T) (R:=R)).

Lemma numWorkers_ctx_done e (wp : WorkerPool (T:=T) (R:=R)) :
  numWorkers (ctx_done e wp) = numWorkers wp.
Proof. unfold ctx_done. by destruct (ctx wp). Qed.

Lemma wg_ctx_done e (wp : WorkerPool (T:=T) (R:=R)) : wg (ctx_done e wp) = wg wp.
Proof. unfold ctx_done. by destruct (ctx wp). Qed.

Lemma taskChan_ctx_done e (wp : WorkerPool (T:=T) (R:=R)) :
  taskChan (ctx_done e wp) = taskChan wp.
Proof. unfold ctx_done. by destruct (ctx wp). Qed.

Lemma resultChan_ctx_done e (wp : WorkerPool (T:=T) (R:=R)) :
  resultChan (ctx_done e wp) = resultChan wp.
Proof. unfold ctx_done. by destruct (ctx wp). Qed.

Lemma ctx_ctx_done e (wp : WorkerPool (T:=T) (R:=R)) : ctx (ctx_done e wp) <> None.
Proof. unfold ctx_done. by destruct (ctx wp) eqn:E; simpl; rewrite ?E. Qed.

Lemma numWorkers_WithWorkers n (wp : WorkerPool (T:=T) (R:=R)) :
  1 <= numWorkers wp -> 1 <= numWorkers (WithWorkers n wp).
Proof. unfold WithWorkers. destruct (0 <? n) eqn:E; simpl; lia. Qed.

Lemma wg_WithWorkers n (wp : WorkerPool (T:=T) (R:=R)) : wg (WithWorkers n wp) = wg wp.
Proof. unfold WithWorkers. by destruct (0 <? n). Qed.

Lemma resultChan_WithWorkers n (wp : WorkerPool (T:=T) (R:=R)) :
  resultChan (WithWorkers n wp) = resultChan wp.
Proof. unfold WithWorkers. by destruct (0 <? n). Qed.

(** Every exec zero workerFunc keeps the worker count positive. *)
Lemma step_numWorkers a (s s' : state) ev :
  exec zero workerFunc a s = Some (ev, s') -> 1 <= numWorkers (pool s) -> 1 <= numWorkers (pool s').
Proof.
  intros H Hn. destruct a; step_cases H; simpl;
    unfold cancel; rewrite ?numWorkers_ctx_done; auto using numWorkers_WithWorkers.
Qed.

Lemma steps_numWorkers tr (s s' : state) ev :
  run zero workerFunc tr s = Some (ev, s') -> 1 <= numWorkers (pool s) -> 1 <= numWorkers (pool s').
Proof.
  revert s ev. induction tr as [|a tr IH]; intros s ev H Hn; simpl in H.
  - by simplify_eq.
  - destruct (exec zero workerFunc a s) as [[ev1 s1]|] eqn:E1; simpl in H; [|done].
    destruct (run zero workerFunc tr s1) as [[ev2 s2]|] eqn:E2; simpl in H; [|done].
    simplify_eq. eauto using step_numWorkers.
Qed.

Lemma NewWorkerPool_numWorkers numCPU cxt taskBuffer (wp : WorkerPool (T:=T) (R:=R)) :
  NewWorkerPool numCPU cxt taskBuffer = Some wp ->
  numWorkers wp = Z.max numCPU 1.
Proof.
  unfold NewWorkerPool, make_chan. intros H.
  destruct (taskBuffer <? 0); simpl in H; [done|]. simplify_eq. simpl.
  destruct (numCPU <? 1) eqn:E; lia.
Qed.

Lemma step_counted a (s s' : state) ev :
  exec zero workerFunc a s = Some (ev, s') -> counted s -> counted s'.
Proof.
  intros H [Hn Hw]. split; [by eapply step_numWorkers|].
  destruct a; step_cases H; simpl in *;
    unfold cancel; rewrite ?wg_ctx_done, ?wg_WithWorkers, ?count_app, ?count_replicate;
    simpl; try lia;
    count_insert_tac.
Qed.

Lemma steps_counted tr (s s' : state) ev :
  run zero workerFunc tr s = Some (ev, s') -> counted s -> counted s'.
Proof.
  revert s ev. induction tr as [|a tr IH]; intros s ev H Hn; simpl in H.
  - by simplify_eq.
  - destruct (exec zero workerFunc a s) as [[ev1 s1]|] eqn:E1; simpl in H; [|done].
    destruct (run zero workerFunc tr s1) as [[ev2 s2]|] eqn:E2; simpl in H; [|done].
    simplify_eq. eauto using step_counted.
Qed.

Lemma reachable_counted (s : state) : reachable zero workerFunc s -> counted s.
Proof.
  intros (numCPU & cxt & b & wp & tr & ev & Hnew & Hrun).
  eapply steps_counted; [exact Hrun|]. split; simpl.
  - rewrite (NewWorkerPool_numWorkers _ _ _ _ Hnew). lia.
  - unfold NewWorkerPool, make_chan in Hnew.
    destruct (b <? 0); simpl in Hnew; [done|]. by simplify_eq.
Qed.

(** Without [Start] no goroutine is added and none comes back to life. *)
Lemma step_no_start a (s s' : state) ev :
  is_start a = false -> exec zero workerFunc a s = Some (ev, s') ->
  length (workers s') = length (workers s) /\
  (count is_live (workers s') <= count is_live (workers s))%nat.
Proof.
  intros Ha H.
  destruct a; try discriminate Ha; step_cases H; simpl in *;
    rewrite ?length_insert; (split; [done|]); try lia;
    count_insert_tac.
Qed.

Lemma steps_no_start tr (s s' : state) ev :
  Forall (fun a => is_start a = false) tr -> run zero workerFunc tr s = Some (ev, s') ->
  length (workers s') = length (workers s) /\
  (count is_live (workers s') <= count is_live (workers s))%nat.
Proof.
  intros Htr. revert s ev. induction Htr as [|a tr Ha _ IH]; intros s ev H; simpl in H.
  - by simplify_eq.
  - destruct (exec zero workerFunc a s) as [[ev1 s1]|] eqn:E1; simpl in H; [|done].
    destruct (run zero workerFunc tr s1) as [[ev2 s2]|] eqn:E2; simpl in H; [|done].
    simplify_eq.
    destruct (step_no_start _ _ _ _ Ha E1) as [Hl Hc].
    destruct (IH _ _ E2) as [Hl' Hc']. split; [congruence|lia].
Qed.

Lemma NewWorkerPool_boot_counted numCPU cxt taskBuffer (wp : WorkerPool (T:=T) (R:=R)) :
  NewWorkerPool numCPU cxt taskBuffer = Some wp -> counted (boot wp).
Proof.
  intros Hnew. apply (reachable_counted (boot wp)).
  by exists numCPU, cxt, taskBuffer, wp, [], [].
Qed.

(** C8: the worker count is at least 1 after construction and in every
    state the pool reaches; WithWorkers(n) sets the count to n when
    n > 0, changes nothing when n <= 0, and returns the pointer it was
    called on. *)
Theorem worker_count_invariant numCPU cxt taskBuffer (wp : WorkerPool (T:=T) (R:=R))
    tr ev (s : state) (n : Z) (l : ptr) (h : gmap ptr WorkerPool) :
  NewWorkerPool numCPU cxt taskBuffer = Some wp ->
  run zero workerFunc tr (boot wp) = Some (ev, s) ->
  h !! l = Some (pool s) ->
  1 <= numWorkers wp /\
  1 <= numWorkers (pool s) /\
  (0 < n -> WithWorkers n (pool s)
            = mkPool (taskChan (pool s)) (resultChan (pool s)) (wg (pool s))
                (ctx (pool s)) n) /\
  (n <= 0 -> WithWorkers n (pool s) = pool s) /\
  1 <= numWorkers (WithWorkers n (pool s)) /\
  WithWorkers_method n l h = Some (l, <[l := WithWorkers n (pool s)]> h).
Proof.
  intros Hnew Hrun Hl.
  assert (H1 : 1 <= numWorkers wp)
    by (rewrite (NewWorkerPool_numWorkers _ _ _ _ Hnew); lia).
  assert (H2 : 1 <= numWorkers (pool s))
    by (eapply steps_numWorkers; [exact Hrun|exact H1]).
  repeat split; auto using numWorkers_WithWorkers.
  - intros Hn. unfold WithWorkers. destruct (0 <? n) eqn:E; [done|lia].
  - intros Hn. unfold WithWorkers. destruct (0 <? n) eqn:E; [lia|done].
  - unfold WithWorkers_method. by rewrite Hl.
Qed.

(** C10: in a pool started once, with worker count k at that moment,
    Start spawns exactly k workers and in no later state are more than k
    tasks inside the task function. *)
Theorem concurrency_bound numCPU cxt taskBuffer (wp : WorkerPool (T:=T) (R:=R))
    pre post ev1 ev2 ev3 (s1 s2 s3 : state) :
  NewWorkerPool numCPU cxt taskBuffer = Some wp ->
  Forall (fun a => is_start a = false) pre ->
  run zero workerFunc pre (boot wp) = Some (ev1, s1) ->
  exec zero workerFunc AStart s1 = Some (ev2, s2) ->
  Forall (fun a => is_start a = false) post ->
  run zero workerFunc post s2 = Some (ev3, s3) ->
  workers s2 = replicate (Z.to_nat (numWorkers (pool s1))) WSelect /\
  1 <= numWorkers (pool s1) /\
  length (workers s3) = Z.to_nat (numWorkers (pool s1)) /\
  (executing s3 <= Z.to_nat (numWorkers (pool s1)))%nat.
Proof.
  intros Hnew Hpre Hrun1 Hstart Hpost Hrun2.
  destruct (steps_no_start _ _ _ _ Hpre Hrun1) as [Hlen1 _]. simpl in Hlen1.
  apply nil_length_inv in Hlen1.
  destruct (steps_counted _ _ _ _ Hrun1 (NewWorkerPool_boot_counted _ _ _ _ Hnew))
    as [Hn Hwg].
  rewrite Hlen1 in Hwg. simpl in Hwg.
  assert (Hw2 : workers s2 = replicate (Z.to_nat (numWorkers (pool s1))) WSelect).
  { unfold exec, Start in Hstart. destruct (crashed s1); [done|].
    simpl in Hstart. rewrite Hwg in Hstart.
    destruct (Z.ltb_spec (Z.of_nat 0 + numWorkers (pool s1)) 0); [lia|].
    simplify_eq. simpl. by rewrite Hlen1. }
  destruct (steps_no_start _ _ _ _ Hpost Hrun2) as [Hlen3 _].
  rewrite Hw2, length_replicate in Hlen3.
  repeat split; auto.
  unfold executing. rewrite <- Hlen3. apply count_le_length.
Qed.
Lemma step_quiet a (s s' : state) ev :
  is_setup a = true -> exec zero workerFunc a s = Some (ev, s') -> quiet s -> quiet s'.
Proof.
  intros Ha H [Hcl Hcs]. unfold quiet.
  assert (Hno : forall j c, clients s !! j = Some c -> in_SubmitWait c = true).
  { intros j c Hj. by apply (Forall_lookup_1 _ _ _ _ Hcs Hj). }
  destruct a; try discriminate Ha; step_cases H; simpl in *;
    unfold cancel; rewrite ?resultChan_ctx_done, ?resultChan_WithWorkers;
    repeat match goal with
           | Hj : clients _ !! _ = Some _ |- _ =>
               apply Hno in Hj; simpl in Hj; try discriminate Hj
           end;
    try congruence;
    (split; [done|]);
    try done;
    try (apply Forall_insert; done);
    try (apply Forall_app; split; [done|]; by apply Forall_singleton).
Qed.

Lemma steps_quiet tr (s s' : state) ev :
  Forall (fun a => is_setup a = true) tr ->
  run zero workerFunc tr s = Some (ev, s') -> quiet s -> quiet s'.
Proof.
  intros Htr. revert s ev. induction Htr as [|a tr Ha _ IH]; intros s ev H Hq; simpl in H.
  - by simplify_eq.
  - destruct (exec zero workerFunc a s) as [[ev1 s1]|] eqn:E1; simpl in H; [|done].
    destruct (run zero workerFunc tr s1) as [[ev2 s2]|] eqn:E2; simpl in H; [|done].
    simplify_eq. eauto using step_quiet.
Qed.

Lemma step_guarded a (s s' : state) ev :
  is_start a = false -> exec zero workerFunc a s = Some (ev, s') ->
  counted s -> guarded s -> guarded s'.
Proof.
  intros Ha H [_ Hwg] Hg Hlive.
  destruct (step_no_start _ _ _ _ Ha H) as [_ Hle].
  destruct Hg as [Hcl Hcs]; [lia|].
  assert (Hno : forall j c, clients s !! j = Some c -> past_wait c = false).
  { intros j c Hj. by apply (Forall_lookup_1 _ _ _ _ Hcs Hj). }
  assert (Hpos : wg (pool s) <> 0) by lia.
  clear Hle Hlive.
  destruct a; try discriminate Ha; step_cases H; simpl in *;
    unfold cancel; rewrite ?resultChan_ctx_done, ?resultChan_WithWorkers;
    repeat match goal with
           | Hj : clients _ !! _ = Some _ |- _ =>
               apply Hno in Hj; simpl in Hj; try discriminate Hj
           end;
    try congruence;
    try (exfalso; apply Hpos; by apply Z.eqb_eq);
    (split; [done|]);
    try done;
    try (apply Forall_insert; done);
    try (apply Forall_insert; [apply Forall_insert|]; done);
    try (apply Forall_app; split; [done|]; by apply Forall_singleton).
Qed.

Lemma steps_guarded tr (s s' : state) ev :
  Forall (fun a => is_start a = false) tr ->
  run zero workerFunc tr s = Some (ev, s') -> counted s -> guarded s -> guarded s'.
Proof.
  intros Htr. revert s ev.
  induction Htr as [|a tr Ha _ IH]; intros s ev H Hc Hg; simpl in H.
  - by simplify_eq.
  - destruct (exec zero workerFunc a s) as [[ev1 s1]|] eqn:E1; simpl in H; [|done].
    destruct (run zero workerFunc tr s1) as [[ev2 s2]|] eqn:E2; simpl in H; [|done].
    simplify_eq. eapply IH; eauto using step_guarded, step_counted.
Qed.

(** The result stream is open whenever a worker is live, in every run in
    which the pool is configured, started once, and only then shut down:
    the deferred publication of a recovered panic never meets a closed
    stream there. *)
Lemma stream_open_while_live numCPU cxt taskBuffer (wp : WorkerPool (T:=T) (R:=R))
    pre post ev1 ev2 ev3 (s1 s2 s3 : state) i w :
  NewWorkerPool numCPU cxt taskBuffer = Some wp ->
  Forall (fun a => is_setup a = true) pre ->
  run zero workerFunc pre (boot wp) = Some (ev1, s1) ->
  exec zero workerFunc AStart s1 = Some (ev2, s2) ->
  Forall (fun a => is_start a = false) post ->
  run zero workerFunc post s2 = Some (ev3, s3) ->
  workers s3 !! i = Some w -> is_live w = true ->
  closed (resultChan (pool s3)) = false.
Proof.
  intros Hnew Hpre Hrun1 Hstart Hpost Hrun2 Hw Hlive.
  assert (Hq1 : quiet s1).
  { eapply steps_quiet; [exact Hpre|exact Hrun1|].
    unfold NewWorkerPool, make_chan in Hnew.
    destruct (taskBuffer <? 0); simpl in Hnew; [done|]. simplify_eq.
    split; simpl; [done|constructor]. }
  assert (Hc2 : counted s2).
  { eapply step_counted; [exact Hstart|].
    eapply steps_counted; [exact Hrun1|]. eapply NewWorkerPool_boot_counted; eauto. }
  assert (Hg2 : guarded s2).
  { intros _. destruct Hq1 as [Hcl Hcs].
    unfold exec, Start in Hstart. destruct (crashed s1); [done|].
    assert (Hpw : Forall (fun c : client (T:=T) (R:=R) => past_wait c = false)
                    (clients s1)).
    { eapply Forall_impl; [exact Hcs|]. intros c Hc. by destruct c. }
    by case_match; simplify_eq; simpl. }
  apply (steps_guarded _ _ _ _ Hpost Hrun2 Hc2 Hg2).
  assert (Hx := count_insert is_live _ _ _ WExit Hw). rewrite Hlive in Hx.
  simpl in Hx. lia.
Qed.

(** C7: NewWorkerPool(ctx, bufferSize) makes a pool whose two channels
    both have capacity bufferSize (with 0 the buffer takes no element, a
    send needs a receiver), whose context is a child of the caller's
    context and is done as soon as that one is, and whose worker count
    is the processor count with a floor of 1. *)
Theorem NewWorkerPool_spec numCPU cxt taskBuffer :
  0 <= taskBuffer ->
  exists wp : WorkerPool (T:=T) (R:=R),
    NewWorkerPool numCPU cxt taskBuffer = Some wp /\
    taskChan wp = mkChan [] taskBuffer false /\
    resultChan wp = mkChan [] taskBuffer false /\
    (taskBuffer = 0 ->
     (forall t, chan_send t (taskChan wp) = None) /\
     (forall r, chan_send r (resultChan wp) = None)) /\
    ctx wp = cxt /\
    wg wp = 0 /\
    numWorkers wp = Z.max numCPU 1 /\
    1 <= numWorkers wp /\
    (forall tr ev (s s' : state) e ev',
        run zero workerFunc tr (boot wp) = Some (ev, s) ->
        exec zero workerFunc (AParentDone e) s = Some (ev', s') ->
        ctx (pool s') <> None /\ (ctx (pool s) = None -> ctx (pool s') = Some e)).
Proof.
  intros Hb. unfold NewWorkerPool, make_chan.
  destruct (Z.ltb_spec taskBuffer 0) as [?|_]; [lia|]. simpl.
  eexists. split; [reflexivity|]. simpl.
  split; [done|]. split; [done|]. split.
  { intros ->. split; intros x; unfold chan_send; simpl;
      by destruct (Z.ltb_spec 0 0); [lia|]. }
  split; [done|]. split; [done|].
  split; [destruct (Z.ltb_spec numCPU 1); lia|].
  split; [destruct (Z.ltb_spec numCPU 1); lia|].
  intros tr ev s s' e ev' _ Hstep.
  unfold exec in Hstep. destruct (crashed s); [done|]. simplify_eq. simpl. split.
  - apply ctx_ctx_done.
  - intros Hc. unfold ctx_done. by rewrite Hc.
Qed.

(** C3: a panic of the task function is recovered inside the worker: the
    worker moves to the deferred publication of one failure Result whose
    error text is "panic in worker: " followed by the panic value; while
    the result stream is open, every way that publication ends leaves the
    process running and the worker back at its select, having sent that
    Result exactly once or, only when the context is done, having dropped
    it; from its select the worker takes the next queued task. *)
Theorem panic_isolation (s : state) (i : nat) :
  crashed s = false ->
  (forall t v,
      workers s !! i = Some (WExec t) ->
      workerFunc (ctx (pool s)) t = Panics v ->
      exec zero workerFunc (AWorker i BRun) s
      = Some ([], set_worker i (WRecover (recovered zero v)) s) /\
      Value (recovered zero v) = zero /\
      Err (recovered zero v)
      = Some (ErrorString (String.append "panic in worker: " v))) /\
  (forall v b ev s',
      workers s !! i = Some (WRecover (recovered zero v)) ->
      closed (resultChan (pool s)) = false ->
      exec zero workerFunc (AWorker i b) s = Some (ev, s') ->
      crashed s' = false /\
      workers s' = <[i := WSelect]> (workers s) /\
      workers s' !! i = Some WSelect /\
      taskChan (pool s') = taskChan (pool s) /\
      ((b = BBuf /\ ev = [] /\
        resultChan (pool s')
        = mkChan (buf (resultChan (pool s)) ++ [recovered zero v])
            (cap (resultChan (pool s))) false) \/
       (b = BPeer PConsumer /\ ev = [EvResult (Some (recovered zero v))] /\
        resultChan (pool s') = resultChan (pool s)) \/
       (exists j c, b = BPeer (PClient j) /\ ev = [] /\
                    clients s !! j = Some c /\
                    (c = SW_await \/ c = Stop_check \/ c = GS_check2) /\
                    resultChan (pool s') = resultChan (pool s)) \/
       (b = BDone /\ ev = [] /\ ctx (pool s) <> None /\
        resultChan (pool s') = resultChan (pool s)))) /\
  (forall t rest,
      workers s !! i = Some WSelect ->
      buf (taskChan (pool s)) = t :: rest ->
      exec zero workerFunc (AWorker i BBuf) s
      = Some ([], set_worker i (WExec t)
                    (set_taskChan (mkChan rest (cap (taskChan (pool s)))
                                     (closed (taskChan (pool s)))) s))).
Proof.
  intros Hcr. split; [|split].
  - intros t v Hw Hf. split; [|done].
    unfold exec, worker_step. rewrite Hcr, Hw. simpl. by rewrite Hf.
  - intros v b ev s' Hw Hcl H.
    assert (Hi : (i < length (workers s))%nat) by (eapply lookup_lt_Some; eauto).
    unfold exec, worker_step in H. rewrite Hcr, Hw in H. simpl in H.
    unfold offer_result, chan_send, is_done in H. rewrite Hcl in H.
    destruct (resultChan (pool s)) as [rb rc rcl] eqn:Erc. simpl in *. subst rcl.
    destruct b as [| | | |[k|j|]|]; repeat (simplify_option_eq || case_match);
      simpl; rewrite ?Hcr, ?Erc, ?list_lookup_insert_eq by done;
      (split; [done|]); (split; [done|]); (split; [done|]); (split; [done|]).
    all: try (by left).
    all: try (by right; left).
    all: try (by right; right; right).
    all: right; right; left;
      match goal with
      | Hj : clients _ !! ?j = Some ?c |- _ => exists j, c; naive_solver
      end.
  - intros t rest Hw Hb. unfold exec, worker_step, chan_recv.
    by rewrite Hcr, Hw; simpl; rewrite Hb.
Qed.
Lemma steps_two a b (s s1 s2 : state) :
  exec zero workerFunc a s = Some ([], s1) -> exec zero workerFunc b s1 = Some ([], s2) ->
  run zero workerFunc [a; b] s = Some ([], s2).
Proof. intros H1 H2. simpl. rewrite H1. simpl. by rewrite H2. Qed.

(** C6: the check before a close is a receive.  When the channel is open
    and holds at least one element, the only case the check can take is
    the receive from the buffer; it removes the head, hands it to nobody,
    and the close follows on the shortened buffer.  This holds for the
    result stream in Stop and in GracefulStop and for the task queue in
    GracefulStop, where no worker ever gets the removed task. *)
Theorem check_discards_head (s : state) (j : nat) :
  crashed s = false ->
  (forall r rest,
      clients s !! j = Some Stop_check ->
      closed (resultChan (pool s)) = false ->
      buf (resultChan (pool s)) = r :: rest ->
      (forall b ev s', exec zero workerFunc (AClient j b) s = Some (ev, s') -> b = BBuf) /\
      exists s',
        run zero workerFunc [AClient j BBuf; AClient j BRun] s = Some ([], s') /\
        resultChan (pool s') = mkChan rest (cap (resultChan (pool s))) true /\
        clients s' !! j = Some Stop_ret /\
        taskChan (pool s') = taskChan (pool s) /\
        workers s' = workers s /\ crashed s' = false) /\
  (forall r rest,
      clients s !! j = Some GS_check2 ->
      closed (resultChan (pool s)) = false ->
      buf (resultChan (pool s)) = r :: rest ->
      (forall b ev s', exec zero workerFunc (AClient j b) s = Some (ev, s') -> b = BBuf) /\
      exists s',
        run zero workerFunc [AClient j BBuf; AClient j BRun] s = Some ([], s') /\
        resultChan (pool s') = mkChan rest (cap (resultChan (pool s))) true /\
        clients s' !! j = Some GS_ret /\
        taskChan (pool s') = taskChan (pool s) /\
        workers s' = workers s /\ crashed s' = false) /\
  (forall t rest,
      clients s !! j = Some GS_check1 ->
      closed (taskChan (pool s)) = false ->
      buf (taskChan (pool s)) = t :: rest ->
      (forall b ev s', exec zero workerFunc (AClient j b) s = Some (ev, s') -> b = BBuf) /\
      exists s',
        run zero workerFunc [AClient j BBuf; AClient j BRun] s = Some ([], s') /\
        taskChan (pool s') = mkChan rest (cap (taskChan (pool s))) true /\
        clients s' !! j = Some GS_wait /\
        resultChan (pool s') = resultChan (pool s) /\
        workers s' = workers s /\ crashed s' = false).
Proof.
  intros Hcr.
  assert (Hins : forall c c', clients s !! j = Some c ->
                              <[j := c']> (clients s) !! j = Some c').
  { intros c c' Hc. apply list_lookup_insert_eq. eapply lookup_lt_Some; eauto. }
  split; [|split]; intros x rest Hc Hcl Hb.
  - split.
    + intros b ev s' H. unfold exec, client_step in H. rewrite Hcr, Hc in H.
      simpl in H. unfold check_result, chan_recv, chan_idle in H.
      rewrite Hcl, Hb in H. by destruct b; simplify_option_eq.
    + eexists. split.
      * eapply steps_two.
        -- unfold exec, client_step. rewrite Hcr, Hc. simpl.
           unfold chan_recv. rewrite Hb. reflexivity.
        -- unfold exec, client_step. simpl. rewrite Hcr, (Hins _ _ Hc). simpl.
           unfold chan_close. simpl. rewrite Hcl. reflexivity.
      * simpl. rewrite Hcr. repeat split; try done.
        rewrite list_insert_insert_eq. eauto.
  - split.
    + intros b ev s' H. unfold exec, client_step in H. rewrite Hcr, Hc in H.
      simpl in H. unfold check_result, chan_recv, chan_idle in H.
      rewrite Hcl, Hb in H. by destruct b; simplify_option_eq.
    + eexists. split.
      * eapply steps_two.
        -- unfold exec, client_step. rewrite Hcr, Hc. simpl.
           unfold chan_recv. rewrite Hb. reflexivity.
        -- unfold exec, client_step. simpl. rewrite Hcr, (Hins _ _ Hc). simpl.
           unfold chan_close. simpl. rewrite Hcl. reflexivity.
      * simpl. rewrite Hcr. repeat split; try done.
        rewrite list_insert_insert_eq. eauto.
  - split.
    + intros b ev s' H. unfold exec, client_step in H. rewrite Hcr, Hc in H.
      simpl in H. unfold check_task, chan_recv, chan_idle in H.
      rewrite Hcl, Hb in H. by destruct b; simplify_option_eq.
    + eexists. split.
      * eapply steps_two.
        -- unfold exec, client_step. rewrite Hcr, Hc. simpl.
           unfold chan_recv. rewrite Hb. reflexivity.
        -- unfold exec, client_step. simpl. rewrite Hcr, (Hins _ _ Hc). simpl.
           unfold chan_close. simpl. rewrite Hcl. reflexivity.
      * simpl. rewrite Hcr. repeat split; try done.
        rewrite list_insert_insert_eq. eauto.
Qed.
Lemma live_zero_exited (ws : list (worker (T:=T) (R:=R))) :
  count is_live ws = 0%nat <-> Forall (fun w => w = WExit) ws.
Proof.
  induction ws as [|w ws IH]; simpl; [by split|]. split.
  - intros H. destruct w; simpl in H; try lia.
    constructor; [done|]. by apply IH.
  - intros H. inversion H as [|? ? -> Hws]; subst. simpl. by apply IH.
Qed.

Lemma exec_le_live (ws : list (worker (T:=T) (R:=R))) :
  (count is_exec ws <= count is_live ws)%nat.
Proof. induction ws as [|w ws IH]; simpl; [lia|]. destruct w; simpl; lia. Qed.

(** C5 (as amended): Stop cancels the context; its wait ends only when
    every worker has returned; it then closes the result stream when its
    check finds the stream open, and returns without a close when the
    stream is closed and drained; no exec zero workerFunc of Stop touches the task queue
    or a worker.  A task that a worker has dequeued runs to its end
    whatever the context says, and the tasks left in the queue once all
    workers have returned are never executed. *)
Theorem Stop_effect (s : state) (j : nat) :
  reachable zero workerFunc s ->
  crashed s = false ->
  (clients s !! j = Some Stop_cancel ->
   exec zero workerFunc (AClient j BRun) s
   = Some ([], set_client j Stop_wait (with_pool cancel s)) /\
   ctx (cancel (pool s)) <> None) /\
  (forall b ev s',
      clients s !! j = Some Stop_wait ->
      exec zero workerFunc (AClient j b) s = Some (ev, s') ->
      Forall (fun w => w = WExit) (workers s) /\ s' = set_client j Stop_check s) /\
  (forall b ev s',
      clients s !! j = Some Stop_check ->
      closed (resultChan (pool s)) = false ->
      exec zero workerFunc (AClient j b) s = Some (ev, s') ->
      clients s' !! j = Some Stop_close /\ closed (resultChan (pool s')) = false) /\
  (clients s !! j = Some Stop_close ->
   closed (resultChan (pool s)) = false ->
   exec zero workerFunc (AClient j BRun) s
   = Some ([], set_client j Stop_ret
                 (set_resultChan (mkChan (buf (resultChan (pool s)))
                                    (cap (resultChan (pool s))) true) s))) /\
  (forall b ev s',
      clients s !! j = Some Stop_check ->
      closed (resultChan (pool s)) = true ->
      buf (resultChan (pool s)) = [] ->
      exec zero workerFunc (AClient j b) s = Some (ev, s') ->
      clients s' !! j = Some Stop_ret /\ pool s' = pool s) /\
  (forall c b ev s',
      clients s !! j = Some c ->
      in_Stop c = true ->
      exec zero workerFunc (AClient j b) s = Some (ev, s') ->
      taskChan (pool s') = taskChan (pool s) /\ workers s' = workers s) /\
  (forall i t,
      workers s !! i = Some (WExec t) ->
      exec zero workerFunc (AWorker i BRun) s = Some ([], finish zero workerFunc i t s)) /\
  (forall tr ev s',
      Forall (fun w => w = WExit) (workers s) ->
      Forall (fun a => is_start a = false) tr ->
      run zero workerFunc tr s = Some (ev, s') ->
      Forall (fun w => w = WExit) (workers s') /\ executing s' = 0%nat).
Proof.
  intros Hreach Hcr.
  assert (Hins : forall c c', clients s !! j = Some c ->
                              <[j := c']> (clients s) !! j = Some c').
  { intros c c' Hc. apply list_lookup_insert_eq. eapply lookup_lt_Some; eauto. }
  repeat apply conj.
  - intros Hc. split; [|apply ctx_ctx_done].
    unfold exec, client_step. by rewrite Hcr, Hc.
  - intros b ev s' Hc H.
    destruct (reachable_counted _ Hreach) as [_ Hwg].
    unfold exec, client_step in H. rewrite Hcr, Hc in H. simpl in H.
    destruct b; simpl in H; try done.
    destruct (Z.eqb_spec (wg (pool s)) 0) as [Hz|]; simpl in H; [|done].
    simplify_eq. split; [|done]. apply live_zero_exited. lia.
  - intros b ev s' Hc Hcl H.
    unfold exec, client_step in H. rewrite Hcr, Hc in H. simpl in H.
    unfold check_result, chan_recv, chan_idle in H. rewrite Hcl in H.
    destruct b; repeat (simplify_option_eq || case_match); simpl; eauto.
  - intros Hc Hcl. unfold exec, client_step. rewrite Hcr, Hc. simpl.
    unfold chan_close. by rewrite Hcl.
  - intros b ev s' Hc Hcl Hb H.
    unfold exec, client_step in H. rewrite Hcr, Hc in H. simpl in H.
    unfold check_result, chan_recv, chan_idle in H. rewrite Hcl, Hb in H.
    destruct b; repeat (simplify_option_eq || case_match); simpl; split; eauto.
    by destruct (pool s) as [? [] ? ? ?].
  - intros c b ev s' Hc Hin H.
    unfold exec, client_step in H. rewrite Hcr, Hc in H. simpl in H.
    destruct c; try discriminate Hin;
      unfold check_result, plain, chan_recv, chan_close in H;
      repeat (simplify_option_eq || case_match); simpl;
      unfold cancel; rewrite ?taskChan_ctx_done; done.
  - intros i t Hw. unfold exec, worker_step, finish. rewrite Hcr, Hw. simpl.
    by destruct (workerFunc (ctx (pool s)) t).
  - intros tr ev s' Hex Htr H.
    destruct (steps_no_start _ _ _ _ Htr H) as [_ Hle].
    apply live_zero_exited in Hex.
    assert (Hz : count is_live (workers s') = 0%nat) by lia.
    split; [by apply live_zero_exited|].
    unfold executing. pose proof (exec_le_live (workers s')). lia.
Qed.
Lemma step_results a (s s' : state) ev :
  exec zero workerFunc a s = Some (ev, s') -> results_ok zero workerFunc s ->
  results_ok zero workerFunc s' /\
  (forall r, EvResult (Some r) ∈ ev -> published zero workerFunc r).
Proof.
  intros H [Hb Hw]. unfold results_ok.
  assert (Hlook : forall i w r, workers s !! i = Some w -> carries w r ->
                                published zero workerFunc r).
  { intros i w r Hi Hc. by eapply (Forall_lookup_1 _ _ _ _ Hw Hi). }
  assert (Hset : forall i w,
             (forall r, carries w r -> published zero workerFunc r) ->
             Forall (fun w => forall r, carries w r -> published zero workerFunc r)
               (<[i := w]> (workers s))).
  { intros i w Hc. by apply Forall_insert. }
  assert (Hsel : forall r, carries (T:=T) WSelect r -> published zero workerFunc r).
  { by intros r [?|?]. }
  assert (Hexit : forall r, carries (T:=T) WExit r -> published zero workerFunc r).
  { by intros r [?|?]. }
  assert (Hexec : forall t r, carries (T:=T) (WExec t) r -> published zero workerFunc r).
  { by intros t r [?|?]. }
  assert (Hrec : forall v r, carries (T:=T) (WRecover (recovered zero v)) r ->
                             published zero workerFunc r).
  { intros v r [?|?]; simplify_eq. right. by exists v. }
  assert (Hpub : forall i w r, workers s !! i = Some w ->
                               w = WSend r \/ w = WRecover r ->
                               published zero workerFunc r).
  { intros i w r Hi Hc. by eapply Hlook. }
  destruct a; step_cases H; simpl in *;
    unfold cancel;
    rewrite ?resultChan_ctx_done, ?resultChan_WithWorkers;
    (split; [split|]); eauto.
  all: try (intros r' Hin; inversion Hin; fail).
  all: try (by inversion Hb).
  all: try (apply Forall_app; split; [done|]; apply Forall_replicate; done).
  all: try (apply Hset; intros r' [?|?]; simplify_eq; left; eexists _, _; simpl; eauto).
  all: try (intros r' Hin; apply list_elem_of_singleton in Hin; simplify_eq).
  all: try (by inversion Hb).
  all: try (eapply Hpub; [eassumption|]; eauto; fail).
  all: apply Forall_app; split; [done|]; apply Forall_singleton;
    eapply Hpub; [eassumption|]; eauto.
Qed.
Lemma steps_results tr (s s' : state) ev :
  run zero workerFunc tr s = Some (ev, s') -> results_ok zero workerFunc s ->
  results_ok zero workerFunc s' /\
  (forall r, EvResult (Some r) ∈ ev -> published zero workerFunc r).
Proof.
  revert s ev. induction tr as [|a tr IH]; intros s ev H Hok; simpl in H.
  - simplify_eq. split; [done|]. intros r Hin. inversion Hin.
  - destruct (exec zero workerFunc a s) as [[ev1 s1]|] eqn:E1; simpl in H; [|done].
    destruct (run zero workerFunc tr s1) as [[ev2 s2]|] eqn:E2; simpl in H; [|done].
    simplify_eq.
    destruct (step_results _ _ _ _ E1 Hok) as [Hok1 Hev1].
    destruct (IH _ _ E2 Hok1) as [Hok2 Hev2].
    split; [done|]. intros r Hin. apply elem_of_app in Hin as [?|?]; eauto.
Qed.

(** C9 (as amended): a Result is a pair of fields.  Every Result in the
    stream, and every Result a consumer has read, is either the pair
    (value, error) exactly as a call of the task function returned it, or
    the Result of a recovered panic, which has the zero value and an
    error.  So a Result without error is the pair of a call that
    returned no error; the value next to a task-returned error is the
    value the function returned. *)
Theorem results_are_pairs numCPU cxt taskBuffer (wp : WorkerPool (T:=T) (R:=R))
    tr ev (s : state) (r : Result) :
  NewWorkerPool numCPU cxt taskBuffer = Some wp ->
  run zero workerFunc tr (boot wp) = Some (ev, s) ->
  r ∈ buf (resultChan (pool s)) \/ EvResult (Some r) ∈ ev ->
  published zero workerFunc r /\
  (from_panic zero r -> Value r = zero /\ Err r <> None /\ tagged_union zero r) /\
  (Err r = None -> from_task workerFunc r).
Proof.
  intros Hnew Hrun Hr.
  assert (Hok : results_ok zero workerFunc (boot wp)).
  { unfold NewWorkerPool, make_chan in Hnew.
    destruct (taskBuffer <? 0); simpl in Hnew; [done|]. simplify_eq.
    split; simpl; constructor. }
  destruct (steps_results _ _ _ _ Hrun Hok) as [[Hbuf _] Hev].
  assert (Hp : published zero workerFunc r).
  { destruct Hr as [Hr|Hr]; [|by apply Hev].
    by apply (proj1 (Forall_forall _ _) Hbuf). }
  split; [done|]. split.
  - intros [v ->]. by repeat split.
  - intros He. destruct Hp as [?|[v ->]]; [done|]. discriminate He.
Qed.
End Proofs.

(** ** The scenarios, run *)

(** C1: two tasks are accepted by Submit and are still queued when
    GracefulStop is called; its check of the task queue receives the first
    one, so the only Result a consumer ever reads before the stream is
    closed is that of the second task. *)
Lemma GracefulStop_loses_queued_task :
  NewWorkerPool 1 None 2 = Some pool2 /\
  run 0 double drain_trace (boot pool2)
  = Some ([EvSubmit 1 (Some true); EvSubmit 2 (Some true);
           EvResult (Some (mkResult 4 None)); EvResult None],
          mkSystem (mkPool (mkChan [] 2 true) (mkChan [] 2 true) 0 (Some Canceled) 1)
            [WExit] [GS_ret] false).
Proof. split; vm_compute; reflexivity. Qed.

(** C2: with the context already cancelled and room in the task queue,
    the select of Submit can take its send case: Submit returns true and
    the task is queued.  This also happens after Stop.  SubmitWait, which
    looks at the context first, returns the cancellation error. *)
Lemma Submit_after_cancel_accepts :
  NewWorkerPool 1 (Some Canceled) 10 = Some pool10_cancelled /\
  Submit (R:=Z) 1 BBuf (boot pool10_cancelled)
  = Some (Some true, set_taskChan (mkChan [1] 10 false) (boot pool10_cancelled)) /\
  run 0 double [AStop; AClient 0 BRun; ASubmit 999 BBuf] (boot pool2)
  = Some ([EvSubmit 999 (Some true)],
          mkSystem (mkPool (mkChan [999] 2 false) (mkChan [] 2 false) 0
                      (Some Canceled) 1)
            [] [Stop_wait] false) /\
  run 0 double [ASubmitWait 1; AClient 0 BRun] (boot pool10_cancelled)
  = Some ([], mkSystem pool10_cancelled [] [SW_ret 0 (Some Canceled)] false).
Proof. repeat split; vm_compute; reflexivity. Qed.

(** C4: Stop runs with two Results in the stream: its check receives one
    and it closes the stream.  A second Stop then receives the other one,
    takes the stream for open, and closes a closed channel. *)
Lemma second_Stop_closes_closed_stream :
  run 0 double stop_trace (boot pool2)
  = Some ([EvSubmit 1 (Some true); EvSubmit 2 (Some true)], stopped_once) /\
  closed (resultChan (pool stopped_once)) = true /\
  run 0 double stop_again stopped_once = Some ([], stopping_twice) /\
  clients stopping_twice !! 1%nat = Some Stop_close /\
  closed (resultChan (pool stopping_twice)) = true /\
  exec 0 double (AClient 1 BRun) stopping_twice = Some ([], crash stopping_twice) /\
  crashed (crash stopping_twice) = true.
Proof. repeat split; vm_compute; reflexivity. Qed.

(** C5, the claim as written fails: Stop has cancelled the context while
    task 5 is queued, and the worker's select still takes the task and
    runs it. *)
Lemma queued_task_runs_after_cancel : ~ abandoned_after_cancel 0 double.
Proof.
  intros H.
  specialize (H (mkSystem (mkPool (mkChan [5] 2 false) (mkChan [] 2 false) 1
                             (Some Canceled) 1)
                   [WSelect] [Stop_wait] false)
                0%nat BBuf [] 
                (mkSystem (mkPool (mkChan [] 2 false) (mkChan [] 2 false) 1
                             (Some Canceled) 1)
                   [WExec 5] [Stop_wait] false)).
  assert (Hle : (1 <= 0)%nat); [|lia].
  apply H; [|done|vm_compute; reflexivity].
  exists 1, None, 2, pool2, stop_cancelled, [EvSubmit 5 (Some true)].
  split; vm_compute; reflexivity.
Qed.

(** C9, the claim as written fails: a task function that returns a value
    together with its error has both published in one Result. *)
Lemma failure_carries_value : ~ stream_tagged 0 partial.
Proof.
  intros H.
  specialize (H (mkSystem (mkPool (mkChan [] 2 false)
                             (mkChan [mkResult (-7) (Some (ErrorString "negative input"))]
                                2 false)
                             1 None 1)
                   [WSelect] [] false)
                (mkResult (-7) (Some (ErrorString "negative input")))).
  assert (Hz : -7 = 0); [|lia].
  apply H; [| |done].
  - exists 1, None, 2, pool2, failing_task, [EvSubmit (-7) (Some true)].
    split; vm_compute; reflexivity.
  - simpl. apply list_elem_of_singleton. reflexivity.
Qed.

(** ** The theorems at work on the scenarios *)

Lemma NewWorkerPool_spec_witness :
  0 <= 0 /\
  exists wp : WorkerPool (T:=Z) (R:=Z),
    NewWorkerPool 0 (Some DeadlineExceeded) 0 = Some wp /\
    cap (taskChan wp) = 0 /\ cap (resultChan wp) = 0 /\
    ctx wp = Some DeadlineExceeded /\ numWorkers wp = 1.
Proof.
  split; [lia|].
  destruct (NewWorkerPool_spec (T:=Z) 0 double 0 (Some DeadlineExceeded) 0 ltac:(lia))
    as (wp & Hnew & Ht & Hr & _ & Hc & _ & Hn & _).
  exists wp. rewrite Ht, Hr. repeat split; done.
Defined.

Lemma worker_count_invariant_witness :
  NewWorkerPool 0 None 2 = Some pool2 /\
  run 0 double [AWithWorkers (-5); AWithWorkers 3] (boot pool2)
  = Some ([], after double [AWithWorkers (-5); AWithWorkers 3]) /\
  ({[ 4%nat := pool (after double [AWithWorkers (-5); AWithWorkers 3]) ]}
     : gmap ptr WorkerPool) !! 4%nat
  = Some (pool (after double [AWithWorkers (-5); AWithWorkers 3])) /\
  1 <= numWorkers (pool (after double [AWithWorkers (-5); AWithWorkers 3])) /\
  WithWorkers 0 (pool (after double [AWithWorkers (-5); AWithWorkers 3]))
  = pool (after double [AWithWorkers (-5); AWithWorkers 3]).
Proof.
  assert (H1 : NewWorkerPool (T:=Z) (R:=Z) 0 None 2 = Some pool2)
    by (vm_compute; reflexivity).
  assert (H2 : run 0 double [AWithWorkers (-5); AWithWorkers 3] (boot pool2)
               = Some ([], after double [AWithWorkers (-5); AWithWorkers 3]))
    by (vm_compute; reflexivity).
  assert (H3 : ({[ 4%nat := pool (after double [AWithWorkers (-5); AWithWorkers 3]) ]}
                  : gmap ptr WorkerPool) !! 4%nat
               = Some (pool (after double [AWithWorkers (-5); AWithWorkers 3])))
    by (vm_compute; reflexivity).
  destruct (worker_count_invariant 0 double 0 None 2 pool2 _ _ _ 0 4%nat _ H1 H2 H3)
    as (_ & Hn & _ & Hz & _).
  split; [exact H1|]. split; [exact H2|]. split; [exact H3|]. split; [exact Hn|].
  apply Hz. lia.
Defined.

Lemma concurrency_bound_witness :
  NewWorkerPool 1 None 2 = Some pool2 /\
  run 0 double configure (boot pool2)
  = Some ([EvSubmit 1 (Some true)], after double configure) /\
  exec 0 double AStart (after double configure)
  = Some ([], after double (configure ++ [AStart])) /\
  run 0 double two_busy (after double (configure ++ [AStart]))
  = Some ([EvSubmit 2 (Some true)], after double (configure ++ AStart :: two_busy)) /\
  numWorkers (pool (after double configure)) = 3 /\
  executing (after double (configure ++ AStart :: two_busy)) = 2%nat /\
  (executing (after double (configure ++ AStart :: two_busy))
   <= Z.to_nat (numWorkers (pool (after double configure))))%nat.
Proof.
  assert (H1 : NewWorkerPool (T:=Z) (R:=Z) 1 None 2 = Some pool2)
    by (vm_compute; reflexivity).
  assert (H2 : run 0 double configure (boot pool2)
               = Some ([EvSubmit 1 (Some true)], after double configure))
    by (vm_compute; reflexivity).
  assert (H3 : exec 0 double AStart (after double configure)
               = Some ([], after double (configure ++ [AStart])))
    by (vm_compute; reflexivity).
  assert (H4 : run 0 double two_busy (after double (configure ++ [AStart]))
               = Some ([EvSubmit 2 (Some true)],
                       after double (configure ++ AStart :: two_busy)))
    by (vm_compute; reflexivity).
  assert (P1 : Forall (fun a : action (T:=Z) => is_start a = false) configure)
    by (repeat constructor).
  assert (P2 : Forall (fun a : action (T:=Z) => is_start a = false) two_busy)
    by (repeat constructor).
  destruct (concurrency_bound 0 double 1 None 2 pool2 _ _ _ _ _ _ _ _ H1 P1 H2 H3 P2 H4)
    as (_ & _ & _ & Hle).
  split; [exact H1|]. split; [exact H2|]. split; [exact H3|]. split; [exact H4|].
  split; [vm_compute; reflexivity|]. split; [vm_compute; reflexivity|]. exact Hle.
Defined.

Lemma panic_isolation_witness :
  crashed (busy None (WExec 42) []) = false /\
  exec 0 panicky (AWorker 0 BRun) (busy None (WExec 42) [])
  = Some ([], busy None (WRecover (recovered 0 "boom")) []) /\
  exec 0 panicky (AWorker 0 BBuf) (busy None (WRecover (recovered 0 "boom")) [])
  = Some ([], set_resultChan (mkChan [recovered 0 "boom"] 2 false)
                (busy None WSelect [])) /\
  crashed (set_resultChan (mkChan [recovered 0 "boom"] 2 false) (busy None WSelect []))
  = false /\
  exec 0 panicky (AWorker 0 BBuf) (busy None WSelect [])
  = Some ([], set_worker 0 (WExec 7)
                (set_taskChan (mkChan [] 2 false) (busy None WSelect []))).
Proof.
  split; [reflexivity|].
  split.
  { apply (proj1 (panic_isolation 0 panicky (busy None (WExec 42) []) 0 eq_refl) 42 "boom"%string);
      vm_compute; reflexivity. }
  assert (H : exec 0 panicky (AWorker 0 BBuf)
                (busy None (WRecover (recovered 0 "boom")) [])
              = Some ([], set_resultChan (mkChan [recovered 0 "boom"] 2 false)
                            (busy None WSelect [])))
    by (vm_compute; reflexivity).
  split; [exact H|].
  split.
  { apply (proj1 (proj2 (panic_isolation 0 panicky
                           (busy None (WRecover (recovered 0 "boom")) []) 0 eq_refl))
             "boom"%string BBuf [] _ eq_refl eq_refl H). }
  apply (proj2 (proj2 (panic_isolation 0 panicky (busy None WSelect []) 0 eq_refl)) 7 []);
    vm_compute; reflexivity.
Defined.

Lemma check_discards_head_witness :
  crashed (drained [Stop_check]) = false /\
  (exists s',
      run 0 double [AClient 0 BBuf; AClient 0 BRun] (drained [Stop_check])
      = Some ([], s') /\
      resultChan (pool s') = mkChan [mkResult 4 None] 2 true /\
      clients s' !! 0%nat = Some Stop_ret) /\
  (exists s',
      run 0 double [AClient 0 BBuf; AClient 0 BRun] (drained [GS_check2])
      = Some ([], s') /\
      resultChan (pool s') = mkChan [mkResult 4 None] 2 true /\
      clients s' !! 0%nat = Some GS_ret) /\
  (exists s',
      run 0 double [AClient 0 BBuf; AClient 0 BRun] (drained [GS_check1])
      = Some ([], s') /\
      taskChan (pool s') = mkChan [8] 2 true /\
      workers s' = [WExit]).
Proof.
  split; [reflexivity|]. split; [|split].
  - destruct (proj1 (check_discards_head 0 double (drained [Stop_check]) 0 eq_refl)
                (mkResult 2 None) [mkResult 4 None] eq_refl eq_refl eq_refl)
      as (_ & s' & Hrun & Hrc & Hcl & _).
    exists s'. split; [exact Hrun|]. split; [exact Hrc|exact Hcl].
  - destruct (proj1 (proj2 (check_discards_head 0 double (drained [GS_check2]) 0 eq_refl))
                (mkResult 2 None) [mkResult 4 None] eq_refl eq_refl eq_refl)
      as (_ & s' & Hrun & Hrc & Hcl & _).
    exists s'. split; [exact Hrun|]. split; [exact Hrc|exact Hcl].
  - destruct (proj2 (proj2 (check_discards_head 0 double (drained [GS_check1]) 0 eq_refl))
                7 [8] eq_refl eq_refl eq_refl)
      as (_ & s' & Hrun & Htc & _ & _ & Hw & _).
    exists s'. split; [exact Hrun|]. split; [exact Htc|exact Hw].
Defined.

Lemma results_are_pairs_witness :
  NewWorkerPool 1 None 2 = Some pool2 /\
  run 0 partial failing_task (boot pool2)
  = Some ([EvSubmit (-7) (Some true)], after partial failing_task) /\
  mkResult (-7) (Some (ErrorString "negative input"))
    ∈ buf (resultChan (pool (after partial failing_task))) /\
  published 0 partial (mkResult (-7) (Some (ErrorString "negative input"))).
Proof.
  assert (H1 : NewWorkerPool (T:=Z) (R:=Z) 1 None 2 = Some pool2)
    by (vm_compute; reflexivity).
  assert (H2 : run 0 partial failing_task (boot pool2)
               = Some ([EvSubmit (-7) (Some true)], after partial failing_task))
    by (vm_compute; reflexivity).
  assert (H3 : mkResult (-7) (Some (ErrorString "negative input"))
                 ∈ buf (resultChan (pool (after partial failing_task))))
    by (vm_compute; apply list_elem_of_here).
  split; [exact H1|]. split; [exact H2|]. split; [exact H3|].
  apply (results_are_pairs 0 partial 1 None 2 pool2 failing_task _ _ _ H1 H2 (or_introl H3)).
Defined.

Lemma after_reachable f tr ev s :
  run 0 f tr (boot pool2) = Some (ev, s) -> reachable 0 f (after f tr).
Proof.
  intros H. exists 1, None, 2, pool2, tr, ev. split; [reflexivity|].
  unfold after. by rewrite H.
Qed.

Lemma Stop_effect_witness :
  reachable 0 double (after double stop_entered) /\
  crashed (after double stop_entered) = false /\
  (exec 0 double (AClient 0 BRun) (after double stop_entered)
   = Some ([], set_client 0 Stop_wait (with_pool cancel (after double stop_entered))) /\
   ctx (cancel (pool (after double stop_entered))) <> None) /\
  (Forall (fun w => w = WExit) (workers (after double stop_waiting)) /\
   after double stop_checking = set_client 0 Stop_check (after double stop_waiting)) /\
  (clients (after double stop_closing) !! 0%nat = Some Stop_close /\
   closed (resultChan (pool (after double stop_closing))) = false) /\
  exec 0 double (AClient 0 BRun) (after double stop_closing)
  = Some ([], set_client 0 Stop_ret
                (set_resultChan (mkChan [] 2 true) (after double stop_closing))) /\
  (clients (after double (stop_rechecking ++ [AClient 1 BClosed])) !! 1%nat
   = Some Stop_ret /\
   pool (after double (stop_rechecking ++ [AClient 1 BClosed]))
   = pool (after double stop_rechecking)) /\
  (taskChan (pool (after double (stop_entered ++ [AClient 0 BRun])))
   = taskChan (pool (after double stop_entered)) /\
   workers (after double (stop_entered ++ [AClient 0 BRun]))
   = workers (after double stop_entered)) /\
  exec 0 double (AWorker 0 BRun) (after double stop_in_flight)
  = Some ([], finish 0 double 0 5 (after double stop_in_flight)) /\
  (Forall (fun w => w = WExit)
     (workers (after double (stop_waiting ++ [ASubmit 6 BBuf; AClient 0 BRun]))) /\
   executing (after double (stop_waiting ++ [ASubmit 6 BBuf; AClient 0 BRun])) = 0%nat).
Proof.
  assert (R1 : reachable 0 double (after double stop_entered))
    by (eapply after_reachable; vm_compute; reflexivity).
  assert (R2 : reachable 0 double (after double stop_waiting))
    by (eapply after_reachable; vm_compute; reflexivity).
  assert (R3 : reachable 0 double (after double stop_checking))
    by (eapply after_reachable; vm_compute; reflexivity).
  assert (R4 : reachable 0 double (after double stop_closing))
    by (eapply after_reachable; vm_compute; reflexivity).
  assert (R5 : reachable 0 double (after double stop_rechecking))
    by (eapply after_reachable; vm_compute; reflexivity).
  assert (R6 : reachable 0 double (after double stop_in_flight))
    by (eapply after_reachable; vm_compute; reflexivity).
  split; [exact R1|]. split; [reflexivity|].
  split.
  { apply (proj1 (Stop_effect 0 double _ 0 R1 eq_refl)). vm_compute; reflexivity. }
  split.
  { apply (proj1 (proj2 (Stop_effect 0 double _ 0 R2 eq_refl)) BRun []).
    - vm_compute; reflexivity.
    - vm_compute; reflexivity. }
  split.
  { apply (proj1 (proj2 (proj2 (Stop_effect 0 double _ 0 R3 eq_refl))) BDefault []).
    - vm_compute; reflexivity.
    - vm_compute; reflexivity.
    - vm_compute; reflexivity. }
  split.
  { apply (proj1 (proj2 (proj2 (proj2 (Stop_effect 0 double _ 0 R4 eq_refl))))).
    - vm_compute; reflexivity.
    - vm_compute; reflexivity. }
  split.
  { apply (proj1 (proj2 (proj2 (proj2 (proj2 (Stop_effect 0 double _ 1 R5 eq_refl)))))
             BClosed []).
    - vm_compute; reflexivity.
    - vm_compute; reflexivity.
    - vm_compute; reflexivity.
    - vm_compute; reflexivity. }
  split.
  { apply (proj1 (proj2 (proj2 (proj2 (proj2 (proj2
                   (Stop_effect 0 double _ 0 R1 eq_refl))))))
             Stop_cancel BRun []).
    - vm_compute; reflexivity.
    - reflexivity.
    - vm_compute; reflexivity. }
  split.
  { apply (proj1 (proj2 (proj2 (proj2 (proj2 (proj2 (proj2
                   (Stop_effect 0 double _ 0 R6 eq_refl)))))))).
    vm_compute; reflexivity. }
  apply (proj2 (proj2 (proj2 (proj2 (proj2 (proj2 (proj2
           (Stop_effect 0 double _ 0 R2 eq_refl)))))))
           [ASubmit 6 BBuf; AClient 0 BRun] [EvSubmit 6 (Some true)]).
  - vm_compute. repeat constructor.
  - repeat constructor.
  - vm_compute; reflexivity.
Defined.

Section PoolMore.
Context {T R : Type} (zero : R).
Context (workerFunc : option error -> T -> outcome (R:=R)).

#[local] Abbreviation state := (system (T:=T) (R:=R)).

Lemma run_cons_inv a tr (s s' : state) ev :
  run zero workerFunc (a :: tr) s = Some (ev, s') ->
  exists ev1 s1 ev2,
    exec zero workerFunc a s = Some (ev1, s1) /\
    run zero workerFunc tr s1 = Some (ev2, s') /\ ev = ev1 ++ ev2.
Proof.
  simpl. intros H.
  destruct (exec zero workerFunc a s) as [[ev1 s1]|] eqn:E1; simpl in H; [|done].
  destruct (run zero workerFunc tr s1) as [[ev2 s2]|] eqn:E2; simpl in H; [|done].
  simplify_eq. by exists ev1, s1, ev2.
Qed.

Ltac client_frame :=
  repeat match goal with
         | |- context [<[?j0 := _]> _ !! ?j] =>
             destruct (decide (j0 = j)) as [->|];
             [simplify_eq; done | rewrite list_lookup_insert_ne by done]
         end.

Lemma step_settled a (s s' : state) ev j c :
  clients s !! j = Some c -> settled c = true ->
  exec zero workerFunc a s = Some (ev, s') ->
  clients s' !! j = Some c.
Proof.
  intros Hj Hc H.
  destruct a; step_cases H; simpl in *; try done;
    try (by apply lookup_app_l_Some);
    client_frame; done.
Qed.

Lemma steps_settled tr (s s' : state) ev j c :
  clients s !! j = Some c -> settled c = true ->
  run zero workerFunc tr s = Some (ev, s') ->
  clients s' !! j = Some c.
Proof.
  revert s ev. induction tr as [|a tr IH]; intros s ev Hj Hc H.
  - simpl in H. by simplify_eq.
  - apply run_cons_inv in H as (ev1 & s1 & ev2 & H1 & H2 & ->).
    eapply IH; [|done|exact H2]. eapply step_settled; eauto.
Qed.

(** X1: once the context is done, a call of SubmitWait returns the zero
    value and the context's error at its first line; the pool, its queue
    and its workers are untouched, and the call stays returned. *)
Theorem SubmitWait_after_cancel (s s' : state) (j : nat) (t : T) (e : error) b ev :
  crashed s = false ->
  ctx (pool s) = Some e ->
  clients s !! j = Some (SW_check t) ->
  exec zero workerFunc (AClient j b) s = Some (ev, s') ->
  b = BRun /\ ev = [] /\
  s' = set_client j (SW_ret zero (Some e)) s /\
  clients s' !! j = Some (SW_ret zero (Some e)) /\
  (forall tr ev' s'',
      run zero workerFunc tr s' = Some (ev', s'') ->
      clients s'' !! j = Some (SW_ret zero (Some e))).
Proof.
  intros Hcr Hctx Hj H.
  unfold exec, client_step in H. rewrite Hcr, Hj in H. simpl in H.
  rewrite Hctx in H. destruct b; simpl in H; try done. simplify_eq.
  assert (Hl : clients (set_client j (SW_ret zero (Some e)) s) !! j
               = Some (SW_ret zero (Some e))).
  { simpl. apply list_lookup_insert_eq. eapply lookup_lt_Some; eauto. }
  repeat split; try done.
  intros tr ev' s'' Hrun. eapply steps_settled; eauto.
Qed.

(** X2: SubmitWait can block for ever.  When the goroutine it starts
    receives from the closed, drained result stream (ok = false) it sends
    nothing, and the caller waits on its private channel in every later
    state. *)
Theorem SubmitWait_hangs_on_closed_stream (s : state) (j : nat) :
  crashed s = false ->
  clients s !! j = Some SW_await ->
  closed (resultChan (pool s)) = true ->
  buf (resultChan (pool s)) = [] ->
  exec zero workerFunc (AClient j BClosed) s = Some ([], set_client j SW_hung s) /\
  (forall tr ev s',
      run zero workerFunc tr (set_client j SW_hung s) = Some (ev, s') ->
      clients s' !! j = Some SW_hung) /\
  (forall b ev s', exec zero workerFunc (AClient j b) (set_client j SW_hung s) <> Some (ev, s')).
Proof.
  intros Hcr Hj Hcl Hb.
  assert (Hl : clients (set_client j SW_hung s) !! j = Some SW_hung).
  { simpl. apply list_lookup_insert_eq. eapply lookup_lt_Some; eauto. }
  split; [|split].
  - unfold exec, client_step, chan_recv. rewrite Hcr, Hj. simpl.
    rewrite Hcl, Hb. simpl.
    by destruct s as [[tc [rb rc rcl] w c n] ws cs cr]; simpl in *; subst.
  - intros tr ev s' Hrun. eapply steps_settled; eauto.
  - intros b ev s' H. unfold exec, client_step in H. rewrite Hl in H.
    simpl in H. by destruct (crashed s).
Qed.

(** X3: what Submit does once the task queue is closed (after
    GracefulStop): it never returns true.  It returns false, which needs
    the context to be done, or it panics on the send; the send case is
    always ready. *)
Theorem Submit_on_closed_queue (s : state) (t : T) :
  closed (taskChan (pool s)) = true ->
  Submit t BClosed s = Some (None, crash s) /\
  (forall b r s',
      Submit t b s = Some (r, s') ->
      (b = BDone /\ r = Some false /\ s' = s /\ ctx (pool s) <> None) \/
      (b = BClosed /\ r = None /\ s' = crash s)).
Proof.
  intros Hcl. split.
  - unfold Submit, offer_task. by rewrite Hcl.
  - intros b r s' H. unfold Submit, offer_task, chan_send, chan_idle, is_done in H.
    rewrite Hcl in H. simpl in H.
    destruct b as [| | | |[k|k|]|]; repeat (simplify_option_eq || case_match); eauto.
Qed.

Lemma step_closed_queue a (s s' : state) ev :
  closed (taskChan (pool s)) = true ->
  exec zero workerFunc a s = Some (ev, s') ->
  closed (taskChan (pool s')) = true /\
  (length (buf (taskChan (pool s'))) <= length (buf (taskChan (pool s))))%nat /\
  Forall (fun e => is_accept e = false) ev.
Proof.
  intros Hcl H.
  destruct a; step_cases H; simpl in *;
    unfold cancel, chan_idle in *;
    rewrite ?taskChan_ctx_done; try rewrite Hcl in *; simpl in *; try done;
    repeat split; try done; try lia;
    try (by repeat constructor);
    try (unfold WithWorkers; case_match; simpl; done).
  all: try (match goal with Hb : buf _ = _ :: _ |- _ => rewrite Hb; simpl; lia end).
Qed.

(** X4: after the task queue is closed it stays closed, it only gets
    shorter, and no call of Submit is accepted any more. *)
Theorem closed_queue_drains tr (s s' : state) ev :
  closed (taskChan (pool s)) = true ->
  run zero workerFunc tr s = Some (ev, s') ->
  closed (taskChan (pool s')) = true /\
  (length (buf (taskChan (pool s'))) <= length (buf (taskChan (pool s))))%nat /\
  Forall (fun e => is_accept e = false) ev.
Proof.
  revert s ev. induction tr as [|a tr IH]; intros s ev Hcl H.
  - simpl in H. simplify_eq. by repeat split.
  - apply run_cons_inv in H as (ev1 & s1 & ev2 & H1 & H2 & ->).
    destruct (step_closed_queue _ _ _ _ Hcl H1) as (Hcl1 & Hle1 & Hev1).
    destruct (IH _ _ Hcl1 H2) as (Hcl2 & Hle2 & Hev2).
    repeat split; [done|lia|by apply Forall_app].
Qed.

Lemma step_within a (s s' : state) ev :
  exec zero workerFunc a s = Some (ev, s') ->
  within (taskChan (pool s)) -> within (resultChan (pool s)) ->
  cap (taskChan (pool s')) = cap (taskChan (pool s)) /\
  cap (resultChan (pool s')) = cap (resultChan (pool s)) /\
  within (taskChan (pool s')) /\ within (resultChan (pool s')).
Proof.
  unfold within. intros H Ht Hr.
  destruct a; step_cases H; simpl in *;
    unfold cancel;
    rewrite ?taskChan_ctx_done, ?resultChan_ctx_done, ?resultChan_WithWorkers;
    try (unfold WithWorkers; case_match; simpl);
    repeat match goal with
           | Hb : buf _ = _ :: _ |- _ => rewrite Hb in *; simpl in *
           end;
    rewrite ?length_app; simpl; repeat split; try done; try lia.
Qed.

(** X5: the two channels keep the capacity given to NewWorkerPool, and
    neither ever buffers more elements than that: a full buffer of the task
    queue takes no further task from Submit. *)
Theorem buffers_bounded numCPU cxt taskBuffer (wp : WorkerPool (T:=T) (R:=R))
    tr ev (s : state) :
  NewWorkerPool numCPU cxt taskBuffer = Some wp ->
  run zero workerFunc tr (boot wp) = Some (ev, s) ->
  0 <= taskBuffer /\
  cap (taskChan (pool s)) = taskBuffer /\
  cap (resultChan (pool s)) = taskBuffer /\
  Z.of_nat (length (buf (taskChan (pool s)))) <= taskBuffer /\
  Z.of_nat (length (buf (resultChan (pool s)))) <= taskBuffer /\
  (Z.of_nat (length (buf (taskChan (pool s)))) = taskBuffer ->
   forall t, Submit t BBuf s = None).
Proof.
  intros Hnew Hrun.
  unfold NewWorkerPool, make_chan in Hnew.
  destruct (Z.ltb_spec taskBuffer 0) as [|Hb]; simpl in Hnew; [done|]. simplify_eq.
  split; [done|].
  assert (Hinv : forall tr (s0 s1 : state) ev,
             run zero workerFunc tr s0 = Some (ev, s1) ->
             within (taskChan (pool s0)) -> within (resultChan (pool s0)) ->
             cap (taskChan (pool s1)) = cap (taskChan (pool s0)) /\
             cap (resultChan (pool s1)) = cap (resultChan (pool s0)) /\
             within (taskChan (pool s1)) /\ within (resultChan (pool s1))).
  { clear. induction tr as [|a tr IH]; intros s0 s1 ev H Ht Hr.
    - simpl in H. by simplify_eq.
    - apply run_cons_inv in H as (ev1 & s' & ev2 & H1 & H2 & ->).
      destruct (step_within _ _ _ _ H1 Ht Hr) as (C1 & C2 & W1 & W2).
      destruct (IH _ _ _ H2 W1 W2) as (C3 & C4 & W3 & W4).
      repeat split; try done; congruence. }
  destruct (Hinv _ _ _ _ Hrun) as (C1 & C2 & W1 & W2);
    [unfold within; simpl; lia..|].
  simpl in C1, C2. unfold within in W1, W2. rewrite C1 in W1. rewrite C2 in W2.
  repeat split; try done.
  intros Hfull t. unfold Submit, offer_task, chan_send. rewrite C1.
  destruct (closed (taskChan (pool s))); [done|].
  by destruct (Z.ltb_spec (Z.of_nat (length (buf (taskChan (pool s))))) taskBuffer);
    [lia|].
Qed.

Lemma step_load a (s s' : state) ev :
  is_SubmitWait_call a = false ->
  Forall (fun c => in_SubmitWait c = false) (clients s) ->
  exec zero workerFunc a s = Some (ev, s') ->
  Forall (fun c => in_SubmitWait c = false) (clients s') /\
  (load s' + count is_delivery ev + (if lossy a s then 1 else 0)
   = load s + count is_accept ev)%nat.
Proof.
  intros Ha Hcs H. unfold load.
  assert (Hno : forall j c, clients s !! j = Some c -> in_SubmitWait c = false).
  { intros j c Hj. by apply (Forall_lookup_1 _ _ _ _ Hcs Hj). }
  destruct a; try discriminate Ha; unfold lossy; step_cases H; simpl in *;
    unfold cancel;
    rewrite ?taskChan_ctx_done, ?resultChan_ctx_done, ?resultChan_WithWorkers;
    try (unfold WithWorkers; case_match; simpl);
    repeat match goal with
           | Hj : clients _ !! _ = Some _ |- _ =>
               let Hj' := fresh in
               pose proof (Hno _ _ Hj) as Hj'; simpl in Hj'; try discriminate Hj';
               rewrite ?Hj; clear Hj
           end;
    repeat match goal with
           | Hb : buf _ = _ :: _ |- _ => rewrite Hb in *; simpl in *
           end;
    rewrite ?length_app, ?count_app, ?count_replicate; simpl;
    (split;
     [ try done;
       try (apply Forall_insert; done);
       try (apply Forall_insert; [apply Forall_insert|]; done);
       try (apply Forall_app; split; [done|]; by apply Forall_singleton)
     | repeat match goal with
              | Hl : ?ws !! ?i = Some ?w |- context [count ?p (<[?i := ?w']> ?ws)] =>
                  pose proof (count_insert p _ i w w' Hl); rewrite ?Hl; clear Hl;
                  simpl in *
              end; try lia ]).
Qed.

(** X6: every accepted task is accounted for.  In every run without
    SubmitWait, the tasks Submit accepted are exactly the Results read
    from GetResults(), plus what the pool still holds (queued tasks, tasks
    and Results held by workers, buffered Results), plus the tasks and
    Results dropped at a lossy step.  So the pool invents no Result, and
    a task or Result disappears only in a check before a close or in a
    publication that loses against the done context. *)
Theorem accepted_tasks_accounted numCPU cxt taskBuffer (wp : WorkerPool (T:=T) (R:=R))
    tr ev (s : state) :
  NewWorkerPool numCPU cxt taskBuffer = Some wp ->
  Forall (fun a => is_SubmitWait_call a = false) tr ->
  run zero workerFunc tr (boot wp) = Some (ev, s) ->
  count is_accept ev
  = (count is_delivery ev + load s + losses zero workerFunc tr (boot wp))%nat /\
  (count is_delivery ev + load s <= count is_accept ev)%nat.
Proof.
  intros Hnew Htr Hrun.
  assert (Hinv : forall tr (s0 s1 : state) ev,
             Forall (fun a => is_SubmitWait_call a = false) tr ->
             Forall (fun c => in_SubmitWait c = false) (clients s0) ->
             run zero workerFunc tr s0 = Some (ev, s1) ->
             (load s1 + count is_delivery ev + losses zero workerFunc tr s0
              = load s0 + count is_accept ev)%nat).
  { clear. intros tr s0 s1 ev Htr. revert s0 ev.
    induction Htr as [|a tr Ha _ IH]; intros s0 ev Hcs H.
    - simpl in H. simplify_eq. simpl. lia.
    - apply run_cons_inv in H as (ev1 & s' & ev2 & H1 & H2 & ->).
      destruct (step_load _ _ _ _ Ha Hcs H1) as [Hcs' Hle].
      specialize (IH _ _ Hcs' H2). simpl. rewrite H1, !count_app. lia. }
  specialize (Hinv tr (boot wp) s ev Htr (Forall_nil_2 _) Hrun).
  unfold NewWorkerPool, make_chan in Hnew.
  destruct (taskBuffer <? 0); simpl in Hnew; [done|]. simplify_eq.
  unfold load in Hinv at 2. simpl in Hinv. lia.
Qed.

(** X7: a worker leaves its loop only from its select, and only because
    the context is done or because the task queue is closed and empty.  No
    error or panic of a task, no full result stream and no call of another
    goroutine ends a worker. *)
Theorem worker_exit_reasons a (s s' : state) ev (i : nat) (w : worker) :
  exec zero workerFunc a s = Some (ev, s') ->
  workers s !! i = Some w ->
  is_live w = true ->
  workers s' !! i = Some WExit ->
  w = WSelect /\
  ((a = AWorker i BDone /\ ctx (pool s) <> None) \/
   (a = AWorker i BClosed /\ closed (taskChan (pool s)) = true /\
    buf (taskChan (pool s)) = [])).
Proof.
  intros H Hw Hlive Hex.
  assert (Hlen : (i < length (workers s))%nat) by (eapply lookup_lt_Some; eauto).
  destruct a; step_cases H; simpl in *;
    try (rewrite lookup_app_l in Hex by done);
    repeat match goal with
           | Hx : <[?i0 := _]> _ !! i = Some WExit |- _ =>
               destruct (decide (i0 = i)) as [->|];
               [rewrite list_lookup_insert_eq in Hx by done
               |rewrite list_lookup_insert_ne in Hx by done]
           end;
    simplify_eq; try done.
  all: split; [done|].
  all: try (left; split; [done|]; unfold is_done in *; by case_match).
  all: right; split; [done|].
  all: repeat match goal with
              | Hb : _ && _ = true |- _ => apply andb_prop in Hb as [? ?]
              end.
  all: split; [done|].
  all: by destruct (buf (taskChan (pool s))).
Qed.

Lemma step_kept a (s s' : state) ev :
  exec zero workerFunc a s = Some (ev, s') -> kept (pool s) (pool s').
Proof.
  intros H. unfold kept.
  destruct a; step_cases H; simpl in *;
    unfold cancel, ctx_done, WithWorkers; repeat case_match; simpl in *;
    repeat split; try done; congruence.
Qed.

Lemma achieved_kept (c : client (T:=T) (R:=R)) (wp wp' : WorkerPool) :
  kept wp wp' -> achieved c wp -> achieved c wp'.
Proof. intros (K1 & K2 & K3). destruct c; simpl; naive_solver. Qed.

Lemma step_achieved a (s s' : state) ev :
  exec zero workerFunc a s = Some (ev, s') ->
  Forall (fun c => achieved c (pool s)) (clients s) ->
  Forall (fun c => achieved c (pool s')) (clients s').
Proof.
  intros H Hcs.
  pose proof (step_kept _ _ _ _ H) as Hk.
  assert (Hcs' : Forall (fun c => achieved c (pool s')) (clients s)).
  { eapply Forall_impl; [exact Hcs|]. intros c. by apply achieved_kept. }
  assert (Hno : forall j c, clients s !! j = Some c -> achieved c (pool s)).
  { intros j c Hj. by apply (Forall_lookup_1 _ _ _ _ Hcs Hj). }
  clear Hcs Hk.
  destruct a; step_cases H; simpl in *; try done;
    try (apply Forall_app; split; [done|]; by apply Forall_singleton);
    repeat match goal with
           | Hj : clients _ !! _ = Some _ |- _ => apply Hno in Hj; simpl in Hj
           end;
    repeat match goal with
           | |- Forall _ (<[_ := _]> _) => apply Forall_insert
           end;
    try done; simpl;
    repeat match goal with
           | Hb : _ && _ = true |- _ => apply andb_prop in Hb as [? ?]
           end;
    unfold cancel, ctx_done; repeat case_match; simpl in *;
    try naive_solver.
Qed.

Lemma steps_kept tr (s s' : state) ev :
  run zero workerFunc tr s = Some (ev, s') -> kept (pool s) (pool s').
Proof.
  revert s ev. induction tr as [|a tr IH]; intros s ev H.
  - simpl in H. simplify_eq. by repeat split.
  - apply run_cons_inv in H as (ev1 & s1 & ev2 & H1 & H2 & ->).
    pose proof (step_kept _ _ _ _ H1) as (K1 & K2 & K3).
    destruct (IH _ _ H2) as (K4 & K5 & K6).
    repeat split; eauto.
Qed.

(** X8: what holds when the shutdown calls return, in every run.  After
    Stop has returned the context is done and the result stream is closed;
    after GracefulStop has returned the task queue is closed as well.
    Nothing undoes this later. *)
Theorem shutdown_postconditions numCPU cxt taskBuffer (wp : WorkerPool (T:=T) (R:=R))
    tr ev (s : state) (j : nat) :
  NewWorkerPool numCPU cxt taskBuffer = Some wp ->
  run zero workerFunc tr (boot wp) = Some (ev, s) ->
  (clients s !! j = Some Stop_ret ->
   ctx (pool s) <> None /\ closed (resultChan (pool s)) = true) /\
  (clients s !! j = Some GS_ret ->
   closed (taskChan (pool s)) = true /\ ctx (pool s) <> None /\
   closed (resultChan (pool s)) = true) /\
  (forall tr' ev' s',
      run zero workerFunc tr' s = Some (ev', s') -> kept (pool s) (pool s')).
Proof.
  intros Hnew Hrun.
  assert (Hinv : forall tr (s0 s1 : state) ev,
             run zero workerFunc tr s0 = Some (ev, s1) ->
             Forall (fun c => achieved c (pool s0)) (clients s0) ->
             Forall (fun c => achieved c (pool s1)) (clients s1)).
  { clear. induction tr as [|a tr IH]; intros s0 s1 ev H Hcs.
    - simpl in H. by simplify_eq.
    - apply run_cons_inv in H as (ev1 & s' & ev2 & H1 & H2 & ->).
      eapply IH; [exact H2|]. eapply step_achieved; eauto. }
  specialize (Hinv tr (boot wp) s ev Hrun (Forall_nil_2 _)).
  split; [|split].
  - intros Hj. apply (Forall_lookup_1 _ _ _ _ Hinv Hj).
  - intros Hj. apply (Forall_lookup_1 _ _ _ _ Hinv Hj).
  - intros tr' ev' s' H. eapply steps_kept; eauto.
Qed.

(** X9: GracefulStop step by step.  On an open task queue its check leads
    to the close of the queue; up to and including its wait it neither
    cancels the context nor touches the result stream or a worker; its
    wait ends only when every worker has returned; only then it cancels,
    and closes the result stream when its check finds the stream open. *)
Theorem GracefulStop_effect (s : state) (j : nat) :
  reachable zero workerFunc s ->
  crashed s = false ->
  (forall b ev s',
      clients s !! j = Some GS_check1 ->
      closed (taskChan (pool s)) = false ->
      exec zero workerFunc (AClient j b) s = Some (ev, s') ->
      clients s' !! j = Some GS_close1 /\ closed (taskChan (pool s')) = false) /\
  (clients s !! j = Some GS_close1 ->
   closed (taskChan (pool s)) = false ->
   exec zero workerFunc (AClient j BRun) s
   = Some ([], set_client j GS_wait
                 (set_taskChan (mkChan (buf (taskChan (pool s)))
                                  (cap (taskChan (pool s))) true) s))) /\
  (forall c b ev s',
      clients s !! j = Some c ->
      draining c = true ->
      exec zero workerFunc (AClient j b) s = Some (ev, s') ->
      ctx (pool s') = ctx (pool s) /\
      resultChan (pool s') = resultChan (pool s) /\
      workers s' = workers s) /\
  (forall b ev s',
      clients s !! j = Some GS_wait ->
      exec zero workerFunc (AClient j b) s = Some (ev, s') ->
      Forall (fun w => w = WExit) (workers s) /\ s' = set_client j GS_cancel s) /\
  (clients s !! j = Some GS_cancel ->
   exec zero workerFunc (AClient j BRun) s
   = Some ([], set_client j GS_check2 (with_pool cancel s)) /\
   ctx (cancel (pool s)) <> None) /\
  (forall b ev s',
      clients s !! j = Some GS_check2 ->
      closed (resultChan (pool s)) = false ->
      exec zero workerFunc (AClient j b) s = Some (ev, s') ->
      clients s' !! j = Some GS_close2 /\ closed (resultChan (pool s')) = false) /\
  (clients s !! j = Some GS_close2 ->
   closed (resultChan (pool s)) = false ->
   exec zero workerFunc (AClient j BRun) s
   = Some ([], set_client j GS_ret
                 (set_resultChan (mkChan (buf (resultChan (pool s)))
                                    (cap (resultChan (pool s))) true) s))).
Proof.
  intros Hreach Hcr.
  assert (Hins : forall c c', clients s !! j = Some c ->
                              <[j := c']> (clients s) !! j = Some c').
  { intros c c' Hc. apply list_lookup_insert_eq. eapply lookup_lt_Some; eauto. }
  repeat apply conj.
  - intros b ev s' Hc Hcl H.
    unfold exec, client_step in H. rewrite Hcr, Hc in H. simpl in H.
    unfold check_task, chan_recv, chan_idle in H. rewrite Hcl in H.
    destruct b; repeat (simplify_option_eq || case_match); simpl; split; eauto.
  - intros Hc Hcl. unfold exec, client_step. rewrite Hcr, Hc. simpl.
    unfold chan_close. by rewrite Hcl.
  - intros c b ev s' Hc Hin H.
    unfold exec, client_step in H. rewrite Hcr, Hc in H. simpl in H.
    destruct c; try discriminate Hin;
      unfold check_task, plain, chan_recv, chan_close in H;
      repeat (simplify_option_eq || case_match); simpl; done.
  - intros b ev s' Hc H.
    destruct (reachable_counted _ _ _ Hreach) as [_ Hwg].
    unfold exec, client_step in H. rewrite Hcr, Hc in H. simpl in H.
    destruct b; simpl in H; try done.
    destruct (Z.eqb_spec (wg (pool s)) 0) as [Hz|]; simpl in H; [|done].
    simplify_eq. split; [|done]. apply live_zero_exited. lia.
  - intros Hc. split; [|apply ctx_ctx_done].
    unfold exec, client_step. by rewrite Hcr, Hc.
  - intros b ev s' Hc Hcl H.
    unfold exec, client_step in H. rewrite Hcr, Hc in H. simpl in H.
    unfold check_result, chan_recv, chan_idle in H. rewrite Hcl in H.
    destruct b; repeat (simplify_option_eq || case_match); simpl; split; eauto.
  - intros Hc Hcl. unfold exec, client_step. rewrite Hcr, Hc. simpl.
    unfold chan_close. by rewrite Hcl.
Qed.
End PoolMore.

Section CacheFacts.
Context {K V : Type} `{Countable K} (zero : V).

(** X10: a lookup right after Set finds the value set, and Set changes the
    answer for no other key; a value equal to the zero value is found like
    any other. *)
Theorem Get_after_Set (key key' : K) (value : V) (c : Cache.Cache) :
  Cache.Get zero key (Cache.Set_ key value c) = (value, true) /\
  (key' <> key ->
   Cache.Get zero key' (Cache.Set_ key value c) = Cache.Get zero key' c) /\
  Cache.Get zero key (Cache.Set_ key zero c) = (zero, true) /\
  Cache.Get zero key Cache.NewCache = (zero, false).
Proof.
  unfold Cache.Get, Cache.Set_, Cache.NewCache. simpl.
  rewrite !lookup_insert_eq, lookup_empty. repeat split.
  intros Hne. by rewrite lookup_insert_ne.
Qed.

Lemma Set_all_snoc (writes : list (K * V)) (k : K) (v : V) (c : Cache.Cache) :
  Cache.Set_all (writes ++ [(k, v)]) c = Cache.Set_ k v (Cache.Set_all writes c).
Proof. unfold Cache.Set_all. by rewrite foldl_app. Qed.

Lemma last_write_app (key : K) (w1 w2 : list (K * V)) :
  Cache.last_write key (w1 ++ w2)
  = match Cache.last_write key w2 with
    | Some v => Some v
    | None => Cache.last_write key w1
    end.
Proof.
  induction w1 as [|[k v] w1 IH]; simpl.
  - by destruct (Cache.last_write key w2).
  - rewrite IH. by destruct (Cache.last_write key w2).
Qed.

(** X11: the last write wins.  After any sequence of calls of Set, Get
    returns for each key the value of the last call for that key, and for
    a key that no call named what the cache had before; on a new cache
    that is a miss with the zero value. *)
Theorem Get_after_writes (key : K) (writes : list (K * V)) (c : Cache.Cache) :
  Cache.Get zero key (Cache.Set_all writes c)
  = match Cache.last_write key writes with
    | Some v => (v, true)
    | None => Cache.Get zero key c
    end /\
  (Cache.last_write key writes = None ->
   Cache.Get zero key (Cache.Set_all writes Cache.NewCache) = (zero, false)).
Proof.
  assert (Hmain : forall c,
             Cache.Get zero key (Cache.Set_all writes c)
             = match Cache.last_write key writes with
               | Some v => (v, true)
               | None => Cache.Get zero key c
               end).
  { induction writes as [|[k v] writes IH] using rev_ind; intros c'; [done|].
    rewrite Set_all_snoc, last_write_app. simpl.
    destruct (decide (k = key)) as [->|Hne].
    - unfold Cache.Get, Cache.Set_. simpl. by rewrite lookup_insert_eq.
    - rewrite <- IH. unfold Cache.Get, Cache.Set_. simpl.
      by rewrite lookup_insert_ne. }
  split; [apply Hmain|].
  intros Hnone. rewrite Hmain, Hnone.
  unfold Cache.Get, Cache.NewCache. simpl. by rewrite lookup_empty.
Qed.
End CacheFacts.

Section RetryFacts.
Context {T : Type} (zero : T) (config : Retry.Config) (w : Retry.world (T:=T)).

#[local] Abbreviation attempts := (Retry.attempts config w).

Lemma wrap64_range z : - 2 ^ 63 <= Retry.wrap64 z < 2 ^ 63.
Proof. unfold Retry.wrap64. pose proof (Z.mod_pos_bound (z + 2 ^ 63) (2 ^ 64)). lia. Qed.

Lemma wrap64_id z : - 2 ^ 63 <= z < 2 ^ 63 -> Retry.wrap64 z = z.
Proof. intros Hz. unfold Retry.wrap64. rewrite Z.mod_small; lia. Qed.

(** The loop from attempt [a] when attempts [a .. k-1] all fail. *)
Lemma attempts_skip (n : nat) (a k : Z) res e d c sl :
  a + Z.of_nat n = Retry.MaxAttempts config + 1 ->
  a <= k <= Retry.MaxAttempts config ->
  (forall i, a <= i < k ->
     Retry.ctx_at w i = None /\ snd (Retry.operation w i) <> None /\
     Retry.woken w i = None) ->
  exists n' res' e' d' sl',
    attempts n a res e d c sl
    = attempts n' k res' e' d' (c + Z.to_nat (k - a))%nat sl' /\
    k + Z.of_nat n' = Retry.MaxAttempts config + 1 /\
    (a < k -> res' = fst (Retry.operation w (k - 1))) /\
    (a = k -> res' = res /\ sl' = sl) /\
    length sl' = (length sl + Z.to_nat (k - a))%nat.
Proof.
  revert a res e d c sl. induction n as [|n IH]; intros a res e d c sl Hn Hk Hall.
  - lia.
  - destruct (Z.eq_dec a k) as [->|Hne].
    + exists (S n), res, e, d, sl. rewrite Z.sub_diag. simpl Z.to_nat.
      rewrite Nat.add_0_r. repeat split; try done; lia.
    + destruct (Hall a ltac:(lia)) as (Hctx & Hop & Hwk).
      simpl. destruct (Z.leb_spec a (Retry.MaxAttempts config)); [|lia].
      rewrite Hctx. destruct (Retry.operation w a) as [r [e0|]] eqn:Eop; [|done].
      destruct (Z.eqb_spec a (Retry.MaxAttempts config)); [lia|].
      rewrite Hwk.
      edestruct (IH (a + 1)) as (n' & res' & e' & d' & sl' & Heq & Hn' & Hres & Hsame & Hlen);
        [lia|split; [lia|apply Hk]|intros i Hi; apply Hall; lia|].
      exists n', res', e', d', sl'. rewrite Heq.
      replace (S c + Z.to_nat (k - (a + 1)))%nat with (c + Z.to_nat (k - a))%nat by lia.
      repeat split; try done; try lia.
      * intros _. destruct (Z.eq_dec (a + 1) k) as [Hk1|Hk1].
        -- destruct (Hsame Hk1) as [-> _]. subst k.
           replace (a + 1 - 1) with a by lia. by rewrite Eop.
        -- apply Hres. lia.
      * rewrite Hlen, length_app. simpl. lia.
Qed.

(** X12: with MaxAttempts <= 0 the loop body never runs: Retry returns the
    zero value and a nil error, as for a success, without calling the
    operation and without waiting. *)
Theorem Retry_no_attempts :
  Retry.MaxAttempts config <= 0 ->
  Retry.Retry zero config w = Retry.mkOutcome zero None 0 [].
Proof.
  intros Hm. unfold Retry.Retry.
  replace (Z.to_nat (Retry.MaxAttempts config)) with 0%nat by lia. done.
Qed.

(** X13: Retry returns the first success.  If the operation fails at the
    attempts before [k] (the context not being done and each wait ending
    by its timer) and succeeds at attempt [k], Retry returns the value of
    that call with a nil error after exactly [k] calls and [k - 1] waits.
    If no attempt succeeds, it returns the value and the error of the last
    call after exactly MaxAttempts calls. *)
Theorem Retry_first_success (k : Z) :
  1 <= k <= Retry.MaxAttempts config ->
  Retry.all_failed w k ->
  Retry.ctx_at w k = None ->
  (snd (Retry.operation w k) = None \/ k = Retry.MaxAttempts config) ->
  Retry.result (Retry.Retry zero config w) = fst (Retry.operation w k) /\
  Retry.err (Retry.Retry zero config w) = snd (Retry.operation w k) /\
  Retry.calls (Retry.Retry zero config w) = Z.to_nat k /\
  length (Retry.sleeps (Retry.Retry zero config w)) = Z.to_nat (k - 1).
Proof.
  intros Hk Hall Hctx Hend. unfold Retry.Retry.
  destruct (attempts_skip (Z.to_nat (Retry.MaxAttempts config)) 1 k zero None
              (Retry.InitialDelay config) 0%nat [] ltac:(lia) Hk Hall)
    as (n' & res' & e' & d' & sl' & Heq & Hn' & _ & _ & Hlen).
  rewrite Heq.
  destruct n' as [|n']; [lia|]. simpl.
  destruct (Z.leb_spec k (Retry.MaxAttempts config)); [|lia].
  rewrite Hctx. destruct (Retry.operation w k) as [r [e0|]] eqn:Eop; simpl in *.
  - destruct Hend as [Hs | ->]; [done|]. rewrite Z.eqb_refl. simpl.
    repeat split; lia.
  - repeat split; lia.
Qed.

(** X14: Retry stops as soon as the context is done.  Found done at the
    check that opens attempt [k], Retry returns the context's error
    without calling the operation again; found done during the wait after
    a failed attempt, it returns the context's error as well.  In both
    cases the value returned is the one of the last call made (the zero
    value when there was none), not a fresh zero value. *)
Theorem Retry_cancelled (k : Z) (ce : error) :
  1 <= k <= Retry.MaxAttempts config ->
  Retry.all_failed w k ->
  (Retry.ctx_at w k = Some ce ->
   Retry.result (Retry.Retry zero config w) = Retry.held zero w k /\
   Retry.err (Retry.Retry zero config w) = Some ce /\
   Retry.calls (Retry.Retry zero config w) = Z.to_nat (k - 1)) /\
  (Retry.ctx_at w k = None ->
   snd (Retry.operation w k) <> None ->
   k < Retry.MaxAttempts config ->
   Retry.woken w k = Some ce ->
   Retry.result (Retry.Retry zero config w) = fst (Retry.operation w k) /\
   Retry.err (Retry.Retry zero config w) = Some ce /\
   Retry.calls (Retry.Retry zero config w) = Z.to_nat k).
Proof.
  intros Hk Hall. unfold Retry.Retry.
  destruct (attempts_skip (Z.to_nat (Retry.MaxAttempts config)) 1 k zero None
              (Retry.InitialDelay config) 0%nat [] ltac:(lia) Hk Hall)
    as (n' & res' & e' & d' & sl' & Heq & Hn' & Hres & Hsame & Hlen).
  rewrite Heq.
  destruct n' as [|n']; [lia|]. simpl.
  destruct (Z.leb_spec k (Retry.MaxAttempts config)); [|lia].
  split.
  - intros Hctx. rewrite Hctx. simpl. split; [|split; [done|lia]].
    unfold Retry.held. destruct (Z.leb_spec k 1).
    + by destruct (Hsame ltac:(lia)) as [-> _].
    + apply Hres. lia.
  - intros Hctx Hop Hlt Hwk. rewrite Hctx.
    destruct (Retry.operation w k) as [r [e0|]] eqn:Eop; [|done].
    destruct (Z.eqb_spec k (Retry.MaxAttempts config)); [lia|].
    rewrite Hwk. simpl. repeat split; lia.
Qed.

Lemma attempts_bounds (n : nat) a res e d c sl :
  a + Z.of_nat n = Retry.MaxAttempts config + 1 ->
  Forall (fun x => x <= Retry.MaxDelay config) sl ->
  (length sl <= c)%nat ->
  Forall (fun x => x <= Retry.MaxDelay config) (Retry.sleeps (attempts n a res e d c sl)) /\
  (Retry.calls (attempts n a res e d c sl) <= c + n)%nat /\
  (length (Retry.sleeps (attempts n a res e d c sl))
   <= Retry.calls (attempts n a res e d c sl))%nat /\
  (length (Retry.sleeps (attempts n a res e d c sl)) <= length sl + Nat.pred n)%nat.
Proof.
  revert a res e d c sl.
  induction n as [|n IH]; intros a res e d c sl Han Hsl Hlen; simpl.
  - repeat split; try done; lia.
  - destruct (Z.leb_spec a (Retry.MaxAttempts config)); simpl;
      [|repeat split; try done; lia].
    destruct (Retry.ctx_at w a); simpl; [repeat split; try done; lia|].
    destruct (Retry.operation w a) as [r [e0|]]; simpl; [|repeat split; try done; lia].
    destruct (Z.eqb_spec a (Retry.MaxAttempts config)) as [Ha|Ha]; simpl;
      [repeat split; try done; lia|].
    set (d1 := if Retry.MaxDelay config <? Retry.wrap64 (d + Retry.jitter w a d)
               then Retry.MaxDelay config
               else Retry.wrap64 (d + Retry.jitter w a d)).
    assert (Hd1 : d1 <= Retry.MaxDelay config).
    { unfold d1. destruct (Z.ltb_spec (Retry.MaxDelay config)
                             (Retry.wrap64 (d + Retry.jitter w a d))); lia. }
    assert (Hsl' : Forall (fun x => x <= Retry.MaxDelay config) (sl ++ [d1])).
    { apply Forall_app. split; [done|]. by apply Forall_singleton. }
    assert (Hlen' : (length (sl ++ [d1]) <= S c)%nat).
    { rewrite length_app. simpl. lia. }
    destruct (Retry.woken w a); simpl.
    + rewrite length_app. simpl. repeat split; try done; lia.
    + destruct (IH (a + 1) r (Some e0) (Retry.wrap64 (d1 * 2)) (S c) (sl ++ [d1])
                  ltac:(lia) Hsl' Hlen') as (B1 & B2 & B3 & B4).
      rewrite length_app in B4. simpl in B4.
      repeat split; try done; try lia.
Qed.

(** X15: the bounds of a run of Retry.  The operation is called at most
    MaxAttempts times; Retry waits only between two attempts, so fewer
    times than it calls; and whatever jitter is drawn, no wait is longer
    than MaxDelay. *)
Theorem Retry_bounds :
  (Retry.calls (Retry.Retry zero config w) <= Z.to_nat (Retry.MaxAttempts config))%nat /\
  (length (Retry.sleeps (Retry.Retry zero config w))
   <= Nat.pred (Z.to_nat (Retry.MaxAttempts config)))%nat /\
  (length (Retry.sleeps (Retry.Retry zero config w))
   <= Retry.calls (Retry.Retry zero config w))%nat /\
  Forall (fun d => d <= Retry.MaxDelay config) (Retry.sleeps (Retry.Retry zero config w)).
Proof.
  unfold Retry.Retry.
  destruct (Z.le_gt_cases (Retry.MaxAttempts config) 0) as [Hm|Hm].
  { replace (Z.to_nat (Retry.MaxAttempts config)) with 0%nat by lia. simpl.
    repeat split; try done. }
  destruct (attempts_bounds (Z.to_nat (Retry.MaxAttempts config)) 1 zero None
              (Retry.InitialDelay config) 0%nat [] ltac:(lia) (Forall_nil_2 _)
              (Nat.le_refl _))
    as (B1 & B2 & B3 & B4).
  simpl in *. repeat split; try done.
Qed.

Lemma ascending_snoc (l : list Z) (y : Z) :
  Retry.ascending l ->
  (forall x, last l = Some x -> x <= y) ->
  Retry.ascending (l ++ [y]).
Proof.
  intros Hl Hlast i x z Hx Hz.
  apply lookup_app_Some in Hz as [Hz|[Hge Hz]].
  - rewrite lookup_app_l in Hx by (apply lookup_lt_Some in Hz; lia).
    by apply (Hl i).
  - apply list_lookup_singleton_Some in Hz as [Hi ->].
    assert (S i = length l) by lia.
    rewrite lookup_app_l in Hx by lia.
    apply Hlast. rewrite last_lookup.
    replace (Nat.pred (length l)) with i by lia. done.
Qed.

Lemma attempts_ascending (n : nat) a res e d c sl :
  0 <= Retry.MaxDelay config < 2 ^ 60 ->
  (forall a d, 0 <= d -> 0 <= Retry.jitter w a d <= 2 * d) ->
  0 <= d <= 2 ^ 61 ->
  Retry.ascending sl ->
  Forall (fun x => 0 <= x <= Retry.MaxDelay config) sl ->
  (forall x, last sl = Some x -> d = 2 * x) ->
  Retry.ascending (Retry.sleeps (attempts n a res e d c sl)) /\
  Forall (fun x => 0 <= x <= Retry.MaxDelay config)
    (Retry.sleeps (attempts n a res e d c sl)).
Proof.
  intros Hmax Hj. revert a res e d c sl.
  induction n as [|n IH]; intros a res e d c sl Hd Hsl Hrange Hlast; simpl; [done|].
  destruct (a <=? Retry.MaxAttempts config); simpl; [|done].
  destruct (Retry.ctx_at w a); simpl; [done|].
  destruct (Retry.operation w a) as [r [e0|]]; simpl; [|done].
  destruct (Z.eqb_spec a (Retry.MaxAttempts config)) as [Ha|Ha]; simpl; [done|].
  pose proof (Hj a d ltac:(lia)) as Hjd.
  rewrite (wrap64_id (d + Retry.jitter w a d)) by lia.
  set (d1 := if Retry.MaxDelay config <? d + Retry.jitter w a d
             then Retry.MaxDelay config else d + Retry.jitter w a d).
  assert (Hd1 : 0 <= d1 <= Retry.MaxDelay config /\
                (d <= Retry.MaxDelay config -> d <= d1) /\
                (Retry.MaxDelay config <= d -> d1 = Retry.MaxDelay config)).
  { unfold d1. destruct (Z.ltb_spec (Retry.MaxDelay config)
                           (d + Retry.jitter w a d)); lia. }
  assert (Hasc : Retry.ascending (sl ++ [d1])).
  { apply ascending_snoc; [done|]. intros x Hx.
    pose proof (Hlast x Hx) as Hx2.
    assert (Hx1 : 0 <= x <= Retry.MaxDelay config).
    { rewrite last_lookup in Hx. by apply (Forall_lookup_1 _ _ _ _ Hrange Hx). }
    lia. }
  assert (Hrange' : Forall (fun x => 0 <= x <= Retry.MaxDelay config) (sl ++ [d1])).
  { apply Forall_app. split; [done|]. apply Forall_singleton. lia. }
  destruct (Retry.woken w a); simpl; [done|].
  apply IH; [rewrite wrap64_id; lia|done|done|].
  intros x Hx. rewrite last_snoc in Hx. simplify_eq.
  rewrite wrap64_id by lia. lia.
Qed.

(** X16: the waits never get shorter.  With delays in a sane range (no
    overflow of int64) and a jitter that is not negative, every wait is at
    least as long as the one before and lies between 0 and MaxDelay. *)
Theorem Retry_backoff_ascending :
  0 <= Retry.InitialDelay config < 2 ^ 60 ->
  0 <= Retry.MaxDelay config < 2 ^ 60 ->
  (forall a d, 0 <= d -> 0 <= Retry.jitter w a d <= 2 * d) ->
  Retry.ascending (Retry.sleeps (Retry.Retry zero config w)) /\
  Forall (fun d => 0 <= d <= Retry.MaxDelay config)
    (Retry.sleeps (Retry.Retry zero config w)).
Proof.
  intros Hi Hm Hj. unfold Retry.Retry.
  apply attempts_ascending; try done; try lia.
Qed.
End RetryFacts.

(** X17: Do ends the transaction it began exactly once, and only then.
    When BeginTx fails nothing else is called and the function's result
    plays no part; when the function returns an error the transaction is
    rolled back and never committed; when it returns no error the
    transaction is committed and never rolled back; when the function
    panics neither happens.  A value other than nil is returned only
    with a nil error, after a successful commit, and it is the
    function's value. *)
Theorem Do_ends_transaction (db : Trx.DB) (ctx : Trx.context)
    (f : Trx.context -> Trx.outcome (Trx.any * Trx.error)) :
  (forall err g, Trx.BeginTx db ctx = inr err ->
     Trx.Do db ctx f = (Trx.Returns (Trx.Nil, Some err), [Trx.CBegin]) /\
     Trx.Do db ctx g = Trx.Do db ctx f) /\
  (forall trx,
     Trx.BeginTx db ctx = inl trx ->
     let inner := Trx.WithValue ctx Trx.trxKey (Trx.TxPtr (Some trx)) in
     (f inner = Trx.Panics ->
      Trx.Do db ctx f = (Trx.Panics, [Trx.CBegin])) /\
     (forall res err, f inner = Trx.Returns (res, Some err) ->
        snd (Trx.Do db ctx f) = [Trx.CBegin; Trx.CRollback trx] /\
        exists err', fst (Trx.Do db ctx f) = Trx.Returns (Trx.Nil, Some err') /\
                     (Trx.Rollback db trx = None -> err' = err)) /\
     (forall res, f inner = Trx.Returns (res, None) ->
        snd (Trx.Do db ctx f) = [Trx.CBegin; Trx.CCommit trx] /\
        (Trx.Commit db trx = None ->
         fst (Trx.Do db ctx f) = Trx.Returns (res, None)) /\
        (forall e, Trx.Commit db trx = Some e ->
           exists err', fst (Trx.Do db ctx f) = Trx.Returns (Trx.Nil, Some err')))) /\
  (count Trx.is_commit (snd (Trx.Do db ctx f))
   + count Trx.is_rollback (snd (Trx.Do db ctx f)) <= 1)%nat /\
  (forall res err, fst (Trx.Do db ctx f) = Trx.Returns (res, err) ->
     res <> Trx.Nil -> err = None /\ count Trx.is_commit (snd (Trx.Do db ctx f)) = 1%nat).
Proof.
  unfold Trx.Do. cbv zeta. split; [|split; [|split]].
  - intros err g Hb. by rewrite Hb.
  - intros trx Hb. rewrite Hb. split; [|split].
    + intros Hf. by rewrite Hf.
    + intros res err Hf. rewrite Hf.
      destruct (Trx.Rollback db trx) eqn:E; simpl; (split; [done|]);
        eexists; (split; [done|]); done.
    + intros res Hf. rewrite Hf.
      destruct (Trx.Commit db trx) eqn:E; simpl; (split; [done|]); split; try done.
      * intros e He. by eexists.
  - destruct (Trx.BeginTx db ctx); simpl; [|lia].
    destruct (f _) as [[res [e|]]|]; simpl; [| |lia].
    + destruct (Trx.Rollback db n); simpl; lia.
    + destruct (Trx.Commit db n); simpl; lia.
  - intros res err Hr Hres.
    destruct (Trx.BeginTx db ctx); simpl in *; [|by simplify_eq].
    destruct (f _) as [[res' [e|]]|]; simpl in *; [| |done].
    + destruct (Trx.Rollback db n); simpl in *; by simplify_eq.
    + destruct (Trx.Commit db n); simpl in *; by simplify_eq.
Qed.

(** X18: the function run by Do finds its transaction.  TxFromContext on the
    context that Do hands to the function returns the transaction BeginTx
    gave, whatever the caller's context held under that key before (a
    nested Do sees the inner transaction), and every other key of the
    caller's context reads as before. *)
Theorem Do_passes_transaction (db : Trx.DB) (ctx : Trx.context) (trx : nat) :
  Trx.BeginTx db ctx = inl trx ->
  let inner := Trx.WithValue ctx Trx.trxKey (Trx.TxPtr (Some trx)) in
  Trx.TxFromContext inner = (Some trx, None) /\
  (forall k, k <> Trx.trxKey -> Trx.Value inner k = Trx.Value ctx k) /\
  (Trx.Commit db trx = None ->
   Trx.Do db ctx Trx.find_tx
   = (Trx.Returns (Trx.TxPtr (Some trx), None), [Trx.CBegin; Trx.CCommit trx])).
Proof.
  intros Hb inner. split; [|split].
  - reflexivity.
  - intros k Hk. unfold inner. simpl. by rewrite decide_False.
  - intros Hc. unfold Trx.Do, Trx.find_tx, Trx.TxFromContext. rewrite Hb. simpl.
    by rewrite Hc.
Qed.

(** X19: when TxFromContext fails.  It returns a transaction exactly when
    the newest value under the key trxKey is a *sql.Tx; with no value
    there (as in a context Do never touched) the error is "cannot find
    transaction", with a value of another type it is "received value is
    not a *sql.Tx".  A key of another type with the same text does not
    count. *)
Theorem TxFromContext_cases (ctx : Trx.context) :
  (forall tx, Trx.Value ctx Trx.trxKey = Trx.TxPtr tx <->
              Trx.TxFromContext ctx = (tx, None)) /\
  (Trx.Value ctx Trx.trxKey = Trx.Nil ->
   Trx.TxFromContext ctx = (None, Some "cannot find transaction"%string)) /\
  (forall v, Trx.Value ctx Trx.trxKey = Trx.Other v ->
     Trx.TxFromContext ctx = (None, Some "received value is not a *sql.Tx"%string)) /\
  Trx.TxFromContext [] = (None, Some "cannot find transaction"%string) /\
  (forall v, Trx.TxFromContext (Trx.WithValue ctx (Trx.otherKey "trxKey") v)
             = Trx.TxFromContext ctx).
Proof.
  unfold Trx.TxFromContext. repeat split.
  - by intros ->.
  - destruct (Trx.Value ctx Trx.trxKey); intros; by simplify_eq.
  - by intros ->.
  - by intros v ->.
Qed.

Lemma limiter_run_cons_inv a tr lb ev lb' :
  Limiter.run (a :: tr) lb = Some (ev, lb') ->
  exists ev1 lb1 ev2,
    Limiter.exec a lb = Some (ev1, lb1) /\
    Limiter.run tr lb1 = Some (ev2, lb') /\ ev = ev1 ++ ev2.
Proof.
  simpl. intros H.
  destruct (Limiter.exec a lb) as [[ev1 lb1]|] eqn:E1; simpl in H; [|done].
  destruct (Limiter.run tr lb1) as [[ev2 lb2]|] eqn:E2; simpl in H; [|done].
  simplify_eq. by exists ev1, lb1, ev2.
Qed.

Ltac limiter_cases H :=
  unfold Limiter.exec, Limiter.Allow, Limiter.Stop, Limiter.leak_start,
    Limiter.leak_tick, chan_send, chan_close in H;
  repeat (simplify_option_eq || case_match).

(** X20: the guards of the constructor.  NewLeakyBucket panics exactly when
    rate <= 0 or capacity <= 0; otherwise the bucket starts empty with
    room for capacity requests.  A rate above 10^9 passes the guards, but
    then the period time.Second / rate is 0 and the leak goroutine panics
    when it makes its ticker. *)
Theorem NewLeakyBucket_guards (rate capacity : Z) :
  (Limiter.NewLeakyBucket rate capacity = None <-> rate <= 0 \/ capacity <= 0) /\
  (forall lb, Limiter.NewLeakyBucket rate capacity = Some lb ->
     Limiter.level lb = 0%nat /\ cap (Limiter.queue lb) = capacity /\
     Limiter.rate lb = rate /\ Limiter.leak lb = Limiter.Starting /\
     Limiter.crashed lb = false /\
     (Limiter.Second < rate ->
      Limiter.exec Limiter.ALeakStart lb = Some ([], Limiter.crash lb)) /\
     (rate <= Limiter.Second ->
      Limiter.exec Limiter.ALeakStart lb
      = Some ([], Limiter.set_leak (Limiter.Ticking (Limiter.Second / rate)) lb) /\
      1 <= Limiter.Second / rate)).
Proof.
  unfold Limiter.NewLeakyBucket. split.
  - destruct (Z.leb_spec rate 0), (Z.leb_spec capacity 0); split; try done; lia.
  - intros lb H.
    destruct (Z.leb_spec rate 0); [done|]. destruct (Z.leb_spec capacity 0); [done|].
    simplify_eq. unfold Limiter.exec, Limiter.leak_start. simpl.
    repeat split; try done.
    + intros Hr. rewrite Z.quot_small by (unfold Limiter.Second in *; lia). done.
    + rewrite Z.quot_div_nonneg by (unfold Limiter.Second; lia).
      assert (1 <= Limiter.Second / rate).
      { apply Z.div_le_lower_bound; lia. }
      by destruct (Z.leb_spec (Limiter.Second / rate) 0); [lia|].
    + apply Z.div_le_lower_bound; lia.
Qed.

Lemma limiter_step_level a lb ev lb' :
  Limiter.exec a lb = Some (ev, lb') ->
  Z.of_nat (Limiter.level lb) <= cap (Limiter.queue lb) ->
  closed (Limiter.queue lb) = false ->
  cap (Limiter.queue lb') = cap (Limiter.queue lb) /\
  closed (Limiter.queue lb') = false /\
  Z.of_nat (Limiter.level lb') <= cap (Limiter.queue lb) /\
  (Limiter.level lb' + (if Limiter.is_tick a then 1 else 0)
   >= Limiter.level lb + count id ev)%nat /\
  (Limiter.leak lb = Limiter.Returned ->
   Limiter.leak lb' = Limiter.Returned /\
   Limiter.level lb' = (Limiter.level lb + count id ev)%nat).
Proof.
  unfold Limiter.level. intros H Hl Hc.
  destruct a; limiter_cases H; simpl in *; rewrite ?length_app; simpl;
    repeat match goal with
           | Hb : buf _ = _ |- _ => rewrite Hb in *; simpl in *
           end;
    repeat split; try done; try lia.
Qed.

Lemma limiter_run_level tr lb1 lb2 ev :
  Limiter.run tr lb1 = Some (ev, lb2) ->
  Z.of_nat (Limiter.level lb1) <= cap (Limiter.queue lb1) ->
  closed (Limiter.queue lb1) = false ->
  cap (Limiter.queue lb2) = cap (Limiter.queue lb1) /\
  closed (Limiter.queue lb2) = false /\
  Z.of_nat (Limiter.level lb2) <= cap (Limiter.queue lb1) /\
  (Limiter.level lb2 + count Limiter.is_tick tr
   >= Limiter.level lb1 + count id ev)%nat /\
  (Limiter.leak lb1 = Limiter.Returned ->
   Limiter.leak lb2 = Limiter.Returned /\
   Limiter.level lb2 = (Limiter.level lb1 + count id ev)%nat).
Proof.
  revert lb1 lb2 ev. induction tr as [|a tr IH]; intros lb1 lb2 ev H Hl Hc.
  - simpl in H. simplify_eq. simpl. repeat split; try done; lia.
  - apply limiter_run_cons_inv in H as (ev1 & lb' & ev2 & H1 & H2 & ->).
    destruct (limiter_step_level _ _ _ _ H1 Hl Hc) as (C1 & C2 & C3 & C4 & C4').
    assert (Hl' : Z.of_nat (Limiter.level lb') <= cap (Limiter.queue lb')) by lia.
    destruct (IH _ _ _ H2 Hl' C2) as (C5 & C6 & C7 & C8 & C8').
    rewrite count_app. simpl.
    split; [congruence|]. split; [done|]. split; [lia|]. split.
    + destruct (Limiter.is_tick a); lia.
    + intros Hr. destruct (C4' Hr) as [R1 R2]. destruct (C8' R1) as [R3 R4].
      split; [done|lia].
Qed.

Lemma limiter_new_level rate capacity lb0 :
  Limiter.NewLeakyBucket rate capacity = Some lb0 ->
  0 < capacity /\ cap (Limiter.queue lb0) = capacity /\
  Limiter.level lb0 = 0%nat /\ closed (Limiter.queue lb0) = false.
Proof.
  unfold Limiter.NewLeakyBucket. intros H.
  destruct (Z.leb_spec rate 0); [done|]. destruct (Z.leb_spec capacity 0); [done|].
  by simplify_eq.
Qed.

(** X21: the bucket limits the rate.  In every run from a new bucket the
    level stays between 0 and capacity, Allow returns true exactly when
    there is room, and the number of requests allowed so far is at most
    capacity plus the number of ticks so far. *)
Theorem allowed_at_most_capacity_plus_ticks rate capacity lb0 tr ev lb :
  Limiter.NewLeakyBucket rate capacity = Some lb0 ->
  Limiter.run tr lb0 = Some (ev, lb) ->
  Z.of_nat (Limiter.level lb) <= capacity /\
  (Z.of_nat (count id ev) <= capacity + Z.of_nat (count Limiter.is_tick tr)) /\
  (Limiter.crashed lb = false ->
   fst (Limiter.Allow lb) = (Z.of_nat (Limiter.level lb) <? capacity) /\
   Limiter.level (snd (Limiter.Allow lb))
   = (Limiter.level lb + if fst (Limiter.Allow lb) then 1 else 0)%nat).
Proof.
  intros Hnew Hrun.
  destruct (limiter_new_level _ _ _ Hnew) as (Hpos & Hcap & Hlev & Hcl).
  destruct (limiter_run_level _ _ _ _ Hrun) as (C1 & C2 & C3 & C4 & _);
    [rewrite Hlev, Hcap; lia|done|].
  rewrite Hcap in *. rewrite Hlev in C4.
  split; [done|]. split; [lia|].
  intros _. unfold Limiter.Allow, chan_send, Limiter.level in *. rewrite C2, C1.
  destruct (Z.ltb_spec (Z.of_nat (length (buf (Limiter.queue lb)))) capacity); simpl.
  - rewrite length_app. simpl. done.
  - lia.
Qed.

(** X22: Stop is not idempotent, and a stopped bucket fills up for good.  A
    second call of Stop closes a closed channel and panics.  Once the leak
    goroutine has returned nothing leaves the bucket: the level grows by
    one with every allowed request, so at most capacity - level further
    requests are ever allowed. *)
Theorem stopped_bucket_fills rate capacity lb0 tr ev lb tr' ev' lb' :
  Limiter.NewLeakyBucket rate capacity = Some lb0 ->
  Limiter.run tr lb0 = Some (ev, lb) ->
  (Limiter.crashed lb = false -> closed (Limiter.stopCh lb) = true ->
   Limiter.exec Limiter.AStop lb = Some ([], Limiter.crash lb)) /\
  (Limiter.leak lb = Limiter.Returned ->
   Limiter.run tr' lb = Some (ev', lb') ->
   Limiter.leak lb' = Limiter.Returned /\
   Limiter.level lb' = (Limiter.level lb + count id ev')%nat /\
   Z.of_nat (count id ev') <= capacity - Z.of_nat (Limiter.level lb)).
Proof.
  intros Hnew Hrun. split.
  - intros Hcr Hcl. unfold Limiter.exec, Limiter.Stop, chan_close.
    by rewrite Hcr, Hcl.
  - intros Hret Hrun'.
    destruct (limiter_new_level _ _ _ Hnew) as (Hpos & Hcap & Hlev & Hcl).
    destruct (limiter_run_level _ _ _ _ Hrun) as (C1 & C2 & C3 & _ & _);
      [rewrite Hlev, Hcap; lia|done|].
    destruct (limiter_run_level _ _ _ _ Hrun') as (D1 & D2 & D3 & _ & D4);
      [lia|done|].
    destruct (D4 Hret) as [R1 R2]. rewrite Hcap in *.
    repeat split; try done; lia.
Qed.

Lemma dowork_step_order a st st' :
  DoWork.exec a st = Some st' ->
  DoWork.processed st' ++ DoWork.in_hand st' ++ buf (DoWork.strings st')
  = DoWork.processed st ++ DoWork.in_hand st ++ buf (DoWork.strings st)
      ++ DoWork.sent [a].
Proof.
  intros H. unfold DoWork.in_hand.
  destruct a as [s b| | |b]; simpl in *.
  - destruct b as [| | | |p|]; try done.
    + unfold chan_send in H. repeat (simplify_option_eq || case_match); simpl;
        by rewrite ?app_nil_r, <- ?app_assoc.
    + unfold chan_idle in H. repeat (simplify_option_eq || case_match); simpl.
      apply andb_prop in H0 as [_ He].
      by destruct (buf (DoWork.strings st)).
  - unfold chan_close in H. repeat (simplify_option_eq || case_match); simpl;
      by rewrite ?app_nil_r.
  - repeat (simplify_option_eq || case_match); simpl; by rewrite ?app_nil_r.
  - unfold DoWork.worker_step, chan_recv in H.
    repeat (simplify_option_eq || case_match); simpl in *;
      repeat match goal with
             | Hb : buf _ = _ |- _ => rewrite Hb in *; simpl in *
             end;
      rewrite ?app_nil_r, <- ?app_assoc; simpl; try done.
Qed.

Lemma dowork_sent_app tr1 tr2 :
  DoWork.sent (tr1 ++ tr2) = DoWork.sent tr1 ++ DoWork.sent tr2.
Proof.
  induction tr1 as [|a tr1 IH]; [done|]. destruct a; simpl; by rewrite ?IH.
Qed.

Lemma dowork_run_order tr st st' :
  DoWork.run tr st = Some st' ->
  DoWork.processed st' ++ DoWork.in_hand st' ++ buf (DoWork.strings st')
  = DoWork.processed st ++ DoWork.in_hand st ++ buf (DoWork.strings st)
      ++ DoWork.sent tr.
Proof.
  revert st. induction tr as [|a tr IH]; intros st H; simpl in H.
  - simplify_eq. simpl. by rewrite !app_nil_r.
  - destruct (DoWork.exec a st) as [st1|] eqn:E; simpl in H; [|done].
    pose proof (dowork_step_order _ _ _ E) as Hs.
    rewrite (IH _ H). change (a :: tr) with ([a] ++ tr). rewrite dowork_sent_app.
    rewrite !app_assoc in Hs. rewrite !app_assoc. by rewrite Hs.
Qed.

Lemma dowork_step_completed a st st' :
  DoWork.exec a st = Some st' ->
  (DoWork.completed st = true <-> DoWork.worker st = DoWork.Returned) ->
  (DoWork.worker st = DoWork.Returned ->
   DoWork.done st = DoWork.Fired \/
   (closed (DoWork.strings st) = true /\ buf (DoWork.strings st) = [])) ->
  (DoWork.completed st' = true <-> DoWork.worker st' = DoWork.Returned) /\
  (DoWork.worker st' = DoWork.Returned ->
   DoWork.done st' = DoWork.Fired \/
   (closed (DoWork.strings st') = true /\ buf (DoWork.strings st') = [])).
Proof.
  intros H Hc Hr.
  destruct a as [s b| | |b]; simpl in *; [destruct b as [| | | |p|]; try done|..];
    unfold DoWork.worker_step, chan_recv, chan_send, chan_idle, chan_close in H;
    repeat (simplify_option_eq || case_match); simpl in *;
    repeat match goal with
           | Hb : _ && _ = true |- _ => apply andb_prop in Hb as [? ?]
           end;
    repeat match goal with
           | He : is_empty ?l = true |- _ =>
               destruct l eqn:?; [clear He | discriminate He]
           end;
    naive_solver.
Qed.

Lemma dowork_run_completed tr st st' :
  DoWork.run tr st = Some st' ->
  (DoWork.completed st = true <-> DoWork.worker st = DoWork.Returned) ->
  (DoWork.worker st = DoWork.Returned ->
   DoWork.done st = DoWork.Fired \/
   (closed (DoWork.strings st) = true /\ buf (DoWork.strings st) = [])) ->
  (DoWork.completed st' = true <-> DoWork.worker st' = DoWork.Returned) /\
  (DoWork.worker st' = DoWork.Returned ->
   DoWork.done st' = DoWork.Fired \/
   (closed (DoWork.strings st') = true /\ buf (DoWork.strings st') = [])).
Proof.
  revert st. induction tr as [|a tr IH]; intros st H Hc Hr; simpl in H.
  - by simplify_eq.
  - destruct (DoWork.exec a st) as [st1|] eqn:E; simpl in H; [|done].
    destruct (dowork_step_completed _ _ _ E Hc Hr) as [Hc1 Hr1]. eauto.
Qed.

(** X23: the worker of DoWork and of DoWorkWithContext handles the strings
    in the order they were sent, none twice and none skipped: at every
    moment the strings processed, then the one being processed, then the
    ones waiting in the channel are exactly the strings sent so far. *)
Theorem DoWork_keeps_order (input : chan string) (sig : DoWork.signal) tr st :
  (DoWork.run tr (DoWork.DoWork input sig) = Some st \/
   DoWork.run tr (DoWork.DoWorkWithContext sig input) = Some st) ->
  DoWork.processed st ++ DoWork.in_hand st ++ buf (DoWork.strings st)
  = buf input ++ DoWork.sent tr /\
  DoWork.processed st `prefix_of` buf input ++ DoWork.sent tr.
Proof.
  intros H.
  assert (Hrun : DoWork.run tr (DoWork.DoWork input sig) = Some st) by (by destruct H).
  pose proof (dowork_run_order _ _ _ Hrun) as Ho. simpl in Ho.
  split; [done|]. rewrite <- Ho. by apply prefix_app_r.
Qed.

(** X24: what the closing of the completion channel means.  It is closed
    exactly when the goroutine has returned, and the goroutine returns
    only on the cancellation signal or on a closed and empty input.  So
    when the channel is closed and no cancellation was signalled (always
    so with a nil done channel), the input is closed and every string
    sent has been processed, in order. *)
Theorem DoWork_completed_meaning (input : chan string) (sig : DoWork.signal) tr st :
  (DoWork.run tr (DoWork.DoWork input sig) = Some st \/
   DoWork.run tr (DoWork.DoWorkWithContext sig input) = Some st) ->
  (DoWork.completed st = true <-> DoWork.worker st = DoWork.Returned) /\
  (DoWork.completed st = true ->
   DoWork.done st = DoWork.Fired \/
   (closed (DoWork.strings st) = true /\
    DoWork.processed st = buf input ++ DoWork.sent tr)) /\
  (sig = DoWork.Never -> DoWork.done st = DoWork.Never) /\
  (sig = DoWork.Never -> DoWork.completed st = true ->
   closed (DoWork.strings st) = true /\
   DoWork.processed st = buf input ++ DoWork.sent tr).
Proof.
  intros H.
  assert (Hrun : DoWork.run tr (DoWork.DoWork input sig) = Some st) by (by destruct H).
  clear H.
  destruct (dowork_run_completed _ _ _ Hrun) as [Hc Hr]; [done|done|].
  pose proof (dowork_run_order _ _ _ Hrun) as Ho. simpl in Ho.
  assert (Hdone : DoWork.completed st = true ->
                  DoWork.done st = DoWork.Fired \/
                  (closed (DoWork.strings st) = true /\
                   DoWork.processed st = buf input ++ DoWork.sent tr)).
  { intros Hcomp. apply Hc in Hcomp. destruct (Hr Hcomp) as [?|[Hcl Hb]]; [by left|].
    right. split; [done|]. rewrite <- Ho. unfold DoWork.in_hand.
    by rewrite Hcomp, Hb, !app_nil_r. }
  assert (Hnever : sig = DoWork.Never -> DoWork.done st = DoWork.Never).
  { intros ->. clear -Hrun.
    assert (Hgen : forall tr st0 st1,
               DoWork.run tr st0 = Some st1 -> DoWork.done st0 = DoWork.Never ->
               DoWork.done st1 = DoWork.Never).
    { clear. induction tr as [|a tr IH]; intros st0 st1 H Hd; simpl in H.
      - by simplify_eq.
      - destruct (DoWork.exec a st0) as [st'|] eqn:E; simpl in H; [|done].
        apply (IH _ _ H).
        destruct a as [s b| | |b]; simpl in *; [destruct b as [| | | |p|]; try done|..];
          unfold DoWork.worker_step, chan_recv, chan_send, chan_idle, chan_close in E;
          repeat (simplify_option_eq || case_match); simpl in *; congruence. }
    by apply (Hgen _ _ _ Hrun). }
  split; [done|]. split; [done|]. split; [done|].
  intros Hs Hcomp. destruct (Hdone Hcomp) as [Hf|?]; [|done].
  rewrite (Hnever Hs) in Hf. done.
Qed.

Ltac buffered_cases H :=
  unfold Buffered.exec, Buffered.dispatcher_step, Buffered.child_step,
    Buffered.finish, Buffered.spawn, make_chan, chan_recv, chan_send, chan_idle,
    chan_close in H;
  repeat (simplify_option_eq || case_match).

Ltac buffered_facts :=
  repeat match goal with
         | Hb : _ && _ = true |- _ => apply andb_prop in Hb as [? ?]
         end;
  repeat match goal with
         | He : is_empty ?l = true |- _ =>
             destruct l eqn:?; [clear He | discriminate He]
         end;
  repeat match goal with
         | Hl : ?ws !! ?i = Some ?w |- context [count ?p (<[?i := ?w']> ?ws)] =>
             pose proof (count_insert p _ i w w' Hl); clear Hl; simpl in *
         end.

Lemma buffered_step_balanced a st st' :
  Buffered.exec a st = Some st' ->
  Buffered.balanced st ->
  Buffered.balanced st' /\ Buffered.workers st' = Buffered.workers st.
Proof.
  unfold Buffered.balanced. intros H Hb.
  destruct a as [s b| | |b|i b];
    [destruct b as [| | | |p|]; try (by destruct (Buffered.crashed st))|..];
    buffered_cases H; simpl in *;
    repeat match goal with
           | Hq : Buffered.sem _ = _ |- _ => rewrite Hq in *; simpl in *
           end;
    try (destruct Hb as (B0 & B1 & B2 & B3));
    try (destruct Hb as (B0 & B1 & B2));
    rewrite ?count_app, ?length_app; simpl;
    buffered_facts;
    repeat match goal with
           | Hbuf : buf _ = _ |- _ => rewrite Hbuf in *; simpl in *
           end;
    repeat split; try done; try lia; try congruence;
    try (match goal with
         | B : Buffered.children _ = [] |- _ => rewrite B in *; simpl in *; done
         end).
Qed.

Lemma buffered_run_balanced tr st st' :
  Buffered.run tr st = Some st' ->
  Buffered.balanced st ->
  Buffered.balanced st' /\ Buffered.workers st' = Buffered.workers st.
Proof.
  revert st. induction tr as [|a tr IH]; intros st H Hb; simpl in H.
  - by simplify_eq.
  - destruct (Buffered.exec a st) as [st1|] eqn:E; simpl in H; [|done].
    destruct (buffered_step_balanced _ _ _ E Hb) as [Hb1 Hw1].
    destruct (IH _ H Hb1) as [Hb2 Hw2]. split; [done|congruence].
Qed.

Lemma count_processing_le (cs : list Buffered.cpc) :
  (count Buffered.is_processing cs <= count Buffered.holds_slot cs)%nat.
Proof. induction cs as [|c cs IH]; simpl; [lia|]. destruct c; simpl; lia. Qed.

(** X25: the semaphore of DoWorkBuffered bounds the parallelism.  At every
    moment the number of running calls of processor is at most the number
    of slots taken, which is at most workers; the slots taken are exactly
    the goroutines that have not released theirs. *)
Theorem DoWorkBuffered_bound (input : chan string) (sig : DoWork.signal) (n : Z) tr st :
  Buffered.run tr (Buffered.DoWorkBuffered input sig n) = Some st ->
  Z.of_nat (count Buffered.is_processing (Buffered.children st)) <= Z.max n 0 /\
  (forall c, Buffered.sem st = Some c ->
     count Buffered.holds_slot (Buffered.children st) = length (buf c) /\
     cap c = n /\ Z.of_nat (length (buf c)) <= n).
Proof.
  intros Hrun.
  destruct (buffered_run_balanced _ _ _ Hrun) as [Hb Hw]; [by repeat split|].
  simpl in Hw. unfold Buffered.balanced in Hb.
  pose proof (count_processing_le (Buffered.children st)) as Hle.
  destruct (Buffered.sem st) as [c|].
  - destruct Hb as (_ & B1 & B2 & B3). split; [lia|].
    intros c' Hc. simplify_eq. repeat split; try done; lia.
  - destruct Hb as (_ & B1 & _). rewrite B1 in *. simpl in *. split; [lia|done].
Qed.

Lemma buffered_step_idle a st st' :
  Buffered.exec a st = Some st' ->
  Buffered.balanced st ->
  Buffered.workers st <= 0 ->
  Buffered.children st = [] -> Buffered.processed st = [] ->
  Buffered.children st' = [] /\ Buffered.processed st' = [].
Proof.
  unfold Buffered.balanced. intros H Hb Hw Hc Hp.
  destruct a as [s b| | |b|i b];
    [destruct b as [| | | |p|]; try (by destruct (Buffered.crashed st))|..];
    buffered_cases H; simpl in *;
    repeat match goal with
           | Hq : Buffered.sem _ = _ |- _ => rewrite Hq in *; simpl in *
           end;
    try (destruct Hb as (B0 & B1 & B2 & B3));
    try (destruct Hb as (B0 & B1 & B2));
    try (rewrite Hc in *; simpl in *);
    try done; try lia.
Qed.

(** X26: with workers <= 0 DoWorkBuffered processes nothing.  With
    workers = 0 no slot can ever be taken, so no string sent is ever handed
    to processor; with workers < 0 making the semaphore panics: the deferred
    close of the completion channel runs and the program dies. *)
Theorem DoWorkBuffered_no_workers (input : chan string) (sig : DoWork.signal) (n : Z)
    tr st :
  n <= 0 ->
  Buffered.run tr (Buffered.DoWorkBuffered input sig n) = Some st ->
  Buffered.processed st = [] /\ Buffered.children st = [] /\
  (n < 0 ->
   Buffered.exec (Buffered.ADispatcher BRun) (Buffered.DoWorkBuffered input sig n)
   = Some (Buffered.mkState input sig n None Buffered.DStart [] [] true true)).
Proof.
  intros Hn Hrun.
  assert (Hinv : forall tr st0 st1,
             Buffered.run tr st0 = Some st1 ->
             Buffered.balanced st0 -> Buffered.workers st0 <= 0 ->
             Buffered.children st0 = [] -> Buffered.processed st0 = [] ->
             Buffered.children st1 = [] /\ Buffered.processed st1 = []).
  { clear. induction tr as [|a tr IH]; intros st0 st1 H Hb Hw Hc Hp; simpl in H.
    - by simplify_eq.
    - destruct (Buffered.exec a st0) as [st'|] eqn:E; simpl in H; [|done].
      destruct (buffered_step_balanced _ _ _ E Hb) as [Hb1 Hw1].
      destruct (buffered_step_idle _ _ _ E Hb Hw Hc Hp) as [Hc1 Hp1].
      apply (IH _ _ H Hb1); [lia|done|done]. }
  destruct (Hinv _ _ _ Hrun) as [Hc Hp]; try done.
  repeat split; try done.
  intros Hneg. unfold Buffered.exec, Buffered.dispatcher_step, make_chan. simpl.
  by destruct (Z.ltb_spec n 0); [|lia].
Qed.

Section OrDoneFacts.
Context {V : Type}.

#[local] Abbreviation ostate := (OrDone.state (V:=V)).

Ltac ordone_cases H :=
  unfold OrDone.exec, OrDone.worker_step, OrDone.finish, chan_recv, chan_send,
    chan_idle, chan_close in H;
  repeat (simplify_option_eq || case_match);
  repeat match goal with
         | Hb : _ && _ = true |- _ => apply andb_prop in Hb as [? ?]
         end;
  repeat match goal with
         | He : is_empty ?l = true |- _ =>
             destruct l eqn:?; [clear He | discriminate He]
         end.

Lemma ordone_step_order a (st st' : ostate) all :
  OrDone.exec a st = Some st' ->
  OrDone.kept_order all st ->
  OrDone.kept_order (all ++ OrDone.sent [a]) st'.
Proof.
  unfold OrDone.kept_order, OrDone.in_hand.
  intros H (recv & Hall & Hsub & Hnf).
  destruct a as [v b| | |b]; [destruct b as [| | | |p|]; try done|..];
    ordone_cases H; simpl in *;
    repeat match goal with
           | Hb : buf _ = _ |- _ => rewrite Hb in *; simpl in *
           end;
    rewrite ?app_nil_r in *.
  all: first
    [ exists recv; split; [by rewrite <- ?app_assoc, ?app_nil_r|];
      split; [done|]; first [exact Hnf | by intros Hx]
    | exists (recv ++ [v]); split; [by rewrite <- app_assoc|];
      split; [by apply sublist_inserts_r | by intros Hx]
    | exists (recv ++ [v]); split; [by rewrite <- app_assoc|];
      split; [by apply sublist_app|];
      intros Hx; destruct (Hnf Hx) as [-> ->]; done ].
Qed.

Lemma ordone_sent_app (tr1 tr2 : list (OrDone.action (V:=V))) :
  OrDone.sent (tr1 ++ tr2) = OrDone.sent tr1 ++ OrDone.sent tr2.
Proof.
  induction tr1 as [|a tr1 IH]; [done|]. destruct a; simpl; by rewrite ?IH.
Qed.

Lemma ordone_run_order tr (st st' : ostate) all :
  OrDone.run tr st = Some st' ->
  OrDone.kept_order all st ->
  OrDone.kept_order (all ++ OrDone.sent tr) st'.
Proof.
  revert st all. induction tr as [|a tr IH]; intros st all H Hk; simpl in H.
  - simplify_eq. simpl. by rewrite app_nil_r.
  - destruct (OrDone.exec a st) as [st1|] eqn:E; simpl in H; [|done].
    change (a :: tr) with ([a] ++ tr). rewrite ordone_sent_app, app_assoc.
    eapply IH; [exact H|]. by eapply ordone_step_order.
Qed.

Lemma ordone_step_closed a (st st' : ostate) :
  OrDone.exec a st = Some st' -> OrDone.closed_late st -> OrDone.closed_late st'.
Proof.
  unfold OrDone.closed_late. intros H [Hc Hr].
  destruct a as [v b| | |b]; [destruct b as [| | | |p|]; try done|..];
    ordone_cases H; simpl in *; naive_solver.
Qed.

Lemma ordone_run_closed tr (st st' : ostate) :
  OrDone.run tr st = Some st' -> OrDone.closed_late st -> OrDone.closed_late st'.
Proof.
  revert st. induction tr as [|a tr IH]; intros st H Hk; simpl in H.
  - by simplify_eq.
  - destruct (OrDone.exec a st) as [st1|] eqn:E; simpl in H; [|done].
    eauto using ordone_step_closed.
Qed.

(** X27: orDone forwards in order.  The values read from its output are a
    subsequence of the values put into the input, in the same order, none
    twice.  As long as done has not been signalled none is given up: the
    values forwarded, the one held and the ones waiting in the input are
    exactly the values put in. *)
Theorem orDone_forwards_in_order (input : chan V) (sig : DoWork.signal) tr (st : ostate) :
  OrDone.run tr (OrDone.orDone sig input) = Some st ->
  OrDone.forwarded st `sublist_of` buf input ++ OrDone.sent tr /\
  (OrDone.done st <> DoWork.Fired ->
   OrDone.dropped st = [] /\
   OrDone.forwarded st ++ OrDone.in_hand st ++ buf (OrDone.c st)
   = buf input ++ OrDone.sent tr).
Proof.
  intros Hrun.
  destruct (ordone_run_order _ _ _ (buf input) Hrun) as (recv & Hall & Hsub & Hnf).
  { exists []. by repeat split. }
  split.
  - rewrite <- Hall. by apply sublist_inserts_r.
  - intros Hd. destruct (Hnf Hd) as [Hdrop Hfw]. split; [done|]. by rewrite Hfw.
Qed.

(** X28: when orDone closes its output.  The output is closed exactly when
    the goroutine has returned; if done was not signalled by then, the
    input is closed and every value put into it has been forwarded. *)
Theorem orDone_closes_output (input : chan V) (sig : DoWork.signal) tr (st : ostate) :
  OrDone.run tr (OrDone.orDone sig input) = Some st ->
  (OrDone.out_closed st = true <-> OrDone.worker st = OrDone.Returned) /\
  (OrDone.out_closed st = true -> OrDone.done st <> DoWork.Fired ->
   closed (OrDone.c st) = true /\
   OrDone.forwarded st = buf input ++ OrDone.sent tr).
Proof.
  intros Hrun.
  destruct (ordone_run_closed _ _ _ Hrun) as [Hc Hr]; [by repeat split|].
  destruct (ordone_run_order _ _ _ (buf input) Hrun) as (recv & Hall & _ & Hnf).
  { exists []. by repeat split. }
  split; [done|]. intros Hout Hd.
  apply Hc in Hout. destruct (Hr Hout Hd) as [Hcl Hb]. split; [done|].
  destruct (Hnf Hd) as [_ Hfw]. unfold OrDone.in_hand in Hall.
  by rewrite Hout, Hb, !app_nil_r, <- Hfw in Hall.
Qed.
End OrDoneFacts.

(** ** Bridge *)

Section BridgeFacts.
Context {V : Type}.
#[local] Abbreviation bstate := (Bridge.state (V:=V)).

Ltac bridge_cases H :=
  unfold Bridge.exec, Bridge.bridge_step, Bridge.inner_step, Bridge.take,
    Bridge.finish, chan_send, chan_recv, chan_close in H;
  repeat (simplify_option_eq || case_match).

Lemma joined_snoc (ps : list (nat * list V)) k vs :
  Bridge.joined (ps ++ [(k, vs)]) = Bridge.joined ps ++ vs.
Proof.
  unfold Bridge.joined. rewrite fmap_app, join_app. simpl. by rewrite app_nil_r.
Qed.

Lemma got_from_app k (ps qs : list (nat * list V)) :
  Bridge.got_from k (ps ++ qs) = Bridge.got_from k ps ++ Bridge.got_from k qs.
Proof.
  induction ps as [|[k' vs] ps IH]; simpl; [done|]. by rewrite IH, app_assoc.
Qed.

Lemma bridge_put_app (tr1 tr2 : list (Bridge.action (V:=V))) :
  Bridge.put (tr1 ++ tr2) = Bridge.put tr1 ++ Bridge.put tr2.
Proof.
  induction tr1 as [|a tr1 IH]; simpl; [done|]. destruct a; simpl; by rewrite ?IH.
Qed.

Lemma bridge_step_done a (st st' : bstate) :
  Bridge.exec a st = Some st' ->
  Bridge.done st' <> DoWork.Fired -> Bridge.done st = Bridge.done st'.
Proof.
  intros H Hd. destruct a; bridge_cases H; simpl in *; try done.
Qed.

Ltac bridge_facts :=
  repeat match goal with
         | H : chan_idle _ = true |- _ => unfold chan_idle in H
         | H : _ && _ = true |- _ => apply andb_true_iff in H; destruct H
         | H : negb _ = true |- _ => apply negb_true_iff in H
         | H : is_empty ?l = true |- _ => destruct l eqn:?; [clear H|discriminate H]
         | H : is_empty ?l = false |- _ => destruct l eqn:?; [discriminate H|clear H]
         end.

Ltac bridge_prop :=
  repeat match goal with
         | |- _ /\ _ => split
         | |- _ <-> _ => split
         | |- _ -> _ => intro
         end;
  repeat match goal with
         | Hr : ?x = ?x -> _ |- _ => specialize (Hr eq_refl)
         | Hr : ?A -> ?B -> _, Ha : ?A, Hb : ?B |- _ => specialize (Hr Ha Hb)
         | Hr : ?A -> _, Ha : ?A |- _ => specialize (Hr Ha)
         | H : _ /\ _ |- _ => destruct H
         | H : _ <-> _ |- _ => destruct H
         end;
  try done; try congruence; auto.

Lemma bridge_step_shaped a (st st' : bstate) :
  Bridge.exec a st = Some st' -> Bridge.shaped st -> Bridge.shaped st'.
Proof.
  unfold Bridge.shaped, Bridge.idle.
  intros H (Hs & Hc & Hr).
  destruct a; bridge_cases H; bridge_facts; simpl in *; bridge_prop.
Qed.

Lemma got_from_snoc k (ps : list (nat * list V)) j vs :
  Bridge.got_from k (ps ++ [(j, vs)])
  = Bridge.got_from k ps ++ (if decide (j = k) then vs else []).
Proof. rewrite got_from_app. simpl. by rewrite app_nil_r. Qed.

Lemma bridge_step_taken a (st st' : bstate) :
  Bridge.exec a st = Some st' ->
  (Bridge.passes st').*1 ++ buf (Bridge.chanStream st')
  = (Bridge.passes st).*1 ++ buf (Bridge.chanStream st) ++ Bridge.put [a].
Proof.
  intros H.
  destruct a; bridge_cases H; bridge_facts; unfold Bridge.passes; simpl in *;
    repeat match goal with
           | Hi : Bridge.inner _ = _ |- _ => rewrite Hi in *; simpl in *
           | Hb : buf _ = _ |- _ => rewrite Hb in *; simpl in *
           end;
    rewrite ?fmap_app, ?app_nil_r, <- ?app_assoc; simpl; try done.
Qed.

Ltac bridge_norm :=
  unfold Bridge.passes, Bridge.in_hand, Bridge.idle in *; simpl in *;
  repeat match goal with
         | c : Bridge.call |- _ => destruct c as [? [] ?]; simpl in *
         end;
  repeat match goal with
         | Hi : Bridge.inner _ = _ |- _ => rewrite Hi in *; simpl in *
         | Hb : Bridge.bridge _ = _ |- _ => rewrite Hb in *; simpl in *
         end;
  simplify_eq.

Ltac bridge_sublist :=
  repeat first
    [ reflexivity
    | apply sublist_app; [reflexivity|]
    | apply sublist_inserts_r
    | apply sublist_cons
    | apply sublist_nil_l ].

Lemma bridge_step_out a (st st' : bstate) :
  Bridge.exec a st = Some st' ->
  Bridge.shaped st ->
  exists new,
    Bridge.joined (Bridge.passes st') = Bridge.joined (Bridge.passes st) ++ new /\
    Bridge.out st' ++ Bridge.in_hand st'
      `sublist_of` (Bridge.out st ++ Bridge.in_hand st) ++ new /\
    (Bridge.done st' <> DoWork.Fired ->
     Bridge.out st' ++ Bridge.in_hand st' = (Bridge.out st ++ Bridge.in_hand st) ++ new).
Proof.
  intros H (Hs & _ & _).
  destruct a; bridge_cases H; bridge_facts; bridge_norm;
    try (specialize (Hs eq_refl); discriminate Hs);
    first
      [ exists []; split; [by rewrite ?joined_snoc, ?app_nil_r|]
      | eexists [_]; split;
        [rewrite ?joined_snoc, ?app_assoc; reflexivity|] ];
    rewrite ?app_nil_r, <- ?app_assoc; simpl.
  all: try (split; [reflexivity|done]).
  all: try (split; [bridge_sublist|done]).
  all: destruct (Bridge.inner st) as [[? [] ?]|]; simpl in *;
    try (specialize (Hs eq_refl); discriminate Hs);
    rewrite ?app_nil_r; (split; [reflexivity|done]).
Qed.

Lemma bridge_sent_to_app k (tr1 tr2 : list (Bridge.action (V:=V))) :
  Bridge.sent_to k (tr1 ++ tr2) = Bridge.sent_to k tr1 ++ Bridge.sent_to k tr2.
Proof.
  induction tr1 as [|a tr1 IH]; simpl; [done|].
  destruct a; simpl; rewrite ?IH; try done. by destruct (decide _).
Qed.

Lemma bridge_step_streams a (st st' : bstate) k s' :
  Bridge.exec a st = Some st' ->
  Bridge.streams st' !! k = Some s' ->
  exists s,
    Bridge.streams st !! k = Some s /\
    Bridge.got_from k (Bridge.passes st') ++ buf s'
    = Bridge.got_from k (Bridge.passes st) ++ buf s ++ Bridge.sent_to k [a].
Proof.
  intros H Hk.
  destruct a; bridge_cases H; bridge_facts; bridge_norm;
    repeat match goal with
           | Hl : <[_ := _]> _ !! _ = Some _ |- _ =>
               apply list_lookup_insert_Some in Hl;
               destruct Hl as [(? & ? & _)|[? Hl]]; simplify_eq
           end;
    simplify_eq.
  all: try (eexists; (split; [first [eassumption|reflexivity]|]);
    rewrite ?got_from_snoc, ?got_from_app; simpl;
    repeat case_match; simplify_eq; simpl;
    rewrite ?app_nil_r, <- ?app_assoc; simpl;
    repeat match goal with
           | Hb : buf _ = _ |- _ => rewrite Hb in *; simpl in *
           end;
    rewrite ?app_nil_r, <- ?app_assoc; simpl; done).
Qed.

Lemma bridge_step_drained a (st st' : bstate) i :
  Bridge.exec a st = Some st' -> Bridge.drained st i -> Bridge.drained st' i.
Proof.
  unfold Bridge.drained. intros H (s & Hs & Hc & Hb).
  destruct a; bridge_cases H; bridge_facts; simpl in *;
    try (by exists s).
  all: match goal with
       | |- context [<[?j := _]> _ !! ?i'] =>
           destruct (decide (j = i')) as [Heq|Hne];
           [rewrite ?Heq in *; simplify_eq; simpl in *; congruence
           |exists s; by rewrite list_lookup_insert_ne]
       end.
Qed.

Lemma bridge_step_past a (st st' : bstate) :
  Bridge.exec a st = Some st' ->
  Bridge.past st' = Bridge.past st \/
  (Bridge.past st' = Bridge.passes st /\ Bridge.bridge st = Bridge.BSelect).
Proof.
  intros H. destruct a; bridge_cases H; bridge_facts; simpl in *; auto.
Qed.

Lemma bridge_step_inner a (st st' : bstate) c :
  Bridge.exec a st = Some st' ->
  Bridge.inner st' = Some c ->
  Bridge.at_ c = OrDone.Returned ->
  Bridge.inner st = Some c \/
  Bridge.done st' = DoWork.Fired \/
  (Bridge.streams st' = Bridge.streams st /\
   exists s, Bridge.streams st !! Bridge.stream c = Some s /\
             closed s = true /\ buf s = []).
Proof.
  intros H Hi Hr.
  destruct a; bridge_cases H; bridge_facts; simpl in *; simplify_eq; simpl in *;
    auto; try discriminate.
  all: right; right; split; [done|]; eexists; split; [eassumption|done].
Qed.

Lemma bridge_step_settled a (st st' : bstate) :
  Bridge.exec a st = Some st' ->
  Bridge.shaped st -> Bridge.settled st -> Bridge.settled st'.
Proof.
  intros H (Hs & _ & _) Hst Hd'.
  assert (Hd : Bridge.done st <> DoWork.Fired)
    by (by rewrite (bridge_step_done _ _ _ H Hd')).
  destruct (Hst Hd) as [Hpast Hin].
  assert (Hlift : forall k, Bridge.drained st k -> Bridge.drained st' k)
    by (intros k; by apply bridge_step_drained with a).
  split.
  - destruct (bridge_step_past _ _ _ H) as [-> | [-> Hb]].
    + eapply Forall_impl; [exact Hpast|]. intros p. apply Hlift.
    + unfold Bridge.passes. apply Forall_app. split.
      * eapply Forall_impl; [exact Hpast|]. intros p. apply Hlift.
      * specialize (Hs Hb). unfold Bridge.idle in Hs.
        destruct (Bridge.inner st) as [c|] eqn:E; [|constructor].
        repeat constructor. simpl. apply Hlift. by apply Hin.
  - intros c Hc Hr.
    destruct (bridge_step_inner _ _ _ _ H Hc Hr) as [Hi | [Hf | (Hss & s & Hl & Hcl & Hb)]].
    + apply Hlift. by apply Hin.
    + done.
    + exists s. by rewrite Hss.
Qed.

(** What a run from [st0] keeps. *)
Lemma bridge_run_facts tr (st0 st : bstate) :
  Bridge.run tr st0 = Some st ->
  Bridge.shaped st0 -> Bridge.settled st0 ->
  Bridge.shaped st /\ Bridge.settled st /\
  (Bridge.done st <> DoWork.Fired -> Bridge.done st0 = Bridge.done st) /\
  (Bridge.passes st).*1 ++ buf (Bridge.chanStream st)
  = (Bridge.passes st0).*1 ++ buf (Bridge.chanStream st0) ++ Bridge.put tr /\
  (forall k s', Bridge.streams st !! k = Some s' ->
     exists s, Bridge.streams st0 !! k = Some s /\
       Bridge.got_from k (Bridge.passes st) ++ buf s'
       = Bridge.got_from k (Bridge.passes st0) ++ buf s ++ Bridge.sent_to k tr) /\
  exists new,
    Bridge.joined (Bridge.passes st) = Bridge.joined (Bridge.passes st0) ++ new /\
    Bridge.out st ++ Bridge.in_hand st
      `sublist_of` (Bridge.out st0 ++ Bridge.in_hand st0) ++ new /\
    (Bridge.done st <> DoWork.Fired ->
     Bridge.out st ++ Bridge.in_hand st
     = (Bridge.out st0 ++ Bridge.in_hand st0) ++ new).
Proof.
  revert st0. induction tr as [|a tr IH]; intros st0 H Hsh Hst.
  - simpl in H. simplify_eq. simpl.
    split; [done|]. split; [done|]. split; [done|].
    split; [by rewrite app_nil_r|]. split.
    + intros k s' Hk. exists s'. by rewrite app_nil_r.
    + exists []. by rewrite !app_nil_r.
  - simpl in H. destruct (Bridge.exec a st0) as [st1|] eqn:E; simpl in H; [|done].
    pose proof (bridge_step_shaped _ _ _ E Hsh) as Hsh1.
    pose proof (bridge_step_settled _ _ _ E Hsh Hst) as Hst1.
    destruct (IH _ H Hsh1 Hst1) as (I1 & I2 & I3 & I4 & I5 & new2 & J1 & J2 & J3).
    destruct (bridge_step_out _ _ _ E Hsh) as (new1 & K1 & K2 & K3).
    assert (Hdone : Bridge.done st <> DoWork.Fired -> Bridge.done st1 <> DoWork.Fired)
      by (intros Hd; by rewrite (I3 Hd)).
    split; [done|]. split; [done|]. split.
    { intros Hd. rewrite <- (I3 Hd). apply (bridge_step_done _ _ _ E), Hdone, Hd. }
    split.
    { rewrite I4, app_assoc, (bridge_step_taken _ _ _ E).
      change (a :: tr) with ([a] ++ tr). by rewrite bridge_put_app, <- !app_assoc. }
    split.
    { intros k s' Hk. destruct (I5 _ _ Hk) as (s1 & Hk1 & Heq1).
      destruct (bridge_step_streams _ _ _ _ _ E Hk1) as (s0 & Hk0 & Heq0).
      exists s0. split; [done|].
      change (a :: tr) with ([a] ++ tr).
      rewrite Heq1, bridge_sent_to_app, !app_assoc, Heq0. by rewrite <- !app_assoc. }
    exists (new1 ++ new2). split; [by rewrite J1, K1, app_assoc|]. split.
    + etrans; [exact J2|]. rewrite (app_assoc _ new1 new2).
      by apply sublist_app.
    + intros Hd. rewrite (J3 Hd), (K3 (Hdone Hd)). by rewrite <- !app_assoc.
Qed.

Lemma got_from_notin k (ps : list (nat * list V)) :
  k ∉ ps.*1 -> Bridge.got_from k ps = [].
Proof.
  induction ps as [|[k' vs] ps IH]; simpl; [done|].
  intros Hn. apply not_elem_of_cons in Hn as [Hne Hn].
  destruct (decide (k' = k)); [congruence|]. by apply IH.
Qed.

Lemma joined_by_stream (ps : list (nat * list V)) :
  NoDup ps.*1 ->
  Bridge.joined ps = mjoin ((fun k => Bridge.got_from k ps) <$> ps.*1).
Proof.
  induction ps as [|[k vs] ps IH]; [done|].
  intros Hnd. apply NoDup_cons in Hnd as [Hk Hnd]. simpl in Hk.
  change (vs ++ Bridge.joined ps
          = Bridge.got_from k ((k, vs) :: ps)
            ++ mjoin ((fun k0 => Bridge.got_from k0 ((k, vs) :: ps)) <$> ps.*1)).
  assert (Hhead : Bridge.got_from k ((k, vs) :: ps) = vs).
  { simpl. destruct (decide (k = k)); [|done].
    by rewrite (got_from_notin _ _ Hk), app_nil_r. }
  rewrite Hhead, (IH Hnd). f_equal. f_equal.
  apply Forall_fmap_ext, Forall_forall. intros k' Hk'. simpl.
  destruct (decide (k = k')); [by subst|done].
Qed.

Lemma bridge_initial sig (cs : chan nat) (ss : list (chan V)) :
  Bridge.shaped (Bridge.Bridge sig cs ss) /\ Bridge.settled (Bridge.Bridge sig cs ss).
Proof.
  split.
  - split; [done|]. split; [done|]. simpl. done.
  - intros _. split; [constructor|]. simpl. done.
Qed.

(** X29: Bridge reads one stream after the other.  The streams are taken
    in the order they were put on chanStream; from each stream the values
    are received in the order they were sent, none twice; what is read
    from the output is a subsequence of the values received, pass after
    pass.  As long as done has not been signalled nothing is given up, and
    Bridge has left a stream only when it was closed and empty. *)
Theorem Bridge_keeps_order (sig : DoWork.signal) (cs : chan nat) (ss : list (chan V))
    tr (st : bstate) :
  Bridge.run tr (Bridge.Bridge sig cs ss) = Some st ->
  (Bridge.passes st).*1 ++ buf (Bridge.chanStream st) = buf cs ++ Bridge.put tr /\
  (forall k s, Bridge.streams st !! k = Some s ->
     exists s0, ss !! k = Some s0 /\
       Bridge.got_from k (Bridge.passes st) ++ buf s = buf s0 ++ Bridge.sent_to k tr) /\
  Bridge.out st `sublist_of` Bridge.joined (Bridge.passes st) /\
  (Bridge.done st <> DoWork.Fired ->
   Bridge.out st ++ Bridge.in_hand st = Bridge.joined (Bridge.passes st) /\
   Forall (fun p => Bridge.drained st p.1) (Bridge.past st)).
Proof.
  intros Hrun. destruct (bridge_initial sig cs ss) as [Hsh Hst].
  destruct (bridge_run_facts _ _ _ Hrun Hsh Hst)
    as (_ & Hst' & _ & Htaken & Hstreams & new & Hj & Hsub & Heq).
  simpl in *. split; [done|]. split; [done|]. split.
  - rewrite Hj. simpl. etrans; [|exact Hsub]. by apply sublist_inserts_r.
  - intros Hd. split; [by rewrite Hj, (Heq Hd)|]. by destruct (Hst' Hd).
Qed.

(** X30: Bridge flattens the streams.  When the output is closed and done
    was never signalled, and no stream was put on chanStream twice, the
    values read from the output are exactly the contents of the streams,
    one stream after the other in the order the streams were put on
    chanStream, each in the order its values were sent; chanStream and
    every one of these streams is closed by then. *)
Theorem Bridge_flattens (sig : DoWork.signal) (cs : chan nat) (ss : list (chan V))
    tr (st : bstate) :
  Bridge.run tr (Bridge.Bridge sig cs ss) = Some st ->
  Bridge.out_closed st = true ->
  Bridge.done st <> DoWork.Fired ->
  NoDup (buf cs ++ Bridge.put tr) ->
  Bridge.out st = mjoin (Bridge.content ss tr <$> (buf cs ++ Bridge.put tr)) /\
  closed (Bridge.chanStream st) = true /\
  Forall (Bridge.drained st) (buf cs ++ Bridge.put tr).
Proof.
  intros Hrun Hout Hd Hnd. destruct (bridge_initial sig cs ss) as [Hsh Hst].
  destruct (bridge_run_facts _ _ _ Hrun Hsh Hst)
    as ((_ & Hc & Hr) & Hst' & _ & Htaken & Hstreams & new & Hj & _ & Heq).
  simpl in *.
  apply Hc in Hout. destruct (Hr Hout Hd) as (Hidle & Hcl & Hbuf).
  destruct (Hst' Hd) as [Hpast Hin].
  rewrite Hbuf, app_nil_r in Htaken. rewrite <- Htaken in *.
  assert (Hall : Forall (Bridge.drained st) (Bridge.passes st).*1).
  { unfold Bridge.passes. rewrite fmap_app. apply Forall_app. split.
    - apply Forall_fmap. exact Hpast.
    - unfold Bridge.idle in Hidle. destruct (Bridge.inner st) as [c|]; [|constructor].
      repeat constructor. simpl. by apply Hin. }
  split; [|done].
  assert (Hhand : Bridge.in_hand st = []).
  { unfold Bridge.in_hand, Bridge.idle in *. rewrite Hout.
    destruct (Bridge.inner st) as [[? [] ?]|]; simpl in *; done. }
  specialize (Heq Hd). rewrite Hhand, app_nil_r in Heq. rewrite Heq, <- Hj.
  rewrite (joined_by_stream _ Hnd). f_equal.
  apply Forall_fmap_ext. eapply Forall_impl; [exact Hall|].
  intros k (s & Hk & _ & Hb). simpl.
  destruct (Hstreams _ _ Hk) as (s0 & Hk0 & Hgot).
  unfold Bridge.content. by rewrite Hk0, <- Hgot, Hb, app_nil_r.
Qed.
End BridgeFacts.

(** ** The further pool theorems at work *)

Lemma SubmitWait_after_cancel_witness :
  exec 0 double (AClient 0 BRun) cancelled_call
  = Some ([], set_client 0 (SW_ret 0 (Some Canceled)) cancelled_call) /\
  run 0 double [ASubmit 3 BBuf; AStart; AWorker 0 BDone]
    (set_client 0 (SW_ret 0 (Some Canceled)) cancelled_call)
  = Some ([EvSubmit 3 (Some true)],
          mkSystem (mkPool (mkChan [3] 10 false) (mkChan [] 10 false) 0
                      (Some Canceled) 1)
            [WExit] [SW_ret 0 (Some Canceled)] false) /\
  pool (set_client 0 (SW_ret 0 (Some Canceled)) cancelled_call) = pool cancelled_call.
Proof.
  assert (H1 : exec 0 double (AClient 0 BRun) cancelled_call
               = Some ([], set_client 0 (SW_ret 0 (Some Canceled)) cancelled_call))
    by (vm_compute; reflexivity).
  assert (H2 : run 0 double [ASubmit 3 BBuf; AStart; AWorker 0 BDone]
                 (set_client 0 (SW_ret 0 (Some Canceled)) cancelled_call)
               = Some ([EvSubmit 3 (Some true)],
                       mkSystem (mkPool (mkChan [3] 10 false) (mkChan [] 10 false) 0
                                   (Some Canceled) 1)
                         [WExit] [SW_ret 0 (Some Canceled)] false))
    by (vm_compute; reflexivity).
  destruct (SubmitWait_after_cancel 0 double cancelled_call _ 0 1 Canceled BRun []
              eq_refl eq_refl eq_refl H1) as (_ & _ & _ & _ & Hstay).
  pose proof (Hstay _ _ _ H2) as Hc.
  split; [exact H1|]. split; [exact H2|]. reflexivity.
Defined.

Lemma SubmitWait_hangs_on_closed_stream_witness :
  exec 0 double (AClient 0 BClosed) awaiting = Some ([], set_client 0 SW_hung awaiting) /\
  exec 0 double (AClient 0 BRun) (set_client 0 SW_hung awaiting) = None.
Proof.
  destruct (SubmitWait_hangs_on_closed_stream 0 double awaiting 0
              eq_refl eq_refl eq_refl eq_refl) as (Hstep & _ & Hstuck).
  split; [exact Hstep|].
  destruct (exec 0 double (AClient 0 BRun) (set_client 0 SW_hung awaiting))
    as [[ev s']|] eqn:E; [|reflexivity].
  destruct (Hstuck BRun ev s' E).
Defined.

Lemma Submit_on_closed_queue_witness :
  Submit 9 BClosed shut_down = Some (None, crash shut_down) /\
  Submit 9 BDone shut_down = Some (Some false, shut_down) /\
  Submit 9 BBuf shut_down = None.
Proof.
  destruct (Submit_on_closed_queue shut_down 9 eq_refl) as [Hpanic _].
  split; [exact Hpanic|]. split; vm_compute; reflexivity.
Defined.

Lemma closed_queue_drains_witness :
  run 0 double [ASubmit 9 BDone; AReceive BClosed] shut_down
  = Some ([EvSubmit 9 (Some false); EvResult None], shut_down) /\
  Forall (fun e : event (T:=Z) (R:=Z) => is_accept e = false)
    [EvSubmit 9 (Some false); EvResult None].
Proof.
  assert (H : run 0 double [ASubmit 9 BDone; AReceive BClosed] shut_down
              = Some ([EvSubmit 9 (Some false); EvResult None], shut_down))
    by (vm_compute; reflexivity).
  destruct (closed_queue_drains 0 double _ shut_down _ _ eq_refl H) as (_ & _ & Hno).
  split; [exact H|exact Hno].
Defined.

Lemma buffers_bounded_witness :
  NewWorkerPool 1 None 2 = Some pool2 /\
  run 0 double fill_queue (boot pool2)
  = Some ([EvSubmit 1 (Some true); EvSubmit 2 (Some true)], after double fill_queue) /\
  Z.of_nat (length (buf (taskChan (pool (after double fill_queue))))) = 2 /\
  Submit 3 BBuf (after double fill_queue) = None.
Proof.
  assert (H1 : NewWorkerPool (T:=Z) (R:=Z) 1 None 2 = Some pool2)
    by (vm_compute; reflexivity).
  assert (H2 : run 0 double fill_queue (boot pool2)
               = Some ([EvSubmit 1 (Some true); EvSubmit 2 (Some true)],
                       after double fill_queue))
    by (vm_compute; reflexivity).
  assert (H3 : Z.of_nat (length (buf (taskChan (pool (after double fill_queue))))) = 2)
    by (vm_compute; reflexivity).
  destruct (buffers_bounded 0 double 1 None 2 pool2 _ _ _ H1 H2)
    as (_ & _ & _ & _ & _ & Hfull).
  split; [exact H1|]. split; [exact H2|]. split; [exact H3|].
  exact (Hfull H3 3).
Defined.

Lemma accepted_tasks_accounted_witness :
  NewWorkerPool 1 None 2 = Some pool2 /\
  run 0 double drain_trace (boot pool2) = Some (drain_events, after double drain_trace) /\
  count is_accept drain_events = 2%nat /\
  count is_delivery drain_events = 1%nat /\
  load (after double drain_trace) = 0%nat /\
  losses 0%Z double drain_trace (boot pool2) = 1%nat /\
  count is_accept drain_events
  = (count is_delivery drain_events + load (after double drain_trace)
     + losses 0%Z double drain_trace (boot pool2))%nat.
Proof.
  assert (H1 : NewWorkerPool (T:=Z) (R:=Z) 1 None 2 = Some pool2)
    by (vm_compute; reflexivity).
  assert (H2 : run 0 double drain_trace (boot pool2)
               = Some (drain_events, after double drain_trace))
    by (vm_compute; reflexivity).
  assert (P : Forall (fun a : action (T:=Z) => is_SubmitWait_call a = false) drain_trace)
    by (repeat constructor).
  destruct (accepted_tasks_accounted 0 double 1 None 2 pool2 _ _ _ H1 P H2) as [Heq _].
  split; [exact H1|]. split; [exact H2|].
  split; [vm_compute; reflexivity|]. split; [vm_compute; reflexivity|].
  split; [vm_compute; reflexivity|]. split; [vm_compute; reflexivity|]. exact Heq.
Defined.

Lemma worker_exit_reasons_witness :
  exec 0 double (AWorker 0 BDone) (busy (Some Canceled) WSelect [])
  = Some ([], worker_exit 0 (busy (Some Canceled) WSelect [])) /\
  ctx (pool (busy (Some Canceled) WSelect [])) <> None.
Proof.
  assert (H : exec 0 double (AWorker 0 BDone) (busy (Some Canceled) WSelect [])
              = Some ([], worker_exit 0 (busy (Some Canceled) WSelect [])))
    by (vm_compute; reflexivity).
  destruct (worker_exit_reasons 0 double _ _ _ _ 0 WSelect H eq_refl eq_refl eq_refl)
    as [_ [[_ Hc]|[Ha _]]].
  - split; [exact H|exact Hc].
  - discriminate Ha.
Defined.

Lemma shutdown_postconditions_witness :
  NewWorkerPool 1 None 2 = Some pool2 /\
  clients (after double drain_trace) !! 0%nat = Some GS_ret /\
  closed (taskChan (pool (after double drain_trace))) = true /\
  ctx (pool (after double drain_trace)) <> None /\
  closed (resultChan (pool (after double drain_trace))) = true.
Proof.
  assert (H1 : NewWorkerPool (T:=Z) (R:=Z) 1 None 2 = Some pool2)
    by (vm_compute; reflexivity).
  assert (H2 : run 0 double drain_trace (boot pool2)
               = Some (drain_events, after double drain_trace))
    by (vm_compute; reflexivity).
  assert (H3 : clients (after double drain_trace) !! 0%nat = Some GS_ret)
    by (vm_compute; reflexivity).
  destruct (shutdown_postconditions 0 double 1 None 2 pool2 _ _ _ 0 H1 H2)
    as (_ & Hgs & _).
  split; [exact H1|]. split; [exact H3|]. exact (Hgs H3).
Defined.

Lemma GracefulStop_effect_witness :
  reachable 0 double (after double graceful_entered) /\
  (clients (after double graceful_closing) !! 0%nat = Some GS_close1 /\
   closed (taskChan (pool (after double graceful_closing))) = false) /\
  exec 0 double (AClient 0 BRun) (after double graceful_closing)
  = Some ([], set_client 0 GS_wait
                (set_taskChan (mkChan [] 2 true) (after double graceful_closing))) /\
  (Forall (fun w => w = WExit) (workers (after double graceful_waiting)) /\
   after double graceful_cancelling = set_client 0 GS_cancel (after double graceful_waiting)) /\
  (exec 0 double (AClient 0 BRun) (after double graceful_cancelling)
   = Some ([], set_client 0 GS_check2 (with_pool cancel (after double graceful_cancelling))) /\
   ctx (cancel (pool (after double graceful_cancelling))) <> None).
Proof.
  assert (R1 : reachable 0 double (after double graceful_entered))
    by (eapply after_reachable; vm_compute; reflexivity).
  assert (R2 : reachable 0 double (after double graceful_closing))
    by (eapply after_reachable; vm_compute; reflexivity).
  assert (R3 : reachable 0 double (after double graceful_waiting))
    by (eapply after_reachable; vm_compute; reflexivity).
  assert (R4 : reachable 0 double (after double graceful_cancelling))
    by (eapply after_reachable; vm_compute; reflexivity).
  split; [exact R1|].
  split.
  { apply (proj1 (GracefulStop_effect 0 double _ 0 R1 eq_refl) BDefault []).
    - vm_compute; reflexivity.
    - vm_compute; reflexivity.
    - vm_compute; reflexivity. }
  split.
  { apply (proj1 (proj2 (GracefulStop_effect 0 double _ 0 R2 eq_refl))).
    - vm_compute; reflexivity.
    - vm_compute; reflexivity. }
  split.
  { apply (proj1 (proj2 (proj2 (proj2 (GracefulStop_effect 0 double _ 0 R3 eq_refl))))
             BRun []).
    - vm_compute; reflexivity.
    - vm_compute; reflexivity. }
  apply (proj1 (proj2 (proj2 (proj2 (proj2 (GracefulStop_effect 0 double _ 0 R4 eq_refl)))))).
  vm_compute; reflexivity.
Defined.

(** ** The theorems on the other packages at work *)

Lemma Get_after_Set_witness :
  Cache.Get 0 2 (Cache.Set_ 1 25 (Cache.Set_ 2 7 Cache.NewCache))
  = Cache.Get 0 2 (Cache.Set_ 2 7 Cache.NewCache) /\
  Cache.Get 0 1 (Cache.Set_ 1 25 (Cache.Set_ 2 7 Cache.NewCache)) = (25, true).
Proof.
  destruct (Get_after_Set 0 1 2 25 (Cache.Set_ 2 7 Cache.NewCache))
    as (Hhit & Hother & _ & _).
  split; [apply Hother; lia|exact Hhit].
Defined.

Lemma Get_after_writes_witness :
  Cache.last_write 3 ages = None /\
  Cache.Get 0 3 (Cache.Set_all ages Cache.NewCache) = (0, false) /\
  Cache.Get 0 1 (Cache.Set_all ages Cache.NewCache) = (30, true).
Proof.
  assert (H : Cache.last_write 3 ages = None) by (vm_compute; reflexivity).
  split; [exact H|]. split.
  - exact (proj2 (Get_after_writes 0 3 ages Cache.NewCache) H).
  - exact (proj1 (Get_after_writes 0 1 ages Cache.NewCache)).
Defined.

Lemma Retry_no_attempts_witness :
  Retry.MaxAttempts hopeless <= 0 /\
  Retry.Retry 0 hopeless flaky = Retry.mkOutcome 0 None 0 [].
Proof.
  assert (H : Retry.MaxAttempts hopeless <= 0) by (simpl; lia).
  split; [exact H|]. exact (Retry_no_attempts 0 hopeless flaky H).
Defined.

Lemma Retry_first_success_witness :
  Retry.all_failed flaky 3 /\
  Retry.result (Retry.Retry 0 patient flaky) = 42 /\
  Retry.err (Retry.Retry 0 patient flaky) = None /\
  Retry.calls (Retry.Retry 0 patient flaky) = 3%nat /\
  length (Retry.sleeps (Retry.Retry 0 patient flaky)) = 2%nat.
Proof.
  assert (Hf : Retry.all_failed flaky 3).
  { intros i Hi. assert (Hi' : i = 1 \/ i = 2) by lia.
    destruct Hi' as [-> | ->]; simpl; (split; [reflexivity|split; [discriminate|reflexivity]]). }
  split; [exact Hf|].
  apply (Retry_first_success 0 patient flaky 3).
  - simpl; lia.
  - exact Hf.
  - reflexivity.
  - left. reflexivity.
Defined.

Lemma Retry_cancelled_witness :
  Retry.all_failed cut_short 3 /\
  (Retry.result (Retry.Retry 0 patient cut_short) = -2 /\
   Retry.err (Retry.Retry 0 patient cut_short) = Some Canceled /\
   Retry.calls (Retry.Retry 0 patient cut_short) = 2%nat) /\
  (Retry.result (Retry.Retry 0 patient woken_early) = -2 /\
   Retry.err (Retry.Retry 0 patient woken_early) = Some DeadlineExceeded /\
   Retry.calls (Retry.Retry 0 patient woken_early) = 2%nat).
Proof.
  assert (Hf : Retry.all_failed cut_short 3).
  { intros i Hi. assert (Hi' : i = 1 \/ i = 2) by lia.
    destruct Hi' as [-> | ->]; simpl; (split; [reflexivity|split; [discriminate|reflexivity]]). }
  assert (Hw : Retry.all_failed woken_early 2).
  { intros i Hi. assert (Hi' : i = 1) by lia. subst i. simpl.
    split; [reflexivity|split; [discriminate|reflexivity]]. }
  split; [exact Hf|]. split.
  - apply (proj1 (Retry_cancelled 0 patient cut_short 3 Canceled ltac:(simpl; lia) Hf)).
    reflexivity.
  - apply (proj2 (Retry_cancelled 0 patient woken_early 2 DeadlineExceeded
                    ltac:(simpl; lia) Hw)).
    + reflexivity.
    + simpl. discriminate.
    + simpl. lia.
    + reflexivity.
Defined.

Lemma Retry_backoff_ascending_witness :
  Retry.sleeps (Retry.Retry 0 patient flaky) = [150; 450] /\
  Retry.ascending (Retry.sleeps (Retry.Retry 0 patient flaky)) /\
  Forall (fun d => 0 <= d <= 1000) (Retry.sleeps (Retry.Retry 0 patient flaky)).
Proof.
  split; [vm_compute; reflexivity|].
  apply (Retry_backoff_ascending 0 patient flaky).
  - simpl; lia.
  - simpl; lia.
  - intros a d Hd. change (0 <= d / 2 <= 2 * d). Z.div_mod_to_equations. lia.
Defined.

Lemma Do_ends_transaction_witness :
  Trx.Do db_up [] read_row
  = (Trx.Returns (Trx.Other "row", None), [Trx.CBegin; Trx.CCommit 7]) /\
  count Trx.is_commit (snd (Trx.Do db_up [] read_row)) = 1%nat.
Proof.
  destruct (Do_ends_transaction db_up [] read_row) as (_ & Hbegun & _ & Hres).
  destruct (Hbegun 7%nat eq_refl) as (_ & _ & Hok).
  destruct (Hok (Trx.Other "row") eq_refl) as (Hcalls & Hret & _).
  split.
  - rewrite (surjective_pairing (Trx.Do db_up [] read_row)), Hcalls, (Hret eq_refl).
    reflexivity.
  - apply (Hres (Trx.Other "row") None (Hret eq_refl)). discriminate.
Defined.

Lemma Do_passes_transaction_witness :
  Trx.TxFromContext nested = (Some 3%nat, None) /\
  Trx.TxFromContext (Trx.WithValue nested Trx.trxKey (Trx.TxPtr (Some 7%nat)))
  = (Some 7%nat, None) /\
  Trx.Do db_up nested Trx.find_tx
  = (Trx.Returns (Trx.TxPtr (Some 7%nat), None), [Trx.CBegin; Trx.CCommit 7]).
Proof.
  destruct (Do_passes_transaction db_up nested 7 eq_refl) as (Htx & _ & Hdo).
  split; [reflexivity|]. split; [exact Htx|exact (Hdo eq_refl)].
Defined.

Lemma TxFromContext_cases_witness :
  Trx.Value foreign Trx.trxKey = Trx.Nil /\
  Trx.TxFromContext foreign = (None, Some "cannot find transaction"%string) /\
  Trx.TxFromContext (Trx.WithValue nested Trx.trxKey (Trx.Other "a string"))
  = (None, Some "received value is not a *sql.Tx"%string).
Proof.
  assert (H : Trx.Value foreign Trx.trxKey = Trx.Nil) by reflexivity.
  split; [exact H|]. split.
  - exact (proj1 (proj2 (TxFromContext_cases foreign)) H).
  - exact (proj1 (proj2 (proj2 (TxFromContext_cases
             (Trx.WithValue nested Trx.trxKey (Trx.Other "a string")))))
             "a string"%string eq_refl).
Defined.

Lemma NewLeakyBucket_guards_witness :
  Limiter.NewLeakyBucket 2000000000 1 = Some bucket_fast /\
  Limiter.exec Limiter.ALeakStart bucket_fast = Some ([], Limiter.crash bucket_fast) /\
  Limiter.NewLeakyBucket 2 2 = Some bucket2 /\
  Limiter.exec Limiter.ALeakStart bucket2
  = Some ([], Limiter.set_leak (Limiter.Ticking (Limiter.Second / 2)) bucket2) /\
  Limiter.NewLeakyBucket 0 5 = None.
Proof.
  destruct (NewLeakyBucket_guards 2000000000 1) as [_ Hfast].
  destruct (Hfast bucket_fast eq_refl) as (_ & _ & _ & _ & _ & Hcrash & _).
  destruct (NewLeakyBucket_guards 2 2) as [_ Hslow].
  destruct (Hslow bucket2 eq_refl) as (_ & _ & _ & _ & _ & _ & Hstart).
  destruct (NewLeakyBucket_guards 0 5) as [Hnone _].
  split; [reflexivity|].
  split; [apply Hcrash; unfold Limiter.Second; lia|].
  split; [reflexivity|].
  split; [apply Hstart; unfold Limiter.Second; lia|].
  apply Hnone. left. lia.
Defined.

Lemma allowed_at_most_capacity_plus_ticks_witness :
  Limiter.NewLeakyBucket 2 2 = Some bucket2 /\
  Limiter.run burst bucket2 = Some ([true; true; false; true], bucket_full) /\
  count id [true; true; false; true] = 3%nat /\
  count Limiter.is_tick burst = 1%nat /\
  Z.of_nat (count id [true; true; false; true]) <= 2 + Z.of_nat (count Limiter.is_tick burst) /\
  fst (Limiter.Allow bucket_full) = false.
Proof.
  assert (H1 : Limiter.NewLeakyBucket 2 2 = Some bucket2) by reflexivity.
  assert (H2 : Limiter.run burst bucket2 = Some ([true; true; false; true], bucket_full))
    by (vm_compute; reflexivity).
  destruct (allowed_at_most_capacity_plus_ticks 2 2 bucket2 burst _ _ H1 H2)
    as (_ & Hle & Hallow).
  split; [exact H1|]. split; [exact H2|].
  split; [reflexivity|]. split; [reflexivity|]. split; [exact Hle|].
  rewrite (proj1 (Hallow eq_refl)). reflexivity.
Defined.

Lemma stopped_bucket_fills_witness :
  Limiter.NewLeakyBucket 2 2 = Some bucket2 /\
  Limiter.run halt bucket2 = Some ([true], bucket_halted) /\
  Limiter.exec Limiter.AStop bucket_halted = Some ([], Limiter.crash bucket_halted) /\
  Limiter.run [Limiter.AAllow; Limiter.AAllow; Limiter.AAllow] bucket_halted
  = Some ([true; false; false], bucket_halted_full) /\
  Limiter.level bucket_halted_full = 2%nat.
Proof.
  assert (H1 : Limiter.NewLeakyBucket 2 2 = Some bucket2) by reflexivity.
  assert (H2 : Limiter.run halt bucket2 = Some ([true], bucket_halted))
    by (vm_compute; reflexivity).
  assert (H3 : Limiter.run [Limiter.AAllow; Limiter.AAllow; Limiter.AAllow] bucket_halted
               = Some ([true; false; false], bucket_halted_full))
    by (vm_compute; reflexivity).
  destruct (stopped_bucket_fills 2 2 bucket2 halt _ _
              [Limiter.AAllow; Limiter.AAllow; Limiter.AAllow] [true; false; false]
              bucket_halted_full H1 H2)
    as [Hstop Hfill].
  destruct (Hfill eq_refl H3) as (_ & Hlevel & _).
  split; [exact H1|]. split; [exact H2|]. split; [exact (Hstop eq_refl eq_refl)|].
  split; [exact H3|]. rewrite Hlevel. reflexivity.
Defined.

Lemma DoWork_keeps_order_witness :
  DoWork.run feed (DoWork.DoWork lines DoWork.Never) = Some fed /\
  DoWork.sent feed = ["a"; "b"]%string /\
  DoWork.processed fed ++ DoWork.in_hand fed ++ buf (DoWork.strings fed)
  = buf lines ++ DoWork.sent feed.
Proof.
  assert (H : DoWork.run feed (DoWork.DoWork lines DoWork.Never) = Some fed)
    by (vm_compute; reflexivity).
  destruct (DoWork_keeps_order lines DoWork.Never feed fed (or_introl H)) as [Heq _].
  split; [exact H|]. split; [reflexivity|]. exact Heq.
Defined.

Lemma DoWork_completed_meaning_witness :
  DoWork.run feed (DoWork.DoWorkWithContext DoWork.Never lines) = Some fed /\
  DoWork.completed fed = true /\
  closed (DoWork.strings fed) = true /\
  DoWork.processed fed = buf lines ++ DoWork.sent feed.
Proof.
  assert (H : DoWork.run feed (DoWork.DoWorkWithContext DoWork.Never lines) = Some fed)
    by (vm_compute; reflexivity).
  destruct (DoWork_completed_meaning lines DoWork.Never feed fed (or_intror H))
    as (_ & _ & _ & Hall).
  split; [exact H|]. split; [reflexivity|]. exact (Hall eq_refl eq_refl).
Defined.

Lemma DoWorkBuffered_bound_witness :
  Buffered.run feed_buffered (Buffered.DoWorkBuffered lines DoWork.Pending 1)
  = Some fed_buffered /\
  Z.of_nat (count Buffered.is_processing (Buffered.children fed_buffered)) <= 1 /\
  Buffered.exec (Buffered.ADispatcher BBuf) fed_buffered = None.
Proof.
  assert (H : Buffered.run feed_buffered (Buffered.DoWorkBuffered lines DoWork.Pending 1)
              = Some fed_buffered)
    by (vm_compute; reflexivity).
  destruct (DoWorkBuffered_bound lines DoWork.Pending 1 feed_buffered fed_buffered H)
    as [Hle _].
  split; [exact H|]. split; [exact Hle|]. vm_compute; reflexivity.
Defined.

Lemma DoWorkBuffered_no_workers_witness :
  Buffered.run feed_unserved (Buffered.DoWorkBuffered lines DoWork.Pending 0)
  = Some unserved /\
  Buffered.processed unserved = [] /\
  Buffered.exec (Buffered.ADispatcher BBuf) unserved = None /\
  Buffered.exec (Buffered.ADispatcher BRun) (Buffered.DoWorkBuffered lines DoWork.Pending (-1))
  = Some (Buffered.mkState lines DoWork.Pending (-1) None Buffered.DStart [] [] true true).
Proof.
  assert (H : Buffered.run feed_unserved (Buffered.DoWorkBuffered lines DoWork.Pending 0)
              = Some unserved)
    by (vm_compute; reflexivity).
  destruct (DoWorkBuffered_no_workers lines DoWork.Pending 0 feed_unserved unserved
              ltac:(lia) H) as (Hp & _ & _).
  destruct (DoWorkBuffered_no_workers lines DoWork.Pending (-1) []
              (Buffered.DoWorkBuffered lines DoWork.Pending (-1)) ltac:(lia) eq_refl)
    as (_ & _ & Hpanic).
  split; [exact H|]. split; [exact Hp|]. split; [vm_compute; reflexivity|].
  apply Hpanic. lia.
Defined.

Lemma orDone_forwards_in_order_witness :
  OrDone.run relay_cut (OrDone.orDone DoWork.Pending numbers) = Some relayed_cut /\
  OrDone.forwarded relayed_cut `sublist_of` buf numbers ++ OrDone.sent relay_cut /\
  OrDone.run relay (OrDone.orDone DoWork.Pending numbers) = Some relayed /\
  OrDone.forwarded relayed ++ OrDone.in_hand relayed ++ buf (OrDone.c relayed)
  = buf numbers ++ OrDone.sent relay.
Proof.
  assert (H1 : OrDone.run relay_cut (OrDone.orDone DoWork.Pending numbers)
               = Some relayed_cut)
    by (vm_compute; reflexivity).
  assert (H2 : OrDone.run relay (OrDone.orDone DoWork.Pending numbers) = Some relayed)
    by (vm_compute; reflexivity).
  destruct (orDone_forwards_in_order numbers DoWork.Pending relay_cut relayed_cut H1)
    as [Hsub _].
  destruct (orDone_forwards_in_order numbers DoWork.Pending relay relayed H2)
    as [_ Hall].
  destruct (Hall ltac:(discriminate)) as [_ Heq].
  split; [exact H1|]. split; [exact Hsub|]. split; [exact H2|]. exact Heq.
Defined.

Lemma orDone_closes_output_witness :
  OrDone.run relay (OrDone.orDone DoWork.Pending numbers) = Some relayed /\
  OrDone.out_closed relayed = true /\
  closed (OrDone.c relayed) = true /\
  OrDone.forwarded relayed = buf numbers ++ OrDone.sent relay.
Proof.
  assert (H : OrDone.run relay (OrDone.orDone DoWork.Pending numbers) = Some relayed)
    by (vm_compute; reflexivity).
  destruct (orDone_closes_output numbers DoWork.Pending relay relayed H) as [_ Hlate].
  split; [exact H|]. split; [reflexivity|].
  apply Hlate; [reflexivity|discriminate].
Defined.

Lemma Bridge_keeps_order_witness :
  Bridge.run flatten_cut (Bridge.Bridge DoWork.Pending stream_queue two_streams)
  = Some flattened_cut /\
  Bridge.joined (Bridge.passes flattened_cut) = [1] /\
  Bridge.out flattened_cut `sublist_of` Bridge.joined (Bridge.passes flattened_cut) /\
  Bridge.run flatten (Bridge.Bridge DoWork.Pending stream_queue two_streams)
  = Some flattened /\
  Bridge.out flattened ++ Bridge.in_hand flattened
  = Bridge.joined (Bridge.passes flattened).
Proof.
  assert (H1 : Bridge.run flatten_cut
                 (Bridge.Bridge DoWork.Pending stream_queue two_streams)
               = Some flattened_cut)
    by (vm_compute; reflexivity).
  assert (H2 : Bridge.run flatten (Bridge.Bridge DoWork.Pending stream_queue two_streams)
               = Some flattened)
    by (vm_compute; reflexivity).
  destruct (Bridge_keeps_order DoWork.Pending stream_queue two_streams _ _ H1)
    as (_ & _ & Hsub & _).
  destruct (Bridge_keeps_order DoWork.Pending stream_queue two_streams _ _ H2)
    as (_ & _ & _ & Hall).
  destruct (Hall ltac:(discriminate)) as [Heq _].
  split; [exact H1|]. split; [reflexivity|]. split; [exact Hsub|].
  split; [exact H2|exact Heq].
Defined.

Lemma Bridge_flattens_witness :
  Bridge.run flatten (Bridge.Bridge DoWork.Pending stream_queue two_streams)
  = Some flattened /\
  buf stream_queue ++ Bridge.put flatten = [0; 1]%nat /\
  Bridge.content two_streams flatten 0 = [1; 2] /\
  Bridge.content two_streams flatten 1 = [3] /\
  Bridge.out flattened
  = mjoin (Bridge.content two_streams flatten <$> (buf stream_queue ++ Bridge.put flatten)).
Proof.
  assert (H : Bridge.run flatten (Bridge.Bridge DoWork.Pending stream_queue two_streams)
              = Some flattened)
    by (vm_compute; reflexivity).
  assert (Hnd : NoDup (buf stream_queue ++ Bridge.put flatten)).
  { apply (bool_decide_unpack _). vm_compute. exact I. }
  destruct (Bridge_flattens DoWork.Pending stream_queue two_streams _ _ H
              eq_refl ltac:(discriminate) Hnd) as [Hout _].
  split; [exact H|]. split; [reflexivity|]. split; [reflexivity|].
  split; [reflexivity|exact Hout].
Defined.
